(** * Layout.js of the N2 viewer: a shallow embedding and its properties

    The embedding follows
    [openmdao/visualization/n2_viewer/gen/Layout.js].  The model tree
    ([OmTreeNode]) is immutable structure; everything the layout mutates
    on a node ([node.draw], [node.textOpacity], ...) lives in a heap
    indexed by the node's identity, so that reads through references
    ([this.zoomedElement], [node.parentComponent], [earliestMinimizedParent],
    [this.model.root]) see the writes the source makes through aliases.

    JavaScript numbers that hold pixel or normalized values are kept
    abstract behind the interface [JSNumber]; the functions are written
    once against it.  Two instances are given: IEEE binary64 (what a
    JavaScript engine computes) and exact rationals extended with NaN.
    Counts ([numLeaves], [depth], array lengths) are integers. *)

From Stdlib Require Import ZArith List Bool String Ascii Lia.
From Stdlib Require Import QArith Qminmax.
From Stdlib Require Import Floats Uint63.
Import ListNotations.
Local Open Scope Z_scope.
Local Open Scope bool_scope.

Set Implicit Arguments.
#[local] Set Warnings "-register-all".

(** ** JavaScript numbers *)

(** The operations of [Number] that Layout.js uses. *)
Class JSNumber (num : Type) : Type := {
  of_int : Z -> num;             (* an integer-valued number *)
  lit_1em6 : num;                (* the literal 1e-6 *)
  lit_1em3 : num;                (* the literal 1e-3 *)
  lit_half : num;                (* the literal 0.5 *)
  lit_nan : num;                 (* ToNumber(undefined) *)
  nadd : num -> num -> num;      (* a + b *)
  nsub : num -> num -> num;      (* a - b *)
  nmul : num -> num -> num;      (* a * b *)
  ndiv : num -> num -> num;      (* a / b *)
  nmax : num -> num -> num;      (* Math.max(a, b) *)
  nlt : num -> num -> bool;      (* a < b *)
  nle : num -> num -> bool;      (* a <= b *)
  truthy : num -> bool;          (* ToBoolean(a) *)
  (* what the literal 1e-6 denotes is above 0 and is not 0 *)
  lit_1em6_positive : nlt (of_int 0) lit_1em6 = true;
  lit_1em6_nonzero : truthy lit_1em6 = true
}.

(** [a > b] and [a >= b] are [b < a] and [b <= a]. *)
Definition ngt {num} `{JSNumber num} (a b : num) : bool := nlt b a.
Definition nge {num} `{JSNumber num} (a b : num) : bool := nle b a.

Module Binary64.

(** [Math.max]: NaN if either argument is NaN, and +0 above -0. *)
Definition max (a b : float) : float :=
  if PrimFloat.is_nan a || PrimFloat.is_nan b then nan
  else if PrimFloat.ltb a b then b
  else if PrimFloat.ltb b a then a
  else if PrimFloat.get_sign a then b else a.

Definition of_Z (z : Z) : float :=
  if z <? 0 then PrimFloat.opp (PrimFloat.of_uint63 (Uint63.of_Z (- z)))
  else PrimFloat.of_uint63 (Uint63.of_Z z).

(** NaN, +0 and -0 are falsy. *)
Definition to_boolean (a : float) : bool :=
  negb (PrimFloat.is_nan a || PrimFloat.eqb a PrimFloat.zero).

#[global] Instance number : JSNumber float := {
  of_int := of_Z;
  lit_1em6 := 0x1.0c6f7a0b5ed8dp-20%float;
  lit_1em3 := 0x1.0624dd2f1a9fcp-10%float;
  lit_half := 0.5%float;
  lit_nan := nan;
  nadd := PrimFloat.add;
  nsub := PrimFloat.sub;
  nmul := PrimFloat.mul;
  ndiv := PrimFloat.div;
  nmax := max;
  nlt := PrimFloat.ltb;
  nle := PrimFloat.leb;
  truthy := to_boolean;
  lit_1em6_positive := eq_refl;
  lit_1em6_nonzero := eq_refl
}.

End Binary64.

(** Exact arithmetic: a rational, or NaN where the quotient is undefined
    (rounding and the infinities are not represented). *)
Module Exact.

Inductive xnum : Type :=
| NaN
| Fin (q : Q).

Definition lift2 (f : Q -> Q -> Q) (a b : xnum) : xnum :=
  match a, b with
  | Fin p, Fin q => Fin (Qred (f p q))
  | _, _ => NaN
  end.

Definition div (a b : xnum) : xnum :=
  match a, b with
  | Fin p, Fin q => if Qeq_bool q 0 then NaN else Fin (Qred (Qdiv p q))
  | _, _ => NaN
  end.

Definition cmp (f : Q -> Q -> bool) (a b : xnum) : bool :=
  match a, b with
  | Fin p, Fin q => f p q
  | _, _ => false
  end.

Definition Qlt_bool (p q : Q) : bool := negb (Qle_bool q p).

Definition to_boolean (a : xnum) : bool :=
  match a with
  | NaN => false
  | Fin q => negb (Qeq_bool q 0)
  end.

#[global] Instance number : JSNumber xnum := {
  of_int := fun z => Fin (inject_Z z);
  lit_1em6 := Fin (1 # 1000000);
  lit_1em3 := Fin (1 # 1000);
  lit_half := Fin (1 # 2);
  lit_nan := NaN;
  nadd := lift2 Qplus;
  nsub := lift2 Qminus;
  nmul := lift2 Qmult;
  ndiv := div;
  nmax := lift2 Qmax;
  nlt := cmp Qlt_bool;
  nle := cmp Qle_bool;
  truthy := to_boolean;
  lit_1em6_positive := eq_refl;
  lit_1em6_nonzero := eq_refl
}.

End Exact.

(** ** The model tree and the heap of per-node layout state *)

(** A reference to a node object: its identity, and the (immutable)
    depth the source reads through the reference. *)
Record NodeRef : Type := {
  ref_id : nat;
  ref_depth : Z
}.

(** The immutable part of an [OmTreeNode].  [node_id] stands for the
    identity of the JavaScript object. *)
#[local] Unset Elimination Schemes.
Inductive OmTreeNode : Type := TreeNode {
  node_id : nat;
  name : string;
  absPathName : string;
  promotedName : option string;
  depth : Z;
  isInputOrOutput : bool;
  isFilter : bool;
  parent : option NodeRef;
  parentComponent : option NodeRef;
  children : list OmTreeNode
}.
#[local] Set Elimination Schemes.

(** [node.hasChildren()]: the children array is populated. *)
Definition hasChildren (node : OmTreeNode) : bool :=
  match children node with
  | [] => false
  | _ :: _ => true
  end.

Definition self_ref (node : OmTreeNode) : NodeRef :=
  {| ref_id := node_id node; ref_depth := depth node |}.

(** Induction over the tree, with the hypothesis for every child. *)
Section OmTreeNode_induction.
Variable P : OmTreeNode -> Prop.
Hypothesis step : forall node, Forall P (children node) -> P node.

Fixpoint OmTreeNode_ind' (node : OmTreeNode) : P node :=
  step node
    (match node return Forall P (children node) with
     | TreeNode _ _ _ _ _ _ _ _ _ cs =>
         (fix go (l : list OmTreeNode) : Forall P l :=
            match l with
            | [] => Forall_nil P
            | c :: l' => Forall_cons c (OmTreeNode_ind' c) (go l')
            end) cs
     end).
End OmTreeNode_induction.

(** Identities of the nodes of a subtree, in pre-order. *)
Fixpoint subtree_ids (node : OmTreeNode) : list nat :=
  match node with
  | TreeNode i _ _ _ _ _ _ _ _ cs => i :: flat_map subtree_ids cs
  end.

(** The number of leaves of a subtree. *)
Fixpoint leafCount (node : OmTreeNode) : Z :=
  match node with
  | TreeNode _ _ _ _ _ _ _ _ _ [] => 1
  | TreeNode _ _ _ _ _ _ _ _ _ cs => fold_right Z.add 0 (map leafCount cs)
  end.

(** The flags of [node.draw] that the layout reads. *)
Record DrawFlags : Type := {
  hidden : bool;
  filtered : bool;
  minimized : bool;
  manuallyExpanded : bool
}.

Definition set_minimized (b : bool) (f : DrawFlags) : DrawFlags :=
  {| hidden := hidden f; filtered := filtered f; minimized := b;
     manuallyExpanded := manuallyExpanded f |}.

(** [arr[i]] for an integer [i]: [None] is [undefined]. *)
Definition index {A : Type} (arr : list A) (i : Z) : option A :=
  if i <? 0 then None else nth_error arr (Z.to_nat i).

(** [arr[i] = v] for an index inside the array. *)
Fixpoint replace_nth {A : Type} (arr : list A) (n : nat) (v : A) : list A :=
  match arr, n with
  | [], _ => []
  | _ :: tl, O => v :: tl
  | a :: tl, S n' => a :: replace_nth tl n' v
  end.

Definition assign {A : Type} (arr : list A) (i : Z) (v : A) : list A :=
  if i <? 0 then arr else replace_nth arr (Z.to_nat i) v.

(** [str.match(/.*suffix$/)] and [str.match(/^prefix.*/)] for literal
    [suffix] and [prefix]. *)
Definition endsWith (suffix str : string) : bool :=
  let n := String.length str in
  let k := String.length suffix in
  Nat.leb k n && String.eqb (substring (n - k) k str) suffix.

Definition startsWith (prefix str : string) : bool := String.prefix prefix str.

(** ** Completion of a method: it returns, or it throws *)

Inductive Error : Type :=
| TypeError        (* a property of [undefined] is read or written *)
| RangeError       (* [new Array(n)] with a negative [n] *)
| OutsideModel.    (* a fixed-size array would grow: not represented *)

(** The state is kept in both cases: what was written before a throw
    stays written. *)
Inductive Result (S A : Type) : Type :=
| Ok (a : A) (s : S)
| Throw (e : Error) (s : S).

Arguments Ok {S A} a s.
Arguments Throw {S A} e s.

Definition M (S A : Type) : Type := S -> Result S A.

Definition ret {S A : Type} (a : A) : M S A := fun s => Ok a s.

Definition bind {S A B : Type} (m : M S A) (k : A -> M S B) : M S B :=
  fun s => match m s with
           | Ok a s' => k a s'
           | Throw e s' => Throw e s'
           end.

Definition get {S A : Type} (f : S -> A) : M S A := fun s => Ok (f s) s.

Definition modify {S : Type} (f : S -> S) : M S unit := fun s => Ok tt (f s).

Definition throw {S A : Type} (e : Error) : M S A := fun s => Throw e s.

(** Reading a property of [o]: a [TypeError] when [o] is [undefined]. *)
Definition defined {S A : Type} (o : option A) : M S A :=
  match o with
  | Some a => ret a
  | None => throw TypeError
  end.

Definition final_state {S A : Type} (r : Result S A) : S :=
  match r with
  | Ok _ s => s
  | Throw _ s => s
  end.

Definition returns {S A : Type} (r : Result S A) : bool :=
  match r with
  | Ok _ _ => true
  | Throw _ _ => false
  end.

Declare Scope js_scope.
Delimit Scope js_scope with js.
Notation "x <- m ;; k" := (bind m (fun x => k))
  (at level 61, m at next level, right associativity) : js_scope.
Notation "m ;; k" := (bind m (fun _ => k))
  (at level 61, right associativity) : js_scope.
Local Open Scope js_scope.

(** Propositional reasoning that leaves alone the variables a goal does
    not mention. *)
Ltac unmentioned :=
  repeat match goal with
         | x : ?T |- _ =>
             lazymatch type of T with
             | Prop => fail
             | _ => clear x
             end
         end.
Ltac ptauto := unmentioned; tauto.

Section Layout.

#[local] Set Default Proof Using "Type".

Context {num : Type} {NUM : JSNumber num}.

Definition zero : num := of_int 0.
Definition one : num := of_int 1.

Record Dimensions : Type := {
  dims_x : num;
  dims_y : num;
  dims_width : num;
  dims_height : num
}.

Definition set_x (v : num) (d : Dimensions) : Dimensions :=
  {| dims_x := v; dims_y := dims_y d; dims_width := dims_width d;
     dims_height := dims_height d |}.
Definition set_y (v : num) (d : Dimensions) : Dimensions :=
  {| dims_x := dims_x d; dims_y := v; dims_width := dims_width d;
     dims_height := dims_height d |}.
Definition set_width (v : num) (d : Dimensions) : Dimensions :=
  {| dims_x := dims_x d; dims_y := dims_y d; dims_width := v;
     dims_height := dims_height d |}.
Definition set_height (v : num) (d : Dimensions) : Dimensions :=
  {| dims_x := dims_x d; dims_y := dims_y d; dims_width := dims_width d;
     dims_height := v |}.

(** What the layout keeps on a node: [node.draw] and the text opacities. *)
Record NodeState : Type := {
  flags : DrawFlags;
  numLeaves : Z;
  nameWidthPx : num;
  dims : Dimensions;
  prevDims : Dimensions;
  textOpacity : option num;      (* [None]: the property does not exist *)
  prevTextOpacity : option num
}.

Definition Heap : Type := nat -> NodeState.

Definition upd (h : Heap) (i : nat) (f : NodeState -> NodeState) : Heap :=
  fun j => if Nat.eqb j i then f (h i) else h j.

Definition set_flags (f : DrawFlags) (s : NodeState) : NodeState :=
  {| flags := f; numLeaves := numLeaves s; nameWidthPx := nameWidthPx s;
     dims := dims s; prevDims := prevDims s;
     textOpacity := textOpacity s; prevTextOpacity := prevTextOpacity s |}.

Definition set_numLeaves (n : Z) (s : NodeState) : NodeState :=
  {| flags := flags s; numLeaves := n; nameWidthPx := nameWidthPx s;
     dims := dims s; prevDims := prevDims s;
     textOpacity := textOpacity s; prevTextOpacity := prevTextOpacity s |}.

Definition set_nameWidthPx (w : num) (s : NodeState) : NodeState :=
  {| flags := flags s; numLeaves := numLeaves s; nameWidthPx := w;
     dims := dims s; prevDims := prevDims s;
     textOpacity := textOpacity s; prevTextOpacity := prevTextOpacity s |}.

Definition set_dims (d : Dimensions) (s : NodeState) : NodeState :=
  {| flags := flags s; numLeaves := numLeaves s; nameWidthPx := nameWidthPx s;
     dims := d; prevDims := prevDims s;
     textOpacity := textOpacity s; prevTextOpacity := prevTextOpacity s |}.

Definition set_prevDims (d : Dimensions) (s : NodeState) : NodeState :=
  {| flags := flags s; numLeaves := numLeaves s; nameWidthPx := nameWidthPx s;
     dims := dims s; prevDims := d;
     textOpacity := textOpacity s; prevTextOpacity := prevTextOpacity s |}.

Definition set_opacities (prev cur : option num) (s : NodeState) : NodeState :=
  {| flags := flags s; numLeaves := numLeaves s; nameWidthPx := nameWidthPx s;
     dims := dims s; prevDims := prevDims s;
     textOpacity := cur; prevTextOpacity := prev |}.

Definition draw_hidden (h : Heap) (node : OmTreeNode) : bool :=
  hidden (flags (h (node_id node))).
Definition draw_filtered (h : Heap) (node : OmTreeNode) : bool :=
  filtered (flags (h (node_id node))).
Definition draw_minimized (h : Heap) (node : OmTreeNode) : bool :=
  minimized (flags (h (node_id node))).
Definition draw_numLeaves (h : Heap) (node : OmTreeNode) : Z :=
  numLeaves (h (node_id node)).
Definition draw_dims (h : Heap) (node : OmTreeNode) : Dimensions :=
  dims (h (node_id node)).

(** *** The model, the sizes and the fields of the layout object *)

Record ModelData : Type := {
  root : OmTreeNode;
  nodeIds_length : Z;            (* [model.nodeIds.length] *)
  depthCount : list Z;           (* [model.depthCount] *)
  maxDepth : Z
}.

(** [this.size], but for [size.partitionTree.width], which the layout
    assigns and which is kept in the state. *)
Record Size : Type := {
  n2matrix_height : num;
  font : num;
  minColumnWidth : num;
  rightTextMargin : num;
  parentNodeWidth : num;
  partitionTree_height : num
}.

Record Column : Type := {
  col_width : num;
  col_location : num
}.

Definition set_col_width (v : num) (c : Column) : Column :=
  {| col_width := v; col_location := col_location c |}.
Definition set_col_location (v : num) (c : Column) : Column :=
  {| col_width := col_width c; col_location := v |}.

(** [textRenderer.widthCache]: rendered widths by text. *)
Definition WidthCache : Type := list (string * num).

Fixpoint cache_lookup (text : string) (c : WidthCache) : option num :=
  match c with
  | [] => None
  | (k, v) :: c' => if String.eqb k text then Some v else cache_lookup text c'
  end.

(** The node objects and the fields of [this] that the layout pass
    assigns. *)
Record World : Type := {
  heap : Heap;
  zoomedNodes : list nat;            (* identities, in push order *)
  visibleNodes : list nat;
  treeWidth : num;                   (* [this.size.partitionTree.width] *)
  textRenderer : option WidthCache;  (* [None]: deleted or not set up *)
  greatestDepth : Z;
  leafWidthsPx : list num;
  cols : list Column
}.

Definition with_heap (v : Heap) (w : World) : World :=
  {| heap := v; zoomedNodes := zoomedNodes w; visibleNodes := visibleNodes w;
     treeWidth := treeWidth w; textRenderer := textRenderer w;
     greatestDepth := greatestDepth w; leafWidthsPx := leafWidthsPx w;
     cols := cols w |}.
Definition with_zoomedNodes (v : list nat) (w : World) : World :=
  {| heap := heap w; zoomedNodes := v; visibleNodes := visibleNodes w;
     treeWidth := treeWidth w; textRenderer := textRenderer w;
     greatestDepth := greatestDepth w; leafWidthsPx := leafWidthsPx w;
     cols := cols w |}.
Definition with_visibleNodes (v : list nat) (w : World) : World :=
  {| heap := heap w; zoomedNodes := zoomedNodes w; visibleNodes := v;
     treeWidth := treeWidth w; textRenderer := textRenderer w;
     greatestDepth := greatestDepth w; leafWidthsPx := leafWidthsPx w;
     cols := cols w |}.
Definition with_treeWidth (v : num) (w : World) : World :=
  {| heap := heap w; zoomedNodes := zoomedNodes w; visibleNodes := visibleNodes w;
     treeWidth := v; textRenderer := textRenderer w;
     greatestDepth := greatestDepth w; leafWidthsPx := leafWidthsPx w;
     cols := cols w |}.
Definition with_textRenderer (v : option WidthCache) (w : World) : World :=
  {| heap := heap w; zoomedNodes := zoomedNodes w; visibleNodes := visibleNodes w;
     treeWidth := treeWidth w; textRenderer := v;
     greatestDepth := greatestDepth w; leafWidthsPx := leafWidthsPx w;
     cols := cols w |}.
Definition with_greatestDepth (v : Z) (w : World) : World :=
  {| heap := heap w; zoomedNodes := zoomedNodes w; visibleNodes := visibleNodes w;
     treeWidth := treeWidth w; textRenderer := textRenderer w;
     greatestDepth := v; leafWidthsPx := leafWidthsPx w;
     cols := cols w |}.
Definition with_leafWidthsPx (v : list num) (w : World) : World :=
  {| heap := heap w; zoomedNodes := zoomedNodes w; visibleNodes := visibleNodes w;
     treeWidth := treeWidth w; textRenderer := textRenderer w;
     greatestDepth := greatestDepth w; leafWidthsPx := v;
     cols := cols w |}.
Definition with_cols (v : list Column) (w : World) : World :=
  {| heap := heap w; zoomedNodes := zoomedNodes w; visibleNodes := visibleNodes w;
     treeWidth := treeWidth w; textRenderer := textRenderer w;
     greatestDepth := greatestDepth w; leafWidthsPx := leafWidthsPx w;
     cols := v |}.

(** [node.draw.f = ...] and the like: an update of one node's state. *)
Definition on_node (node : OmTreeNode) (f : NodeState -> NodeState) : M World unit :=
  modify (fun w => with_heap (upd (heap w) (node_id node) f) w).

Variable model : ModelData.
Variable zoomedElement : OmTreeNode.
Variable size : Size.

(** [Precollapse.minimumNodes], declared outside Layout.js. *)
Variable Precollapse_minimumNodes : Z.

(** The test of [node.minimizeIfLarge(depthCount)], a method of the
    tree node declared outside Layout.js: it reads the node, its flags
    and the count of model nodes at the node's depth. *)
Variable tooLarge : OmTreeNode -> DrawFlags -> option Z -> bool.

(** [node.isVisible()] and [node.isVisibleLeaf()], methods of the tree
    node declared outside Layout.js: they read the node and its flags. *)
Variable isVisible : OmTreeNode -> DrawFlags -> bool.
Variable isVisibleLeaf : OmTreeNode -> DrawFlags -> bool.

(** The width the browser reports for a rendered text
    ([getBoundingClientRect().width] of the off-screen text element). *)
Variable renderedWidth : string -> num.

(** Modelled from the spec: [node.minimize()] is missing from the
    sources; the spec says the node is force-minimized. *)
Definition minimize (node : OmTreeNode) (h : Heap) : Heap :=
  upd h (node_id node) (fun s => set_flags (set_minimized true (flags s)) s).

(** Modelled from the spec: [node.minimizeIfLarge] is missing from the
    sources; the spec says a node that fails the size test is
    minimized. *)
Definition minimizeIfLarge (node : OmTreeNode) (count : option Z) (h : Heap) : Heap :=
  if tooLarge node (flags (h (node_id node))) count then minimize node h else h.

(** Modelled from the spec: [node.preserveDims] is missing from the
    sources; the spec says the draw state keeps a snapshot of the
    previous dims for interpolation. *)
Definition preserveDims (s : NodeState) : NodeState :=
  set_prevDims (dims s) s.

(** *** [_computeLeaves] *)

(** Lines 191-196: the auto-IVC node is minimized unless it was expanded
    by hand; in a large model a node is minimized when it is too large. *)
Definition precollapse (node : OmTreeNode) (h : Heap) : Heap :=
  if (name node =? "_auto_ivc")%string
     && negb (manuallyExpanded (flags (h (node_id node))))
  then minimize node h
  else if nodeIds_length model >? Precollapse_minimumNodes
  then minimizeIfLarge node (index (depthCount model) (depth node)) h
  else h.

Fixpoint _computeLeaves (node : OmTreeNode) (h : Heap) {struct node} : Heap :=
  let h := upd h (node_id node) (set_numLeaves 0) in
  if negb (draw_hidden h node || draw_filtered h node) then
    let h := precollapse node h in
    if hasChildren node && negb (draw_minimized h node) then
      (fix loop (cs : list OmTreeNode) (h : Heap) {struct cs} : Heap :=
         match cs with
         | [] => h
         | child :: cs' =>
             let h := _computeLeaves child h in
             let h := upd h (node_id node)
                        (fun s => set_numLeaves (numLeaves s + draw_numLeaves h child) s) in
             loop cs' h
         end) (children node) h
    else upd h (node_id node) (set_numLeaves 1)
  else h.

(** The loop over the children, named so that it can be stated about. *)
Definition leavesLoop (node : OmTreeNode) : list OmTreeNode -> Heap -> Heap :=
  fix loop (cs : list OmTreeNode) (h : Heap) {struct cs} : Heap :=
    match cs with
    | [] => h
    | child :: cs' =>
        let h := _computeLeaves child h in
        let h := upd h (node_id node)
                   (fun s => set_numLeaves (numLeaves s + draw_numLeaves h child) s) in
        loop cs' h
    end.

(** *** Text widths *)

(** [_setupTextRenderer]: a renderer with an empty width cache. *)
Definition _setupTextRenderer : M World unit :=
  modify (with_textRenderer (Some [])).

Definition _getTextWidth (text : string) : M World num :=
  r <- get textRenderer ;;
  cache <- defined r ;;
  match cache_lookup text cache with
  | Some width => ret width
  | None =>
      let width := renderedWidth text in
      modify (with_textRenderer (Some ((text, width) :: cache))) ;;
      ret width
  end.

Definition getText (node : OmTreeNode) : string :=
  if (name node =? "_auto_ivc")%string then "Auto-IVC"%string
  else if isFilter node then
    if endsWith "_N2_FILTER_inputs" (name node) then "Filtered Inputs"%string
    else "Filtered Outputs"%string
  else if startsWith "_auto_ivc" (absPathName node) then
    match promotedName node with
    | Some p => p
    | None => name node
    end
  else name node.

Fixpoint _updateTextWidths (node : OmTreeNode) {struct node} : M World unit :=
  h <- get heap ;;
  if draw_hidden h node then ret tt
  else
    tw <- _getTextWidth (getText node) ;;
    on_node node (set_nameWidthPx (nadd tw (nmul (of_int 2) (rightTextMargin size)))) ;;
    h <- get heap ;;
    if hasChildren node && negb (draw_minimized h node) then
      (fix loop (cs : list OmTreeNode) {struct cs} : M World unit :=
         match cs with
         | [] => ret tt
         | child :: cs' => _updateTextWidths child ;; loop cs'
         end) (children node)
    else ret tt.

(** *** Column widths *)

(** [_setColumnWidthsFromWidestText(node, 'children', this.cols,
    this.leafWidthsPx, 'nameWidthPx')]: the only call passes the two
    arrays of [this], so the writes through [colArr] and [leafArr] are
    writes to [this.cols] and [this.leafWidthsPx]. *)
Fixpoint _setColumnWidthsFromWidestText (node : OmTreeNode) {struct node} : M World unit :=
  h <- get heap ;;
  if draw_hidden h node then ret tt
  else
    let height :=
      ndiv (nmul (n2matrix_height size) (of_int (draw_numLeaves h node)))
           (of_int (draw_numLeaves h zoomedElement)) in
    let prev :=
      match textOpacity (h (node_id node)) with
      | Some o => o
      | None => zero
      end in
    let opacity := if ngt height (font size) then one else zero in
    on_node node (set_opacities (Some prev) (Some opacity)) ;;
    let hasVisibleDetail := nge height (of_int 2) in
    let width := if hasVisibleDetail then minColumnWidth size else lit_1em3 in
    h <- get heap ;;
    let width :=
      if ngt opacity lit_half then nameWidthPx (h (node_id node)) else width in
    modify (fun w => with_greatestDepth (Z.max (greatestDepth w) (depth node)) w) ;;
    if hasChildren node && negb (draw_minimized h node) then
      colArr <- get cols ;;
      col <- defined (index colArr (depth node)) ;;
      modify (with_cols
                (assign colArr (depth node)
                   (set_col_width (nmax (col_width col) width) col))) ;;
      (fix loop (cs : list OmTreeNode) {struct cs} : M World unit :=
         match cs with
         | [] => ret tt
         | child :: cs' => _setColumnWidthsFromWidestText child ;; loop cs'
         end) (children node)
    else if negb (draw_filtered h node) then
      leafArr <- get leafWidthsPx ;;
      match index leafArr (depth node) with
      | Some cur =>
          modify (with_leafWidthsPx (assign leafArr (depth node) (nmax cur width)))
      | None => throw OutsideModel
      end
    else ret tt.

(** The loop of [_computeColumnWidths], from [i] down to the depth of
    the zoomed element; [fuel] bounds the iterations. *)
Fixpoint lastColumnLoop (fuel : nat) (i : Z) (sum lastColumnWidth : num)
  : M World num :=
  match fuel with
  | O => ret lastColumnWidth
  | S fuel' =>
      if i >=? depth zoomedElement then
        colArr <- get cols ;;
        col <- defined (index colArr i) ;;
        let sum := nadd sum (col_width col) in
        leafArr <- get leafWidthsPx ;;
        let leaf :=
          match index leafArr i with
          | Some v => v
          | None => lit_nan
          end in
        let lastWidthNeeded := nsub leaf sum in
        lastColumnLoop fuel' (i - 1) sum (nmax lastWidthNeeded lastColumnWidth)
      else ret lastColumnWidth
  end.

(** [this.cols[i].width = v]. *)
Definition assign_col_width (i : Z) (v : num) : M World unit :=
  colArr <- get cols ;;
  col <- defined (index colArr i) ;;
  modify (with_cols (assign colArr i (set_col_width v col))).

(** Lines 247-261: fresh arrays, the widest texts, and the width the
    last column needs. *)
Definition widestColumns : M World num :=
  modify (with_greatestDepth 0) ;;
  (if maxDepth model + 1 <? 0 then throw RangeError else ret tt) ;;
  modify (with_leafWidthsPx (repeat zero (Z.to_nat (maxDepth model + 1)))) ;;
  modify (with_cols
            (repeat {| col_width := zero; col_location := zero |}
                    (Z.to_nat (maxDepth model + 1)))) ;;
  _setColumnWidthsFromWidestText zoomedElement ;;
  leafArr <- get leafWidthsPx ;;
  let len := Z.of_nat (List.length leafArr) in
  lastColumnLoop (S (Z.to_nat len)) (len - 1) zero zero.

(** Lines 263-264: the two ends are adjusted. *)
Definition adjustEnds (lastColumnWidth : num) : M World unit :=
  assign_col_width (depth zoomedElement - 1) (parentNodeWidth size) ;;
  gd <- get greatestDepth ;;
  assign_col_width gd lastColumnWidth.

Definition _computeColumnWidths : M World unit :=
  lastColumnWidth <- widestColumns ;;
  adjustEnds lastColumnWidth.

(** [_setColumnLocations(this.size.partitionTree, this.cols)]: [obj.width]
    is [this.size.partitionTree.width]. *)
Fixpoint columnLocationLoop (depths : list nat) : M World unit :=
  match depths with
  | [] => ret tt
  | d :: depths' =>
      colArr <- get cols ;;
      col <- defined (index colArr (Z.of_nat d)) ;;
      width <- get treeWidth ;;
      modify (with_cols (assign colArr (Z.of_nat d) (set_col_location width col))) ;;
      modify (with_treeWidth (nadd width (col_width col))) ;;
      columnLocationLoop depths'
  end.

Definition _setColumnLocations : M World unit :=
  modify (with_treeWidth zero) ;;
  columnLocationLoop (seq 1 (Z.to_nat (maxDepth model))).

(** *** Normalized positions *)

(** [dims.f = v] on [node.draw.dims]. *)
Definition on_dims (node : OmTreeNode) (f : Dimensions -> Dimensions) : M World unit :=
  on_node node (fun s => set_dims (f (dims s)) s).

Definition node_flags (h : Heap) (node : OmTreeNode) : DrawFlags :=
  flags (h (node_id node)).

(** Lines 292-300: inside the zoomed subtree and below no minimized
    node, a visible node joins [zoomedNodes]; a visible leaf also joins
    [visibleNodes] (unless hidden) and becomes the earliest minimized
    parent of what is below it. *)
Definition enterNode (node : OmTreeNode) (isChildOfZoomed : bool)
    (earliestMinimizedParent : option OmTreeNode) : M World (option OmTreeNode) :=
  h <- get heap ;;
  match earliestMinimizedParent with
  | None =>
      if isChildOfZoomed then
        if isVisible node (node_flags h node) then
          modify (fun w => with_zoomedNodes (zoomedNodes w ++ [node_id node]) w) ;;
          if isVisibleLeaf node (node_flags h node) then
            (if negb (draw_hidden h node)
             then modify (fun w => with_visibleNodes (visibleNodes w ++ [node_id node]) w)
             else ret tt) ;;
            ret (Some node)
          else ret None
        else ret None
      else ret None
  | Some e => ret (Some e)
  end.

(** Lines 302-318: the previous dims are kept and the new ones set. *)
Definition placeNode (node : OmTreeNode) (leafCounter : Z)
    (earliestMinimizedParent : option OmTreeNode) : M World unit :=
  on_node node preserveDims ;;
  let workNode :=
    match earliestMinimizedParent with
    | Some e => e
    | None => node
    end in
  h <- get heap ;;
  colArr <- get cols ;;
  treeW <- get treeWidth ;;
  if negb (isVisible node (node_flags h node)) then
    pc <- defined (parentComponent node) ;;
    col <- defined (index colArr (ref_depth pc + 1)) ;;
    on_dims node (set_x (ndiv (col_location col) treeW)) ;;
    h1 <- get heap ;;
    on_dims node (set_y (dims_y (dims (h1 (ref_id pc))))) ;;
    on_dims node (set_width lit_1em6) ;;
    on_dims node (set_height lit_1em6)
  else
    col <- defined (index colArr (depth workNode)) ;;
    on_dims node (set_x (ndiv (col_location col) treeW)) ;;
    h1 <- get heap ;;
    on_dims node
      (set_y (ndiv (of_int leafCounter) (of_int (draw_numLeaves h1 (root model))))) ;;
    h2 <- get heap ;;
    on_dims node
      (set_width
         (if hasChildren node && negb (draw_minimized h2 node)
             && negb (draw_filtered h2 node)
          then ndiv (col_width col) treeW
          else nsub one (dims_x (draw_dims h2 workNode)))) ;;
    h3 <- get heap ;;
    on_dims node
      (set_height (ndiv (of_int (draw_numLeaves h3 workNode))
                        (of_int (draw_numLeaves h3 (root model))))).

Fixpoint _computeNormalizedPositions (node : OmTreeNode) (leafCounter : Z)
    (isChildOfZoomed : bool) (earliestMinimizedParent : option OmTreeNode)
    {struct node} : M World unit :=
  let isChildOfZoomed :=
    if negb isChildOfZoomed then Nat.eqb (node_id node) (node_id zoomedElement)
    else isChildOfZoomed in
  earliestMinimizedParent <- enterNode node isChildOfZoomed earliestMinimizedParent ;;
  placeNode node leafCounter earliestMinimizedParent ;;
  if hasChildren node then
    (fix loop (cs : list OmTreeNode) (leafCounter : Z) {struct cs} : M World unit :=
       match cs with
       | [] => ret tt
       | child :: cs' =>
           h <- get heap ;;
           if negb (isInputOrOutput child) || negb (draw_minimized h child) then
             _computeNormalizedPositions child leafCounter isChildOfZoomed
               earliestMinimizedParent ;;
             h' <- get heap ;;
             loop cs'
               (match earliestMinimizedParent with
                | None => leafCounter + draw_numLeaves h' child
                | Some _ => leafCounter
                end)
           else loop cs' leafCounter
       end) (children node) leafCounter
  else ret tt.

(** The loop over the children, named so that it can be stated about. *)
Definition positionsLoop (isChildOfZoomed : bool)
    (earliestMinimizedParent : option OmTreeNode)
  : list OmTreeNode -> Z -> M World unit :=
  fix loop (cs : list OmTreeNode) (leafCounter : Z) {struct cs} : M World unit :=
    match cs with
    | [] => ret tt
    | child :: cs' =>
        h <- get heap ;;
        if negb (isInputOrOutput child) || negb (draw_minimized h child) then
          _computeNormalizedPositions child leafCounter isChildOfZoomed
            earliestMinimizedParent ;;
          h' <- get heap ;;
          loop cs'
            (match earliestMinimizedParent with
             | None => leafCounter + draw_numLeaves h' child
             | Some _ => leafCounter
             end)
        else loop cs' leafCounter
    end.

(** *** The layout pass of [_init] *)

Definition computeLeaves : M World unit :=
  modify (fun w => with_heap (_computeLeaves (root model) (heap w)) w).

Definition computeColumns : M World unit :=
  _setupTextRenderer ;;
  _updateTextWidths zoomedElement ;;
  modify (with_textRenderer None) ;;
  _computeColumnWidths ;;
  _setColumnLocations.

Definition computePositions : M World unit :=
  _computeNormalizedPositions (root model) 0 false None ;;
  match parent zoomedElement with
  | Some p => modify (fun w => with_zoomedNodes (zoomedNodes w ++ [ref_id p]) w)
  | None => ret tt
  end.

Definition layoutPass : M World unit :=
  computeLeaves ;; computeColumns ;; computePositions.

(** *** Transition permission *)

(** A field that holds a count, or was never assigned. *)
Inductive JSValue : Type :=
| undefined
| number (n : Z).

(** [Math.max] of two such values: [None] is NaN, which is what
    [undefined] converts to. *)
Definition Math_max (a b : JSValue) : option Z :=
  match a, b with
  | number x, number y => Some (Z.max x y)
  | _, _ => None
  end.

(** [a >= b] for a number or NaN [a]: every comparison with NaN is false. *)
Definition at_least (a : option Z) (b : Z) : bool :=
  match a with
  | Some x => x >=? b
  | None => false
  end.

(** The three methods of [d3.selection.prototype] that are replaced. *)
Inductive Method : Type := m_transition | m_duration | m_delay.

Inductive Impl : Type := original | returnThis.

Record D3Selection : Type := {
  transitionAllowed : bool;
  method : Method -> Impl
}.

Definition set_method (m : Method) (i : Impl) (f : Method -> Impl) : Method -> Impl :=
  fun m' =>
    match m, m' with
    | m_transition, m_transition => i
    | m_duration, m_duration => i
    | m_delay, m_delay => i
    | _, _ => f m'
    end.

(** The counts kept on the layout object, and the shared prototype. *)
Record Transitions : Type := {
  curVisibleNodeCount : JSValue;
  prevVisibleNodeCount : JSValue;
  visibleNodeCount : JSValue;
  d3_selection : D3Selection
}.

(** Lines 33-34 of the constructor: [visibleNodeCount] is not among the
    fields it sets. *)
Definition constructed (d3 : D3Selection) : Transitions :=
  {| curVisibleNodeCount := number 0;
     prevVisibleNodeCount := number 0;
     visibleNodeCount := undefined;
     d3_selection := d3 |}.

(** [N2TransitionDefaults.maxNodes], declared outside Layout.js. *)
Variable maxNodes : Z.

(** The keys of [d3.selection.prototype.originalFuncs], declared outside
    Layout.js: the methods whose original is kept for restoring. *)
Variable originalFuncs : list Method.

Definition setTransitionPermission (visibleNodes_length : Z) (t : Transitions)
  : Transitions :=
  let prev := visibleNodeCount t in
  let cur := number visibleNodes_length in
  let highWaterMark := Math_max prev cur in
  let d3 := d3_selection t in
  let d3' :=
    if at_least highWaterMark maxNodes then
      if negb (transitionAllowed d3) then d3
      else {| transitionAllowed := false;
              method := set_method m_delay returnThis
                          (set_method m_duration returnThis
                             (set_method m_transition returnThis (method d3))) |}
    else
      if transitionAllowed d3 then d3
      else {| transitionAllowed := true;
              method := fold_left (fun f m => set_method m original f)
                                  originalFuncs (method d3) |} in
  {| curVisibleNodeCount := curVisibleNodeCount t;
     prevVisibleNodeCount := prev;
     visibleNodeCount := cur;
     d3_selection := d3' |}.

(** *** Scales *)

(** A linear mapping of d3: its domain and its range. *)
Record Linear : Type := {
  domain : num * num;
  range : num * num
}.

(** Modelled from the spec: [Scale] (gen/Scale.js) and [Dimensions]
    (gen/Dimensions.js) are missing from the sources; the spec says a
    coordinate mapping keeps a current and a previous instance of the
    x and y mappings, and that preserving copies current into previous. *)
Record Scale : Type := {
  scale_x : Linear;
  scale_y : Linear;
  scale_prev : Linear * Linear
}.

Record TransitCoords : Type := {
  transit_x : num;
  transit_y : num;
  transit_prev : num * num
}.

Definition Scale_preserve (s : Scale) : Scale :=
  {| scale_x := scale_x s; scale_y := scale_y s;
     scale_prev := (scale_x s, scale_y s) |}.

Definition TransitCoords_preserve (t : TransitCoords) : TransitCoords :=
  {| transit_x := transit_x t; transit_y := transit_y t;
     transit_prev := (transit_x t, transit_y t) |}.

(** [this.scales] and [this.transitCoords]. *)
Record Scales : Type := {
  scales_model : Scale;
  scales_firstRun : bool;
  transitCoords_model : TransitCoords
}.

Definition preservePreviousScaleValues (s : Scales) : Scales :=
  {| scales_model := Scale_preserve (scales_model s);
     scales_firstRun := scales_firstRun s;
     transitCoords_model := TransitCoords_preserve (transitCoords_model s) |}.

(** [updateScaleValues], reading the dims of the zoomed element and the
    tree width from the world. *)
Definition updateScaleValues (w : World) (s : Scales) : Scales :=
  let s := if negb (scales_firstRun s) then preservePreviousScaleValues s else s in
  let elemDims := draw_dims (heap w) zoomedElement in
  let treeSize_width := treeWidth w in
  let treeSize_height := partitionTree_height size in
  let tx :=
    ndiv (if truthy (dims_x elemDims)
          then nsub treeSize_width (parentNodeWidth size)
          else treeSize_width)
         (nsub one (dims_x elemDims)) in
  let ty := ndiv treeSize_height (dims_height elemDims) in
  {| scales_model :=
       {| scale_x :=
            {| domain := (dims_x elemDims, one);
               range := (if truthy (dims_x elemDims) then parentNodeWidth size else zero,
                         treeSize_width) |};
          scale_y :=
            {| domain := (dims_y elemDims, nadd (dims_y elemDims) (dims_height elemDims));
               range := (zero, treeSize_height) |};
          scale_prev := scale_prev (scales_model s) |};
     scales_firstRun := scales_firstRun s;
     transitCoords_model :=
       {| transit_x := tx; transit_y := ty;
          transit_prev := transit_prev (transitCoords_model s) |} |}.

(** ** What [_computeLeaves] establishes *)

Definition Zsum (l : list Z) : Z := fold_right Z.add 0 l.

(** Not hidden and not filtered. *)
Definition shown (h : Heap) (node : OmTreeNode) : bool :=
  negb (draw_hidden h node || draw_filtered h node).

(** Has children and is not minimized. *)
Definition expanded (h : Heap) (node : OmTreeNode) : bool :=
  hasChildren node && negb (draw_minimized h node).

(** The nodes of a subtree, in pre-order. *)
Fixpoint subtree_nodes (node : OmTreeNode) : list OmTreeNode :=
  match node with
  | TreeNode _ _ _ _ _ _ _ _ _ cs => node :: flat_map subtree_nodes cs
  end.

(** The nodes the traversal enters: the top node, and the children of
    an entered node that is shown and expanded. *)
Inductive Reached (h : Heap) (top : OmTreeNode) : OmTreeNode -> Prop :=
| Reached_top : Reached h top top
| Reached_child (p c : OmTreeNode) :
    Reached h top p -> shown h p = true -> expanded h p = true ->
    In c (children p) -> Reached h top c.

(** No node below one of [cs] has been written. *)
Definition untouched (h0 h' : Heap) (cs : list OmTreeNode) : Prop :=
  forall j, In j (flat_map subtree_ids cs) -> h' j = h0 j.

Inductive LeavesOK (h0 h' : Heap) : OmTreeNode -> Prop :=
| LeavesOK_hidden (n : OmTreeNode) :
    shown h' n = false -> draw_numLeaves h' n = 0 ->
    untouched h0 h' (children n) -> LeavesOK h0 h' n
| LeavesOK_leaf (n : OmTreeNode) :
    shown h' n = true -> expanded h' n = false -> draw_numLeaves h' n = 1 ->
    untouched h0 h' (children n) -> LeavesOK h0 h' n
| LeavesOK_sum (n : OmTreeNode) :
    shown h' n = true -> expanded h' n = true ->
    draw_numLeaves h' n = Zsum (map (draw_numLeaves h') (children n)) ->
    Forall (LeavesOK h0 h') (children n) -> LeavesOK h0 h' n.

(** *** The heap *)

Lemma upd_same (h : Heap) (i : nat) (f : NodeState -> NodeState) :
  upd h i f i = f (h i).
Proof. unfold upd. now rewrite Nat.eqb_refl. Qed.

Lemma upd_other (h : Heap) (i j : nat) (f : NodeState -> NodeState) :
  j <> i -> upd h i f j = h j.
Proof.
  intros Hne. unfold upd.
  destruct (Nat.eqb j i) eqn:E; [apply Nat.eqb_eq in E; contradiction | reflexivity].
Qed.

Lemma subtree_ids_eq (node : OmTreeNode) :
  subtree_ids node = node_id node :: flat_map subtree_ids (children node).
Proof. destruct node; reflexivity. Qed.

Lemma subtree_nodes_eq (node : OmTreeNode) :
  subtree_nodes node = node :: flat_map subtree_nodes (children node).
Proof. destruct node; reflexivity. Qed.

Lemma _computeLeaves_eq (node : OmTreeNode) (h : Heap) :
  _computeLeaves node h =
  let h := upd h (node_id node) (set_numLeaves 0) in
  if negb (draw_hidden h node || draw_filtered h node) then
    let h := precollapse node h in
    if hasChildren node && negb (draw_minimized h node)
    then leavesLoop node (children node) h
    else upd h (node_id node) (set_numLeaves 1)
  else h.
Proof. destruct node; reflexivity. Qed.

(** [precollapse] writes the [minimized] flag of its node and nothing else. *)
Lemma precollapse_other (node : OmTreeNode) (h : Heap) (j : nat) :
  j <> node_id node -> precollapse node h j = h j.
Proof.
  intros Hne. unfold precollapse, minimizeIfLarge, minimize.
  repeat match goal with |- context [if ?b then _ else _] => destruct b end;
    try reflexivity; now apply upd_other.
Qed.

Lemma precollapse_same (node : OmTreeNode) (h : Heap) :
  exists b : bool,
    precollapse node h (node_id node) =
    set_flags (set_minimized b (flags (h (node_id node)))) (h (node_id node)).
Proof.
  assert (Hid : forall s : NodeState,
             s = set_flags (set_minimized (minimized (flags s)) (flags s)) s).
  { intros [[? ? ? ?] ? ? ? ? ? ?]; reflexivity. }
  unfold precollapse, minimizeIfLarge, minimize.
  repeat match goal with |- context [if ?b then _ else _] => destruct b end;
    try (exists true; now rewrite upd_same);
    exists (minimized (flags (h (node_id node)))); apply Hid.
Qed.

(** *** Frame: only the nodes of the subtree are written *)

Lemma leavesLoop_frame (node : OmTreeNode) (cs : list OmTreeNode) :
  Forall (fun c => forall h j, ~ In j (subtree_ids c) -> _computeLeaves c h j = h j) cs ->
  forall h j, j <> node_id node -> ~ In j (flat_map subtree_ids cs) ->
              leavesLoop node cs h j = h j.
Proof.
  induction 1 as [|c cs Hc _ IH]; intros h j Hne Hnin; simpl.
  - reflexivity.
  - simpl in Hnin. rewrite in_app_iff in Hnin.
    rewrite IH by ptauto.
    rewrite upd_other by assumption.
    apply Hc; ptauto.
Qed.

Lemma _computeLeaves_frame (node : OmTreeNode) :
  forall h j, ~ In j (subtree_ids node) -> _computeLeaves node h j = h j.
Proof.
  induction node as [node IH] using OmTreeNode_ind'.
  intros h j Hnin. rewrite subtree_ids_eq in Hnin. simpl in Hnin.
  assert (Hne : j <> node_id node) by (intros ->; ptauto).
  rewrite _computeLeaves_eq. cbv zeta.
  destruct (negb _).
  - destruct (_ && _).
    + rewrite leavesLoop_frame by ptauto.
      rewrite precollapse_other by assumption. now apply upd_other.
    + rewrite upd_other by assumption.
      rewrite precollapse_other by assumption. now apply upd_other.
  - now apply upd_other.
Qed.

(** Only [numLeaves] and the [minimized] flag are written. *)
Definition keeps_but_leaves (s s' : NodeState) : Prop :=
  hidden (flags s') = hidden (flags s) /\
  filtered (flags s') = filtered (flags s) /\
  manuallyExpanded (flags s') = manuallyExpanded (flags s) /\
  nameWidthPx s' = nameWidthPx s /\
  dims s' = dims s /\
  prevDims s' = prevDims s /\
  textOpacity s' = textOpacity s /\
  prevTextOpacity s' = prevTextOpacity s.

Lemma keeps_but_leaves_refl (s : NodeState) : keeps_but_leaves s s.
Proof. unfold keeps_but_leaves; ptauto. Qed.

Lemma keeps_but_leaves_trans (s1 s2 s3 : NodeState) :
  keeps_but_leaves s1 s2 -> keeps_but_leaves s2 s3 -> keeps_but_leaves s1 s3.
Proof.
  unfold keeps_but_leaves. intros H1 H2.
  decompose [and] H1. decompose [and] H2. repeat split; congruence.
Qed.

Lemma upd_numLeaves_keeps (h : Heap) (i : nat) (f : NodeState -> Z) (j : nat) :
  keeps_but_leaves (h j) (upd h i (fun s => set_numLeaves (f s) s) j).
Proof.
  unfold upd. destruct (Nat.eqb j i) eqn:E.
  - apply Nat.eqb_eq in E. subst. unfold keeps_but_leaves; simpl; ptauto.
  - apply keeps_but_leaves_refl.
Qed.

Lemma precollapse_keeps (node : OmTreeNode) (h : Heap) (j : nat) :
  keeps_but_leaves (h j) (precollapse node h j).
Proof.
  destruct (Nat.eq_dec j (node_id node)) as [->|Hne].
  - destruct (precollapse_same node h) as [b ->].
    unfold keeps_but_leaves; simpl; ptauto.
  - rewrite precollapse_other by assumption. apply keeps_but_leaves_refl.
Qed.

Lemma leavesLoop_keeps (node : OmTreeNode) (cs : list OmTreeNode) :
  Forall (fun c => forall h j, keeps_but_leaves (h j) (_computeLeaves c h j)) cs ->
  forall h j, keeps_but_leaves (h j) (leavesLoop node cs h j).
Proof.
  induction 1 as [|c cs Hc _ IH]; intros h j; simpl.
  - apply keeps_but_leaves_refl.
  - eapply keeps_but_leaves_trans; [|apply IH].
    eapply keeps_but_leaves_trans; [apply Hc|].
    apply (upd_numLeaves_keeps (_computeLeaves c h) (node_id node)
             (fun s => numLeaves s + draw_numLeaves (_computeLeaves c h) c)).
Qed.

Lemma _computeLeaves_keeps (node : OmTreeNode) :
  forall h j, keeps_but_leaves (h j) (_computeLeaves node h j).
Proof.
  induction node as [node IH] using OmTreeNode_ind'.
  intros h j. rewrite _computeLeaves_eq. cbv zeta.
  pose proof (upd_numLeaves_keeps h (node_id node) (fun _ => 0) j) as H0.
  destruct (negb _); [|exact H0].
  eapply keeps_but_leaves_trans; [exact H0|].
  set (h1 := upd h (node_id node) (set_numLeaves 0)).
  pose proof (precollapse_keeps node h1 j) as H1.
  destruct (_ && _).
  - eapply keeps_but_leaves_trans; [exact H1|]. now apply leavesLoop_keeps.
  - eapply keeps_but_leaves_trans; [exact H1|].
    apply (upd_numLeaves_keeps (precollapse node h1) (node_id node) (fun _ => 1)).
Qed.

(** *** The leaf counts of the nodes that are entered *)

Lemma NoDup_app_disjoint {A : Type} (l1 l2 : list A) :
  NoDup (l1 ++ l2) -> forall a, In a l1 -> ~ In a l2.
Proof.
  induction l1 as [|x l1 IH]; simpl; intros Hnd a Hin; [contradiction|].
  inversion Hnd as [|? ? Hx Hnd']; subst.
  destruct Hin as [->|Hin].
  - intros Hin2. apply Hx. apply in_or_app. now right.
  - now apply IH.
Qed.

Lemma node_id_in_subtree (node : OmTreeNode) : In (node_id node) (subtree_ids node).
Proof. rewrite subtree_ids_eq. now left. Qed.

Lemma subtree_ids_child (c : OmTreeNode) (cs : list OmTreeNode) (j : nat) :
  In c cs -> In j (subtree_ids c) -> In j (flat_map subtree_ids cs).
Proof. intros Hc Hj. apply in_flat_map. now exists c. Qed.

Lemma LeavesOK_ext (n : OmTreeNode) :
  forall h0 h0' h1 h1',
    (forall j, In j (subtree_ids n) -> h1' j = h1 j) ->
    (forall j, In j (flat_map subtree_ids (children n)) -> h0' j = h0 j) ->
    LeavesOK h0 h1 n -> LeavesOK h0' h1' n.
Proof.
  induction n as [n IH] using OmTreeNode_ind'.
  intros h0 h0' h1 h1' H1 H0 Hok.
  assert (Hn : h1' (node_id n) = h1 (node_id n)) by (apply H1, node_id_in_subtree).
  assert (Hcs : forall j, In j (flat_map subtree_ids (children n)) -> h1' j = h1 j).
  { intros j Hj. apply H1. rewrite subtree_ids_eq. now right. }
  assert (Hshown : shown h1' n = shown h1 n).
  { unfold shown, draw_hidden, draw_filtered. now rewrite Hn. }
  assert (Hexp : expanded h1' n = expanded h1 n).
  { unfold expanded, draw_minimized. now rewrite Hn. }
  assert (Hnl : draw_numLeaves h1' n = draw_numLeaves h1 n).
  { unfold draw_numLeaves. now rewrite Hn. }
  assert (Hunt : untouched h0 h1 (children n) -> untouched h0' h1' (children n)).
  { intros Hu j Hj. rewrite Hcs, H0 by assumption. now apply Hu. }
  inversion Hok as [? Hs Hz Hu|? Hs He Hz Hu|? Hs He Hz Hall]; subst.
  - apply LeavesOK_hidden; [congruence|congruence|auto].
  - apply LeavesOK_leaf; [congruence|congruence|congruence|auto].
  - apply LeavesOK_sum; [congruence|congruence| |].
    + rewrite Hnl, Hz. f_equal. apply map_ext_in. intros c Hc.
      unfold draw_numLeaves. f_equal. symmetry. apply Hcs.
      eapply subtree_ids_child; [eassumption|apply node_id_in_subtree].
    + rewrite Forall_forall in *. intros c Hc.
      apply (IH c Hc h0 h0' h1 h1').
      * intros j Hj. apply Hcs. eapply subtree_ids_child; eassumption.
      * intros j Hj. apply H0. eapply subtree_ids_child; [eassumption|].
        rewrite subtree_ids_eq. now right.
      * now apply Hall.
Qed.

Lemma Forall_LeavesOK_ext (cs : list OmTreeNode) (h0 h0' h1 h1' : Heap) :
  (forall j, In j (flat_map subtree_ids cs) -> h1' j = h1 j) ->
  (forall j, In j (flat_map subtree_ids cs) -> h0' j = h0 j) ->
  Forall (LeavesOK h0 h1) cs -> Forall (LeavesOK h0' h1') cs.
Proof.
  intros H1 H0 Hall. rewrite Forall_forall in *. intros c Hc.
  apply (@LeavesOK_ext c h0 h0' h1 h1').
  - intros j Hj. apply H1. eapply subtree_ids_child; eassumption.
  - intros j Hj. apply H0. eapply subtree_ids_child; [eassumption|].
    rewrite subtree_ids_eq. now right.
  - now apply Hall.
Qed.

Lemma leavesLoop_ok (node : OmTreeNode) (cs : list OmTreeNode) :
  Forall (fun c => forall h, NoDup (subtree_ids c) -> LeavesOK h (_computeLeaves c h) c) cs ->
  NoDup (flat_map subtree_ids cs) ->
  ~ In (node_id node) (flat_map subtree_ids cs) ->
  forall h,
    Forall (LeavesOK h (leavesLoop node cs h)) cs /\
    numLeaves (leavesLoop node cs h (node_id node)) =
      numLeaves (h (node_id node)) + Zsum (map (draw_numLeaves (leavesLoop node cs h)) cs) /\
    flags (leavesLoop node cs h (node_id node)) = flags (h (node_id node)).
Proof.
  induction 1 as [|c cs Hc _ IH]; intros Hnd Hnin h.
  - simpl. repeat split; [constructor | lia].
  - simpl in Hnd, Hnin. rewrite in_app_iff in Hnin.
    pose proof (NoDup_app_remove_l _ _ Hnd) as Hnd2.
    pose proof (NoDup_app_remove_r _ _ Hnd) as Hnd1.
    pose proof (NoDup_app_disjoint _ _ Hnd) as Hdisj.
    simpl.
    set (hA := _computeLeaves c h).
    set (hB := upd hA (node_id node)
                 (fun s => set_numLeaves (numLeaves s + draw_numLeaves hA c) s)).
    destruct (IH Hnd2 (fun H => Hnin (or_intror H)) hB) as (Hall & Hsum & Hfl).
    set (h' := leavesLoop node cs hB) in *.
    assert (HcA : forall j, In j (subtree_ids c) -> h' j = hA j).
    { intros j Hj. unfold h'. rewrite leavesLoop_frame.
      - unfold hB. apply upd_other. intros ->. ptauto.
      - apply Forall_forall. intros c' _. apply _computeLeaves_frame.
      - intros ->. ptauto.
      - now apply Hdisj. }
    assert (Hrest : forall j, In j (flat_map subtree_ids cs) -> hB j = h j).
    { intros j Hj. unfold hB. rewrite upd_other by (intros ->; ptauto).
      apply _computeLeaves_frame. intros Hjc. exact (Hdisj j Hjc Hj). }
    assert (HidA : hA (node_id node) = h (node_id node)).
    { apply _computeLeaves_frame. ptauto. }
    split; [|split].
    + constructor.
      * apply (@LeavesOK_ext c h h hA h'); [exact HcA | reflexivity | now apply Hc].
      * apply (@Forall_LeavesOK_ext cs hB h h' h'); [reflexivity | | exact Hall].
        intros j Hj. symmetry. now apply Hrest.
    + rewrite Hsum. unfold hB at 1. rewrite upd_same. simpl.
      rewrite HidA. unfold draw_numLeaves at 3.
      rewrite (HcA (node_id c) (node_id_in_subtree c)).
      unfold draw_numLeaves at 1. lia.
    + rewrite Hfl. unfold hB. rewrite upd_same. simpl. now rewrite HidA.
Qed.

Lemma _computeLeaves_ok (node : OmTreeNode) :
  forall h, NoDup (subtree_ids node) -> LeavesOK h (_computeLeaves node h) node.
Proof.
  induction node as [node IH] using OmTreeNode_ind'.
  intros h Hnd. rewrite subtree_ids_eq in Hnd.
  inversion Hnd as [|? ? Hid Hcs]; subst.
  rewrite _computeLeaves_eq. cbv zeta.
  set (h1 := upd h (node_id node) (set_numLeaves 0)).
  assert (Hh1 : forall j, In j (flat_map subtree_ids (children node)) -> h1 j = h j).
  { intros j Hj. unfold h1. apply upd_other. intros ->. contradiction. }
  destruct (negb (draw_hidden h1 node || draw_filtered h1 node)) eqn:Hshown.
  - set (h2 := precollapse node h1).
    assert (Hh2 : forall j, In j (flat_map subtree_ids (children node)) -> h2 j = h j).
    { intros j Hj. unfold h2. rewrite precollapse_other by (intros ->; contradiction).
      now apply Hh1. }
    assert (Hshown2 : shown h2 node = true).
    { destruct (precollapse_keeps node h1 (node_id node)) as (Hh & Hf & _).
      unfold shown, draw_hidden, draw_filtered, h2 in *. now rewrite Hh, Hf. }
    assert (Hnl2 : numLeaves (h2 (node_id node)) = 0).
    { unfold h2. destruct (precollapse_same node h1) as [b ->]. simpl.
      unfold h1. now rewrite upd_same. }
    destruct (hasChildren node && negb (draw_minimized h2 node)) eqn:Hexp.
    + assert (IH' : Forall (fun c => forall h, NoDup (subtree_ids c) ->
                                  LeavesOK h (_computeLeaves c h) c) (children node)).
      { apply Forall_forall. intros c Hc. rewrite Forall_forall in IH. now apply IH. }
      destruct (leavesLoop_ok node IH' Hcs Hid h2) as (Hall & Hsum & Hfl).
      set (h' := leavesLoop node (children node) h2) in *.
      apply LeavesOK_sum.
      * unfold shown, draw_hidden, draw_filtered in *. now rewrite Hfl.
      * unfold expanded, draw_minimized in *. now rewrite Hfl.
      * unfold draw_numLeaves at 1. rewrite Hsum, Hnl2. reflexivity.
      * apply (@Forall_LeavesOK_ext (children node) h2 h h' h');
          [reflexivity | | exact Hall].
        intros j Hj. symmetry. now apply Hh2.
    + apply LeavesOK_leaf.
      * unfold shown, draw_hidden, draw_filtered in *. now rewrite upd_same.
      * unfold expanded, draw_minimized in *. now rewrite upd_same.
      * unfold draw_numLeaves. now rewrite upd_same.
      * intros j Hj. rewrite upd_other by (intros ->; contradiction). now apply Hh2.
  - apply LeavesOK_hidden.
    + exact Hshown.
    + unfold draw_numLeaves, h1. now rewrite upd_same.
    + exact Hh1.
Qed.

Lemma Reached_LeavesOK (h0 h' : Heap) (top n : OmTreeNode) :
  LeavesOK h0 h' top -> Reached h' top n -> LeavesOK h0 h' n.
Proof.
  intros Htop. induction 1 as [|p c _ IHp Hs He Hin]; [assumption|].
  inversion IHp as [? Hs' _ _|? _ He' _ _|? _ _ _ Hall]; subst; try congruence.
  rewrite Forall_forall in Hall. now apply Hall.
Qed.

(** The sum over the children is the sum over the shown children: a
    hidden or filtered child adds nothing. *)
Lemma Zsum_shown (h0 h' : Heap) (cs : list OmTreeNode) :
  Forall (LeavesOK h0 h') cs ->
  Zsum (map (draw_numLeaves h') cs) =
  Zsum (map (draw_numLeaves h') (filter (shown h') cs)).
Proof.
  induction 1 as [|c cs Hc _ IH]; simpl; [reflexivity|].
  destruct (shown h' c) eqn:Hs; simpl; rewrite IH; [reflexivity|].
  inversion Hc; subst; try congruence. lia.
Qed.

(** An entered node that is shown and not expanded counts one leaf. *)
Lemma entered_leaf_counts_one (h : Heap) (n : OmTreeNode) :
  NoDup (subtree_ids (root model)) ->
  Reached (_computeLeaves (root model) h) (root model) n ->
  shown (_computeLeaves (root model) h) n = true ->
  expanded (_computeLeaves (root model) h) n = false ->
  draw_numLeaves (_computeLeaves (root model) h) n = 1.
Proof.
  intros Hnd Hn Hshown Hexp.
  pose proof (Reached_LeavesOK (@_computeLeaves_ok (root model) h Hnd) Hn) as Hok.
  inversion Hok; subst; congruence.
Qed.


(** ** What [_setColumnLocations] establishes *)

(** Arrays indexed by a natural number. *)
Lemma index_of_nat {A : Type} (arr : list A) (n : nat) :
  index arr (Z.of_nat n) = nth_error arr n.
Proof.
  unfold index. destruct (Z.of_nat n <? 0) eqn:E.
  - apply Z.ltb_lt in E. lia.
  - now rewrite Nat2Z.id.
Qed.

Lemma assign_of_nat {A : Type} (arr : list A) (n : nat) (v : A) :
  assign arr (Z.of_nat n) v = replace_nth arr n v.
Proof.
  unfold assign. destruct (Z.of_nat n <? 0) eqn:E.
  - apply Z.ltb_lt in E. lia.
  - now rewrite Nat2Z.id.
Qed.

Lemma replace_nth_length {A : Type} (arr : list A) (n : nat) (v : A) :
  List.length (replace_nth arr n v) = List.length arr.
Proof.
  revert n. induction arr as [|a arr IH]; intros [|n]; simpl; auto.
Qed.

Lemma replace_nth_app {A : Type} (pre : list A) (c : A) (post : list A) (v : A) :
  replace_nth (pre ++ c :: post) (List.length pre) v = pre ++ v :: post.
Proof. induction pre as [|a pre IH]; simpl; [reflexivity | now rewrite IH]. Qed.

Lemma nth_error_middle {A : Type} (pre : list A) (c : A) (post : list A) :
  nth_error (pre ++ c :: post) (List.length pre) = Some c.
Proof. induction pre as [|a pre IH]; simpl; auto. Qed.

(** The locations the loop assigns to a run of columns, starting from
    the width accumulated so far, and the width accumulated after it. *)
Fixpoint locate (cs : list Column) (width : num) : list Column * num :=
  match cs with
  | [] => ([], width)
  | c :: cs' =>
      let (r, width') := locate cs' (nadd width (col_width c)) in
      (set_col_location width c :: r, width')
  end.

(** [a + w1 + ... + wn], added in this order. *)
Definition sum_from (a : num) (ws : list num) : num := fold_left nadd ws a.

Lemma locate_length (cs : list Column) (width : num) :
  List.length (fst (locate cs width)) = List.length cs.
Proof.
  revert width. induction cs as [|c cs IH]; intros width; simpl; [reflexivity|].
  specialize (IH (nadd width (col_width c))).
  destruct (locate cs _). simpl in *. now rewrite IH.
Qed.

Lemma locate_widths (cs : list Column) (width : num) :
  map col_width (fst (locate cs width)) = map col_width cs.
Proof.
  revert width. induction cs as [|c cs IH]; intros width; simpl; [reflexivity|].
  specialize (IH (nadd width (col_width c))).
  destruct (locate cs _). simpl in *. now rewrite IH.
Qed.

Lemma locate_total (cs : list Column) (width : num) :
  snd (locate cs width) = sum_from width (map col_width cs).
Proof.
  revert width. induction cs as [|c cs IH]; intros width; simpl; [reflexivity|].
  specialize (IH (nadd width (col_width c))).
  destruct (locate cs _). simpl in *. exact IH.
Qed.

Lemma locate_nth (cs : list Column) (width : num) (k : nat) (c : Column) :
  nth_error cs k = Some c ->
  nth_error (fst (locate cs width)) k =
  Some (set_col_location (sum_from width (map col_width (firstn k cs))) c).
Proof.
  revert width k. induction cs as [|c0 cs IH]; intros width k Hk.
  - destruct k; discriminate.
  - simpl. specialize (IH (nadd width (col_width c0))).
    destruct (locate cs _) as [r w'] eqn:E. simpl in *.
    destruct k as [|k]; simpl in *.
    + now inversion Hk.
    + now apply IH.
Qed.

Lemma columnLocationLoop_spec (mid : list Column) :
  forall (pre post : list Column) (w : World),
    cols w = pre ++ mid ++ post ->
    columnLocationLoop (seq (List.length pre) (List.length mid)) w =
    Ok tt (with_treeWidth (snd (locate mid (treeWidth w)))
             (with_cols (pre ++ fst (locate mid (treeWidth w)) ++ post) w)).
Proof.
  induction mid as [|c mid IH]; intros pre post w Hw.
  - simpl. unfold ret. destruct w; simpl in *. now subst.
  - simpl. unfold bind at 1. unfold get at 1.
    unfold bind at 1. rewrite index_of_nat, Hw. simpl app.
    rewrite nth_error_middle. simpl defined. unfold ret at 1.
    unfold bind at 1. unfold get at 1.
    unfold bind at 1. unfold modify at 1.
    unfold bind at 1. unfold modify at 1.
    rewrite assign_of_nat, replace_nth_app.
    specialize (IH (pre ++ [set_col_location (treeWidth w) c]) post).
    rewrite length_app in IH. simpl in IH. rewrite Nat.add_1_r in IH.
    rewrite IH by (simpl; now rewrite <- app_assoc).
    simpl. destruct (locate mid _) as [r w'] eqn:E. simpl.
    rewrite <- app_assoc. reflexivity.
Qed.

Lemma index_cons {A : Type} (a : A) (l : list A) (d : Z) :
  1 <= d -> index (a :: l) d = nth_error l (Z.to_nat (d - 1)).
Proof.
  intros Hd. unfold index. destruct (d <? 0) eqn:E.
  - apply Z.ltb_lt in E. lia.
  - replace (Z.to_nat d) with (S (Z.to_nat (d - 1))) by lia. reflexivity.
Qed.

Lemma _setColumnLocations_spec (w : World) (c0 : Column) (mid : list Column) :
  cols w = c0 :: mid -> List.length mid = Z.to_nat (maxDepth model) ->
  _setColumnLocations w =
  Ok tt (with_treeWidth (snd (locate mid zero))
           (with_cols (c0 :: fst (locate mid zero)) w)).
Proof.
  intros Hw Hlen. unfold _setColumnLocations.
  unfold bind, modify at 1. rewrite <- Hlen.
  pose proof (@columnLocationLoop_spec mid [c0] [] (with_treeWidth zero w)) as H.
  simpl in H. rewrite H by now rewrite app_nil_r.
  now rewrite app_nil_r.
Qed.

(** The laws of [<=] and [+] that monotonicity rests on.  They hold of
    exact arithmetic, and of binary64 (rounding is monotone) for
    arguments that are not NaN. *)
Record OrderLaws : Prop := {
  nle_zero : nle zero zero = true;
  nle_refl : forall a, nle zero a = true -> nle a a = true;
  nle_trans : forall a b c, nle a b = true -> nle b c = true -> nle a c = true;
  nle_add : forall a w, nle zero a = true -> nle zero w = true ->
                        nle a (nadd a w) = true
}.

Definition nonneg (a : num) : Prop := nle zero a = true.

Lemma sum_from_app (a : num) (l1 l2 : list num) :
  sum_from a (l1 ++ l2) = sum_from (sum_from a l1) l2.
Proof. apply fold_left_app. Qed.

Lemma sum_from_le (L : OrderLaws) (ws : list num) :
  forall a, nonneg a -> Forall nonneg ws ->
            nle a (sum_from a ws) = true /\ nonneg (sum_from a ws).
Proof.
  induction ws as [|x ws IH]; intros a Ha Hws; simpl.
  - split; [now apply (nle_refl L) | assumption].
  - inversion Hws as [|? ? Hx Hws']; subst.
    pose proof (nle_add L _ _ Ha Hx) as H1.
    assert (H2 : nonneg (nadd a x)) by (apply (nle_trans L) with a; assumption).
    destruct (IH (nadd a x) H2 Hws') as [H3 H4].
    split; [apply (nle_trans L) with (nadd a x); assumption | assumption].
Qed.

Lemma firstn_plus {A : Type} (k m : nat) (l : list A) :
  firstn (k + m) l = firstn k l ++ firstn m (skipn k l).
Proof.
  revert l. induction k as [|k IH]; intros l; simpl; [reflexivity|].
  destruct l as [|a l]; simpl.
  - now rewrite firstn_nil.
  - now rewrite IH.
Qed.

Lemma sum_from_prefix_le (L : OrderLaws) (ws : list num) (k1 k2 : nat) :
  (k1 <= k2)%nat -> Forall nonneg (firstn k2 ws) ->
  nle (sum_from zero (firstn k1 ws)) (sum_from zero (firstn k2 ws)) = true.
Proof.
  intros Hk Hws. pose proof (nle_zero L) as H0.
  assert (Hsplit : firstn k2 ws = firstn k1 ws ++ firstn (k2 - k1) (skipn k1 ws)).
  { replace k2 with (k1 + (k2 - k1))%nat at 1 by lia. apply firstn_plus. }
  rewrite Hsplit in *. rewrite sum_from_app.
  apply Forall_app in Hws as [Hw1 Hw2].
  apply sum_from_le; [assumption | | assumption].
  now apply sum_from_le.
Qed.

Lemma firstn_S_nth {A : Type} (l : list A) (k : nat) (x : A) :
  nth_error l k = Some x -> firstn (S k) l = firstn k l ++ [x].
Proof.
  revert k. induction l as [|a l IH]; intros [|k] Hk; try discriminate; simpl in *.
  - now inversion Hk.
  - f_equal. now apply IH.
Qed.

Lemma Forall_firstn_nth {A : Type} (P : A -> Prop) (l : list A) :
  forall k, (forall i x, (i < k)%nat -> nth_error l i = Some x -> P x) ->
            Forall P (firstn k l).
Proof.
  induction l as [|a l IH]; intros [|k] H; simpl; try constructor.
  - apply (H 0%nat); [lia | reflexivity].
  - apply IH. intros i x Hi Hx. apply (H (S i)); [lia | exact Hx].
Qed.

Lemma nth_error_defined {A : Type} (l : list A) (k : nat) :
  (k < List.length l)%nat -> exists x, nth_error l k = Some x.
Proof.
  intros Hk. destruct (nth_error l k) eqn:E; [eauto|].
  apply nth_error_None in E. lia.
Qed.

(** The widths of the columns at depths 1 .. d-1. *)
Definition widths_before (cs : list Column) (d : Z) : list num :=
  map col_width (firstn (Z.to_nat (d - 1)) (skipn 1 cs)).

(** C2: [_setColumnLocations] on the [maxDepth + 1] columns returns; it
    keeps the widths; the location of the column at depth [d] in
    1..maxDepth is the sum, from 0, of the widths at depths 1..d-1; the
    location at depth [d + 1] is exactly the location at depth [d] plus
    the width at depth [d]; the tree width is the sum of all the widths
    from depth 1 on; and where the widths are not negative the
    locations do not decrease with depth. *)
Theorem setColumnLocations_cumulative (w : World) :
  0 <= maxDepth model ->
  List.length (cols w) = Z.to_nat (maxDepth model + 1) ->
  exists w',
    _setColumnLocations w = Ok tt w' /\
    map col_width (cols w') = map col_width (cols w) /\
    (forall d, 1 <= d <= maxDepth model ->
       exists c, index (cols w') d = Some c /\
                 col_location c = sum_from zero (widths_before (cols w) d)) /\
    (forall d, 1 <= d -> d + 1 <= maxDepth model ->
       exists c c', index (cols w') d = Some c /\
                    index (cols w') (d + 1) = Some c' /\
                    col_location c' = nadd (col_location c) (col_width c)) /\
    treeWidth w' = sum_from zero (map col_width (skipn 1 (cols w))) /\
    (OrderLaws ->
     (forall d c, 1 <= d < maxDepth model -> index (cols w) d = Some c ->
                  nonneg (col_width c)) ->
     forall d1 d2 c1 c2,
       1 <= d1 -> d1 <= d2 -> d2 <= maxDepth model ->
       index (cols w') d1 = Some c1 -> index (cols w') d2 = Some c2 ->
       nle (col_location c1) (col_location c2) = true).
Proof.
  intros Hmax Hlen.
  destruct (cols w) as [|c0 mid] eqn:Hcols; [simpl in Hlen; lia|].
  assert (Hmid : List.length mid = Z.to_nat (maxDepth model)) by (simpl in Hlen; lia).
  eexists. split; [apply (_setColumnLocations_spec w Hcols Hmid)|].
  simpl cols. simpl treeWidth. unfold widths_before. simpl skipn.
  assert (Hloc : forall d, 1 <= d <= maxDepth model ->
            exists c, nth_error mid (Z.to_nat (d - 1)) = Some c /\
                      index (c0 :: fst (locate mid zero)) d =
                      Some (set_col_location
                              (sum_from zero (map col_width (firstn (Z.to_nat (d - 1)) mid))) c)).
  { intros d Hd. destruct (@nth_error_defined _ mid (Z.to_nat (d - 1))) as [c Hc]; [lia|].
    exists c. split; [assumption|]. rewrite index_cons by lia. now apply locate_nth. }
  split; [|split; [|split; [|split]]].
  - simpl. now rewrite locate_widths.
  - intros d Hd. destruct (Hloc d Hd) as (c & _ & ->). eexists. split; reflexivity.
  - intros d Hd1 Hd2.
    destruct (Hloc d) as (c & Hc & ->); [lia|].
    destruct (Hloc (d + 1)) as (c' & _ & ->); [lia|].
    do 2 eexists. split; [reflexivity|]. split; [reflexivity|]. simpl.
    replace (Z.to_nat (d + 1 - 1)) with (S (Z.to_nat (d - 1))) by lia.
    rewrite (firstn_S_nth _ _ Hc), map_app, sum_from_app. reflexivity.
  - apply locate_total.
  - intros L Hnn d1 d2 c1 c2 H1 H12 H2 Hc1 Hc2.
    destruct (Hloc d1) as (x1 & _ & E1); [lia|].
    destruct (Hloc d2) as (x2 & _ & E2); [lia|].
    rewrite E1 in Hc1. rewrite E2 in Hc2.
    inversion Hc1; inversion Hc2; subst; simpl.
    rewrite <- !firstn_map.
    apply sum_from_prefix_le; [assumption | lia |].
    apply Forall_firstn_nth. intros i x Hi Hx.
    rewrite nth_error_map in Hx.
    destruct (nth_error mid i) as [c|] eqn:Hci; [|discriminate].
    inversion Hx; subst.
    apply (Hnn (Z.of_nat i + 1)); [lia|].
    rewrite index_cons by lia.
    replace (Z.to_nat (Z.of_nat i + 1 - 1)) with i by lia. exact Hci.
Qed.

(** ** Transition permission *)


(** C9: on the first call after construction the field read for the
    previous count, [visibleNodeCount], was never assigned (the
    constructor sets [curVisibleNodeCount]); the larger count is then
    not a number, the comparison with [maxNodes] is false, and the call
    takes the branch that allows transitions, whatever the number of
    visible nodes. *)
Theorem first_call_allows_transitions (d3 : D3Selection) (len : Z) :
  visibleNodeCount (constructed d3) = undefined /\
  curVisibleNodeCount (constructed d3) = number 0 /\
  Math_max (visibleNodeCount (constructed d3)) (number len) = None /\
  at_least (Math_max (visibleNodeCount (constructed d3)) (number len)) maxNodes = false /\
  prevVisibleNodeCount (setTransitionPermission len (constructed d3)) = undefined /\
  transitionAllowed (d3_selection (setTransitionPermission len (constructed d3))) = true /\
  d3_selection (setTransitionPermission len (constructed d3)) =
    (if transitionAllowed d3 then d3
     else {| transitionAllowed := true;
             method := fold_left (fun f m => set_method m original f)
                                 originalFuncs (method d3) |}).
Proof.
  unfold setTransitionPermission, constructed. simpl.
  repeat split. destruct (transitionAllowed d3) eqn:E; simpl; auto.
Qed.

(** ** The ends of the column array *)

Lemma index_negative {A : Type} (arr : list A) (i : Z) : i < 0 -> index arr i = None.
Proof. intros Hi. unfold index. destruct (i <? 0) eqn:E; [reflexivity | lia]. Qed.

Lemma assign_col_width_defined (i : Z) (v : num) (w : World) (c : Column) :
  index (cols w) i = Some c ->
  assign_col_width i v w = Ok tt (with_cols (assign (cols w) i (set_col_width v c)) w).
Proof.
  intros Hc. unfold assign_col_width, bind, get, modify. rewrite Hc. reflexivity.
Qed.

Lemma assign_col_width_undefined (i : Z) (v : num) (w : World) :
  index (cols w) i = None -> assign_col_width i v w = Throw TypeError w.
Proof.
  intros Hc. unfold assign_col_width, bind, get. rewrite Hc. reflexivity.
Qed.


(** ** A node that is not visible *)

Lemma upd_flags_preserveDims (h : Heap) (node : OmTreeNode) :
  node_flags (upd h (node_id node) preserveDims) node = node_flags h node.
Proof. unfold node_flags. now rewrite upd_same. Qed.

(** C5 (as amended): when [placeNode] reaches a node that is not visible,
    and the node has a parent component below which a column exists,
    the call returns and the node's dims are: x, the location of the
    column one level below the parent component
    ([cols[parentComponent.depth + 1]]) over the tree width; y, the y of
    the parent component; width and height, the sentinel 1e-6, which is
    strictly above 0 and not 0.  The previous dims are the dims of
    before, and no other node is written. *)
Theorem placeNode_not_visible (node : OmTreeNode) (leafCounter : Z)
    (emp : option OmTreeNode) (w : World) (pc : NodeRef) (col : Column) :
  isVisible node (node_flags (heap w) node) = false ->
  parentComponent node = Some pc ->
  index (cols w) (ref_depth pc + 1) = Some col ->
  exists w',
    placeNode node leafCounter emp w = Ok tt w' /\
    dims (heap w' (node_id node)) =
      {| dims_x := ndiv (col_location col) (treeWidth w);
         dims_y := dims_y (dims (heap w (ref_id pc)));
         dims_width := lit_1em6;
         dims_height := lit_1em6 |} /\
    nlt zero lit_1em6 = true /\ truthy lit_1em6 = true /\
    prevDims (heap w' (node_id node)) = dims (heap w (node_id node)) /\
    (forall j, j <> node_id node -> heap w' j = heap w j) /\
    cols w' = cols w /\ treeWidth w' = treeWidth w.
Proof.
  intros Hvis Hpc Hcol.
  unfold placeNode, on_dims, on_node, bind, get, modify, defined, ret.
  simpl. rewrite upd_flags_preserveDims, Hvis, Hpc. simpl. rewrite Hcol. simpl.
  eexists. split; [reflexivity|]. simpl.
  rewrite !upd_same. simpl.
  split; [|split; [apply lit_1em6_positive|split; [apply lit_1em6_nonzero|
          split; [reflexivity|split; [|split; reflexivity]]]]].
  - f_equal. destruct (Nat.eq_dec (ref_id pc) (node_id node)) as [E|E].
    + rewrite E, !upd_same. reflexivity.
    + rewrite !upd_other by assumption. reflexivity.
  - intros j Hj. now rewrite !upd_other by assumption.
Qed.

(** ** The scale mappings *)


(** ** Reasoning about the monad *)

Lemma bind_Ok {S A B : Type} (m : M S A) (k : A -> M S B) (s s1 : S) (a : A) :
  m s = Ok a s1 -> bind m k s = k a s1.
Proof. intros H. unfold bind. now rewrite H. Qed.

Lemma bind_Throw {S A B : Type} (m : M S A) (k : A -> M S B) (s s1 : S) (e : Error) :
  m s = Throw e s1 -> bind m k s = Throw e s1.
Proof. intros H. unfold bind. now rewrite H. Qed.

Lemma bind_Ok_inv {S A B : Type} (m : M S A) (k : A -> M S B) (s s2 : S) (b : B) :
  bind m k s = Ok b s2 -> exists a s1, m s = Ok a s1 /\ k a s1 = Ok b s2.
Proof.
  unfold bind. destruct (m s) as [a s1|e s1]; [eauto | discriminate].
Qed.

(** A relation between the state before and the state in which a
    computation ends, whether it returns or throws. *)
Definition preserves {S A : Type} (R : S -> S -> Prop) (m : M S A) : Prop :=
  forall s, R s (final_state (m s)).

Section Preserves.
Context {S : Type} (R : S -> S -> Prop).
Hypothesis R_refl : forall s, R s s.
Hypothesis R_trans : forall s1 s2 s3, R s1 s2 -> R s2 s3 -> R s1 s3.

Lemma preserves_ret {A : Type} (a : A) : preserves R (ret a).
Proof using R_refl. intros s. apply R_refl. Qed.

Lemma preserves_throw {A : Type} (e : Error) : preserves R (@throw S A e).
Proof using R_refl. intros s. apply R_refl. Qed.

Lemma preserves_get {A : Type} (f : S -> A) : preserves R (get f).
Proof using R_refl. intros s. apply R_refl. Qed.

Lemma preserves_defined {A : Type} (o : option A) : preserves R (@defined S A o).
Proof using R_refl. destruct o; intros s; apply R_refl. Qed.

Lemma preserves_modify (f : S -> S) : (forall s, R s (f s)) -> preserves R (modify f).
Proof using Type. intros H s. apply H. Qed.

Lemma preserves_bind {A B : Type} (m : M S A) (k : A -> M S B) :
  preserves R m -> (forall a, preserves R (k a)) -> preserves R (bind m k).
Proof using R_trans.
  intros Hm Hk s. unfold bind. specialize (Hm s).
  destruct (m s) as [a s1|e s1]; simpl in *; [|assumption].
  apply R_trans with s1; [assumption | apply Hk].
Qed.

Lemma preserves_if {A : Type} (b : bool) (m1 m2 : M S A) :
  preserves R m1 -> preserves R m2 -> preserves R (if b then m1 else m2).
Proof using Type. destruct b; auto. Qed.

End Preserves.

(** ** What each stage of the pass keeps *)

(** Two states of a node that differ at most in the fields a stage
    writes: the text width, the opacities, the dims. *)
Definition keeps_but_width (s s' : NodeState) : Prop :=
  flags s' = flags s /\ numLeaves s' = numLeaves s /\ dims s' = dims s /\
  prevDims s' = prevDims s /\ textOpacity s' = textOpacity s /\
  prevTextOpacity s' = prevTextOpacity s.

Definition keeps_but_opacity (s s' : NodeState) : Prop :=
  flags s' = flags s /\ numLeaves s' = numLeaves s /\
  nameWidthPx s' = nameWidthPx s /\ dims s' = dims s /\ prevDims s' = prevDims s.

Definition keeps_but_dims (s s' : NodeState) : Prop :=
  flags s' = flags s /\ numLeaves s' = numLeaves s /\
  nameWidthPx s' = nameWidthPx s /\ textOpacity s' = textOpacity s /\
  prevTextOpacity s' = prevTextOpacity s.

(** The heap after a stage: every node keeps what the stage does not
    write, and the nodes outside [ids] are not written at all. *)
Definition heap_rel (K : NodeState -> NodeState -> Prop) (ids : list nat)
    (h h' : Heap) : Prop :=
  (forall j, K (h j) (h' j)) /\ (forall j, ~ In j ids -> h' j = h j).

Definition same_columns (w w' : World) : Prop :=
  cols w' = cols w /\ leafWidthsPx w' = leafWidthsPx w /\
  greatestDepth w' = greatestDepth w /\ treeWidth w' = treeWidth w.

Definition world_rel (K : NodeState -> NodeState -> Prop) (ids : list nat)
    (w w' : World) : Prop :=
  heap_rel K ids (heap w) (heap w') /\ same_columns w w'.

Section Keeps.
Variable K : NodeState -> NodeState -> Prop.
Hypothesis K_refl : forall s, K s s.
Hypothesis K_trans : forall s1 s2 s3, K s1 s2 -> K s2 s3 -> K s1 s3.

Lemma heap_rel_refl (ids : list nat) (h : Heap) : heap_rel K ids h h.
Proof using K_refl. split; auto. Qed.

Lemma heap_rel_trans (ids : list nat) (h1 h2 h3 : Heap) :
  heap_rel K ids h1 h2 -> heap_rel K ids h2 h3 -> heap_rel K ids h1 h3.
Proof using K_trans.
  intros [Ha Hb] [Hc Hd]. split.
  - intros j. now apply K_trans with (h2 j).
  - intros j Hj. now rewrite Hd, Hb.
Qed.

Lemma heap_rel_mono (ids ids' : list nat) (h h' : Heap) :
  incl ids ids' -> heap_rel K ids h h' -> heap_rel K ids' h h'.
Proof using Type.
  intros Hincl [Ha Hb]. split; [assumption|].
  intros j Hj. apply Hb. intros Hin. apply Hj. now apply Hincl.
Qed.

Lemma heap_rel_upd (h : Heap) (i : nat) (f : NodeState -> NodeState) :
  (forall s, K s (f s)) -> heap_rel K [i] h (upd h i f).
Proof using K_refl.
  intros Hf. split; intros j.
  - unfold upd. destruct (Nat.eqb j i) eqn:E.
    + apply Nat.eqb_eq in E. subst. apply Hf.
    + apply K_refl.
  - intros Hj. apply upd_other. intros ->. apply Hj. now left.
Qed.

Lemma world_rel_refl (ids : list nat) (w : World) : world_rel K ids w w.
Proof using K_refl.
  split; [apply heap_rel_refl | unfold same_columns; auto].
Qed.

Lemma world_rel_trans (ids : list nat) (w1 w2 w3 : World) :
  world_rel K ids w1 w2 -> world_rel K ids w2 w3 -> world_rel K ids w1 w3.
Proof using K_trans.
  intros [Ha (A1 & A2 & A3 & A4)] [Hb (B1 & B2 & B3 & B4)]. split.
  - now apply heap_rel_trans with (heap w2).
  - unfold same_columns. repeat split; congruence.
Qed.

Lemma world_rel_mono (ids ids' : list nat) (w w' : World) :
  incl ids ids' -> world_rel K ids w w' -> world_rel K ids' w w'.
Proof using Type.
  intros Hincl [Ha Hb]. split; [now apply heap_rel_mono with ids | assumption].
Qed.

Lemma preserves_mono {A : Type} (ids ids' : list nat) (m : M World A) :
  incl ids ids' -> preserves (world_rel K ids) m -> preserves (world_rel K ids') m.
Proof using Type.
  intros Hincl Hm s. apply world_rel_mono with ids; [assumption | apply Hm].
Qed.

Lemma preserves_on_node (node : OmTreeNode) (f : NodeState -> NodeState) :
  (forall s, K s (f s)) -> preserves (world_rel K [node_id node]) (on_node node f).
Proof using K_refl.
  intros Hf w. unfold on_node, modify. simpl. split.
  - now apply heap_rel_upd.
  - unfold same_columns. simpl. auto.
Qed.

End Keeps.

Lemma keeps_but_width_refl (s : NodeState) : keeps_but_width s s.
Proof. unfold keeps_but_width. repeat split. Qed.

Lemma keeps_but_width_trans (s1 s2 s3 : NodeState) :
  keeps_but_width s1 s2 -> keeps_but_width s2 s3 -> keeps_but_width s1 s3.
Proof.
  unfold keeps_but_width. intros H1 H2.
  decompose [and] H1. decompose [and] H2. repeat split; congruence.
Qed.

Lemma keeps_but_opacity_refl (s : NodeState) : keeps_but_opacity s s.
Proof. unfold keeps_but_opacity. repeat split. Qed.

Lemma keeps_but_opacity_trans (s1 s2 s3 : NodeState) :
  keeps_but_opacity s1 s2 -> keeps_but_opacity s2 s3 -> keeps_but_opacity s1 s3.
Proof.
  unfold keeps_but_opacity. intros H1 H2.
  decompose [and] H1. decompose [and] H2. repeat split; congruence.
Qed.

Lemma keeps_but_dims_refl (s : NodeState) : keeps_but_dims s s.
Proof. unfold keeps_but_dims. repeat split. Qed.

Lemma keeps_but_dims_trans (s1 s2 s3 : NodeState) :
  keeps_but_dims s1 s2 -> keeps_but_dims s2 s3 -> keeps_but_dims s1 s3.
Proof.
  unfold keeps_but_dims. intros H1 H2.
  decompose [and] H1. decompose [and] H2. repeat split; congruence.
Qed.

(** One step in a proof that a computation preserves a relation. *)
Ltac preserves_step Hrefl Htrans :=
  lazymatch goal with
  | |- preserves _ (bind _ _) => eapply preserves_bind; [exact Htrans | | intros ?]
  | |- preserves _ (ret _) => eapply preserves_ret; exact Hrefl
  | |- preserves _ (throw _) => eapply preserves_throw; exact Hrefl
  | |- preserves _ (get _) => eapply preserves_get; exact Hrefl
  | |- preserves _ (defined _) => eapply preserves_defined; exact Hrefl
  | |- preserves _ (if _ then _ else _) => apply preserves_if
  | |- preserves _ (match ?o with Some _ => _ | None => _ end) => destruct o
  end.

(** *** Positions *)

Lemma _computeNormalizedPositions_eq (node : OmTreeNode) (leafCounter : Z)
    (isChildOfZoomed : bool) (emp : option OmTreeNode) :
  _computeNormalizedPositions node leafCounter isChildOfZoomed emp =
  (let isChildOfZoomed :=
     if negb isChildOfZoomed then Nat.eqb (node_id node) (node_id zoomedElement)
     else isChildOfZoomed in
   emp' <- enterNode node isChildOfZoomed emp ;;
   placeNode node leafCounter emp' ;;
   if hasChildren node
   then positionsLoop isChildOfZoomed emp' (children node) leafCounter
   else ret tt).
Proof. destruct node; reflexivity. Qed.

Lemma preserves_modify_lists (ids : list nat) (f : World -> World) :
  (forall w, heap (f w) = heap w /\ same_columns w (f w)) ->
  preserves (world_rel keeps_but_dims ids) (modify f).
Proof.
  intros Hf. apply preserves_modify. intros w. destruct (Hf w) as [Hh Hc].
  split; [|assumption]. rewrite Hh. apply (@heap_rel_refl _ keeps_but_dims_refl).
Qed.

Lemma enterNode_keeps (ids : list nat) (node : OmTreeNode) (icz : bool)
    (emp : option OmTreeNode) :
  preserves (world_rel keeps_but_dims ids) (enterNode node icz emp).
Proof.
  pose proof (@world_rel_refl _ keeps_but_dims_refl ids) as Hrefl.
  pose proof (@world_rel_trans _ keeps_but_dims_trans ids) as Htrans.
  unfold enterNode.
  repeat first
    [ preserves_step Hrefl Htrans
    | apply preserves_modify_lists; intros w; split;
      [reflexivity | unfold same_columns; simpl; auto] ].
Qed.

Lemma set_dims_keeps (f : Dimensions -> Dimensions) (s : NodeState) :
  keeps_but_dims s (set_dims (f (dims s)) s).
Proof. unfold keeps_but_dims. simpl. repeat split. Qed.

Lemma preserveDims_keeps (s : NodeState) : keeps_but_dims s (preserveDims s).
Proof. unfold keeps_but_dims, preserveDims. simpl. repeat split. Qed.

Lemma placeNode_keeps (node : OmTreeNode) (leafCounter : Z) (emp : option OmTreeNode) :
  preserves (world_rel keeps_but_dims [node_id node]) (placeNode node leafCounter emp).
Proof.
  pose proof (@world_rel_refl _ keeps_but_dims_refl [node_id node]) as Hrefl.
  pose proof (@world_rel_trans _ keeps_but_dims_trans [node_id node]) as Htrans.
  unfold placeNode, on_dims.
  repeat first
    [ preserves_step Hrefl Htrans
    | apply (@preserves_on_node _ keeps_but_dims_refl); intros s;
      first [apply preserveDims_keeps | apply set_dims_keeps] ].
Qed.

Lemma incl_child_subtree (c : OmTreeNode) (cs : list OmTreeNode) :
  In c cs -> incl (subtree_ids c) (flat_map subtree_ids cs).
Proof. intros Hc j Hj. eapply subtree_ids_child; eassumption. Qed.

Lemma positionsLoop_keeps (icz : bool) (emp : option OmTreeNode)
    (cs : list OmTreeNode) :
  Forall (fun c => forall lc icz emp,
            preserves (world_rel keeps_but_dims (subtree_ids c))
                      (_computeNormalizedPositions c lc icz emp)) cs ->
  forall lc, preserves (world_rel keeps_but_dims (flat_map subtree_ids cs))
                       (positionsLoop icz emp cs lc).
Proof.
  pose proof (fun ids => @world_rel_refl _ keeps_but_dims_refl ids) as Hrefl.
  pose proof (fun ids => @world_rel_trans _ keeps_but_dims_trans ids) as Htrans.
  induction 1 as [|c cs Hc _ IH]; intros lc; simpl.
  - apply preserves_ret, Hrefl.
  - eapply preserves_bind; [apply Htrans | apply preserves_get, Hrefl | intros h].
    apply preserves_if.
    + eapply preserves_bind; [apply Htrans | | intros ?].
      * eapply preserves_mono; [|apply Hc]. apply incl_appl, incl_refl.
      * eapply preserves_bind; [apply Htrans | apply preserves_get, Hrefl | intros h'].
        eapply preserves_mono; [|apply IH]. apply incl_appr, incl_refl.
    + eapply preserves_mono; [|apply IH]. apply incl_appr, incl_refl.
Qed.

Lemma _computeNormalizedPositions_keeps (node : OmTreeNode) :
  forall lc icz emp,
    preserves (world_rel keeps_but_dims (subtree_ids node))
              (_computeNormalizedPositions node lc icz emp).
Proof.
  pose proof (fun ids => @world_rel_refl _ keeps_but_dims_refl ids) as Hrefl.
  pose proof (fun ids => @world_rel_trans _ keeps_but_dims_trans ids) as Htrans.
  induction node as [node IH] using OmTreeNode_ind'.
  intros lc icz emp. rewrite _computeNormalizedPositions_eq. cbv zeta.
  rewrite subtree_ids_eq.
  eapply preserves_bind; [apply Htrans | apply enterNode_keeps | intros emp'].
  eapply preserves_bind; [apply Htrans | | intros ?].
  - eapply preserves_mono; [|apply placeNode_keeps].
    intros j [->|[]]. now left.
  - apply preserves_if; [|apply preserves_ret, Hrefl].
    eapply preserves_mono; [|apply positionsLoop_keeps; exact IH].
    apply incl_tl, incl_refl.
Qed.

(** *** Text widths and column widths *)

(** The relation of a stage on the heap alone. *)
Definition heap_kept (K : NodeState -> NodeState -> Prop) (ids : list nat)
    (w w' : World) : Prop :=
  heap_rel K ids (heap w) (heap w').

Section HeapKept.
Variable K : NodeState -> NodeState -> Prop.
Hypothesis K_refl : forall s, K s s.
Hypothesis K_trans : forall s1 s2 s3, K s1 s2 -> K s2 s3 -> K s1 s3.

Lemma heap_kept_refl (ids : list nat) (w : World) : heap_kept K ids w w.
Proof using K_refl. apply heap_rel_refl, K_refl. Qed.

Lemma heap_kept_trans (ids : list nat) (w1 w2 w3 : World) :
  heap_kept K ids w1 w2 -> heap_kept K ids w2 w3 -> heap_kept K ids w1 w3.
Proof using K_trans. apply heap_rel_trans, K_trans. Qed.

Lemma heap_kept_mono {A : Type} (ids ids' : list nat) (m : M World A) :
  incl ids ids' -> preserves (heap_kept K ids) m -> preserves (heap_kept K ids') m.
Proof using Type.
  intros Hincl Hm s. apply heap_rel_mono with ids; [assumption | apply Hm].
Qed.

Lemma heap_kept_on_node (node : OmTreeNode) (f : NodeState -> NodeState) :
  (forall s, K s (f s)) -> preserves (heap_kept K [node_id node]) (on_node node f).
Proof using K_refl.
  intros Hf w. unfold on_node, modify, heap_kept. simpl. now apply heap_rel_upd.
Qed.

Lemma heap_kept_modify (ids : list nat) (f : World -> World) :
  (forall w, heap (f w) = heap w) -> preserves (heap_kept K ids) (modify f).
Proof using K_refl.
  intros Hf w. unfold modify, heap_kept. simpl. rewrite Hf.
  apply heap_rel_refl, K_refl.
Qed.

End HeapKept.

(** One step for a stage that writes other fields of the world too. *)
Ltac kept_step Hrefl Htrans Krefl :=
  first
    [ preserves_step Hrefl Htrans
    | apply (@heap_kept_modify _ Krefl); intros ?; reflexivity ].

Lemma _getTextWidth_kept (ids : list nat) (text : string) :
  preserves (heap_kept keeps_but_width ids) (_getTextWidth text).
Proof.
  pose proof (@heap_kept_refl _ keeps_but_width_refl ids) as Hrefl.
  pose proof (@heap_kept_trans _ keeps_but_width_trans ids) as Htrans.
  unfold _getTextWidth.
  repeat kept_step Hrefl Htrans keeps_but_width_refl.
Qed.

Lemma _updateTextWidths_eq (node : OmTreeNode) :
  _updateTextWidths node =
  (h <- get heap ;;
   if draw_hidden h node then ret tt
   else
     tw <- _getTextWidth (getText node) ;;
     on_node node (set_nameWidthPx (nadd tw (nmul (of_int 2) (rightTextMargin size)))) ;;
     h <- get heap ;;
     if hasChildren node && negb (draw_minimized h node) then
       (fix loop (cs : list OmTreeNode) {struct cs} : M World unit :=
          match cs with
          | [] => ret tt
          | child :: cs' => _updateTextWidths child ;; loop cs'
          end) (children node)
     else ret tt).
Proof. destruct node; reflexivity. Qed.

(** A loop that runs a method on every child in turn. *)
Definition forEach (f : OmTreeNode -> M World unit) : list OmTreeNode -> M World unit :=
  fix loop (cs : list OmTreeNode) {struct cs} : M World unit :=
    match cs with
    | [] => ret tt
    | child :: cs' => f child ;; loop cs'
    end.

Lemma forEach_preserves (R : list nat -> World -> World -> Prop)
    (f : OmTreeNode -> M World unit) (cs : list OmTreeNode) :
  (forall ids w, R ids w w) ->
  (forall ids w1 w2 w3, R ids w1 w2 -> R ids w2 w3 -> R ids w1 w3) ->
  (forall ids ids' w w', incl ids ids' -> R ids w w' -> R ids' w w') ->
  Forall (fun c => preserves (R (subtree_ids c)) (f c)) cs ->
  preserves (R (flat_map subtree_ids cs)) (forEach f cs).
Proof.
  intros Hrefl Htrans Hmono. induction 1 as [|c cs Hc _ IH]; simpl.
  - apply preserves_ret, Hrefl.
  - eapply preserves_bind; [apply Htrans | | intros ?].
    + intros w. eapply Hmono; [|apply Hc]. apply incl_appl, incl_refl.
    + intros w. eapply Hmono; [|apply IH]. apply incl_appr, incl_refl.
Qed.

Lemma set_nameWidthPx_keeps (v : num) (s : NodeState) :
  keeps_but_width s (set_nameWidthPx v s).
Proof. unfold keeps_but_width. simpl. repeat split. Qed.

Lemma _updateTextWidths_kept (node : OmTreeNode) :
  preserves (heap_kept keeps_but_width (subtree_ids node)) (_updateTextWidths node).
Proof.
  pose proof (fun ids => @heap_kept_refl _ keeps_but_width_refl ids) as Hrefl.
  pose proof (fun ids => @heap_kept_trans _ keeps_but_width_trans ids) as Htrans.
  induction node as [node IH] using OmTreeNode_ind'.
  rewrite _updateTextWidths_eq, subtree_ids_eq.
  eapply preserves_bind; [apply Htrans | apply preserves_get, Hrefl | intros h].
  apply preserves_if; [apply preserves_ret, Hrefl|].
  eapply preserves_bind; [apply Htrans | apply _getTextWidth_kept | intros tw].
  eapply preserves_bind; [apply Htrans | | intros ?].
  { eapply heap_kept_mono; [|apply (@heap_kept_on_node _ keeps_but_width_refl)].
    - intros j [->|[]]. now left.
    - intros s. apply set_nameWidthPx_keeps. }
  eapply preserves_bind; [apply Htrans | apply preserves_get, Hrefl | intros h'].
  apply preserves_if; [|apply preserves_ret, Hrefl].
  eapply heap_kept_mono with (ids := flat_map subtree_ids (children node));
    [apply incl_tl, incl_refl|].
  apply (@forEach_preserves (heap_kept keeps_but_width) _updateTextWidths).
  - intros ids w. apply Hrefl.
  - intros ids. apply Htrans.
  - intros ids ids' w w' Hincl. now apply heap_rel_mono.
  - exact IH.
Qed.

Lemma _setColumnWidthsFromWidestText_eq (node : OmTreeNode) :
  _setColumnWidthsFromWidestText node =
  (h <- get heap ;;
   if draw_hidden h node then ret tt
   else
     let height :=
       ndiv (nmul (n2matrix_height size) (of_int (draw_numLeaves h node)))
            (of_int (draw_numLeaves h zoomedElement)) in
     let prev :=
       match textOpacity (h (node_id node)) with
       | Some o => o
       | None => zero
       end in
     let opacity := if ngt height (font size) then one else zero in
     on_node node (set_opacities (Some prev) (Some opacity)) ;;
     let hasVisibleDetail := nge height (of_int 2) in
     let width := if hasVisibleDetail then minColumnWidth size else lit_1em3 in
     h <- get heap ;;
     let width :=
       if ngt opacity lit_half then nameWidthPx (h (node_id node)) else width in
     modify (fun w => with_greatestDepth (Z.max (greatestDepth w) (depth node)) w) ;;
     if hasChildren node && negb (draw_minimized h node) then
       colArr <- get cols ;;
       col <- defined (index colArr (depth node)) ;;
       modify (with_cols
                 (assign colArr (depth node)
                    (set_col_width (nmax (col_width col) width) col))) ;;
       forEach _setColumnWidthsFromWidestText (children node)
     else if negb (draw_filtered h node) then
       leafArr <- get leafWidthsPx ;;
       match index leafArr (depth node) with
       | Some cur =>
           modify (with_leafWidthsPx (assign leafArr (depth node) (nmax cur width)))
       | None => throw OutsideModel
       end
     else ret tt).
Proof. destruct node; reflexivity. Qed.

Lemma set_opacities_keeps (p c : option num) (s : NodeState) :
  keeps_but_opacity s (set_opacities p c s).
Proof. unfold keeps_but_opacity. simpl. repeat split. Qed.

Lemma _setColumnWidthsFromWidestText_kept (node : OmTreeNode) :
  preserves (heap_kept keeps_but_opacity (subtree_ids node))
            (_setColumnWidthsFromWidestText node).
Proof.
  pose proof (fun ids => @heap_kept_refl _ keeps_but_opacity_refl ids) as Hrefl.
  pose proof (fun ids => @heap_kept_trans _ keeps_but_opacity_trans ids) as Htrans.
  induction node as [node IH] using OmTreeNode_ind'.
  rewrite _setColumnWidthsFromWidestText_eq, subtree_ids_eq. cbv zeta.
  eapply preserves_bind; [apply Htrans | apply preserves_get, Hrefl | intros h].
  apply preserves_if; [apply preserves_ret, Hrefl|].
  eapply preserves_bind; [apply Htrans | | intros ?].
  { eapply heap_kept_mono; [|apply (@heap_kept_on_node _ keeps_but_opacity_refl)].
    - intros j [->|[]]. now left.
    - intros s. apply set_opacities_keeps. }
  eapply preserves_bind; [apply Htrans | apply preserves_get, Hrefl | intros h'].
  eapply preserves_bind; [apply Htrans | | intros ?].
  { apply (@heap_kept_modify _ keeps_but_opacity_refl). reflexivity. }
  apply preserves_if; [|apply preserves_if].
  - eapply preserves_bind; [apply Htrans | apply preserves_get, Hrefl | intros colArr].
    eapply preserves_bind; [apply Htrans | apply preserves_defined, Hrefl | intros col].
    eapply preserves_bind; [apply Htrans | | intros ?].
    { apply (@heap_kept_modify _ keeps_but_opacity_refl). reflexivity. }
    eapply heap_kept_mono with (ids := flat_map subtree_ids (children node));
      [apply incl_tl, incl_refl|].
    apply (@forEach_preserves (heap_kept keeps_but_opacity)
             _setColumnWidthsFromWidestText).
    + intros ids w. apply Hrefl.
    + intros ids. apply Htrans.
    + intros ids ids' w w' Hincl. now apply heap_rel_mono.
    + exact IH.
  - eapply preserves_bind; [apply Htrans | apply preserves_get, Hrefl | intros leafArr].
    destruct (index leafArr (depth node)).
    + apply (@heap_kept_modify _ keeps_but_opacity_refl). reflexivity.
    + apply preserves_throw, Hrefl.
  - apply preserves_ret, Hrefl.
Qed.

(** The rest of the column stage does not write the heap. *)
Definition same_heap (w w' : World) : Prop := heap w' = heap w.

Lemma same_heap_refl (w : World) : same_heap w w.
Proof. reflexivity. Qed.

Lemma same_heap_trans (w1 w2 w3 : World) :
  same_heap w1 w2 -> same_heap w2 w3 -> same_heap w1 w3.
Proof. unfold same_heap. congruence. Qed.

Ltac same_heap_step :=
  first
    [ preserves_step same_heap_refl same_heap_trans
    | apply preserves_modify; intros ?; reflexivity ].

Lemma lastColumnLoop_same_heap (fuel : nat) :
  forall i sum last, preserves same_heap (lastColumnLoop fuel i sum last).
Proof.
  induction fuel as [|fuel IH]; intros i sum last; simpl.
  - apply preserves_ret, same_heap_refl.
  - apply preserves_if; [|apply preserves_ret, same_heap_refl].
    repeat first [apply IH | same_heap_step].
Qed.

Lemma assign_col_width_same_heap (i : Z) (v : num) :
  preserves same_heap (assign_col_width i v).
Proof. unfold assign_col_width. repeat same_heap_step. Qed.

Lemma adjustEnds_same_heap (v : num) : preserves same_heap (adjustEnds v).
Proof.
  unfold adjustEnds. repeat first [apply assign_col_width_same_heap | same_heap_step].
Qed.

Lemma columnLocationLoop_same_heap (depths : list nat) :
  preserves same_heap (columnLocationLoop depths).
Proof.
  induction depths as [|d depths IH]; simpl.
  - apply preserves_ret, same_heap_refl.
  - repeat first [apply IH | same_heap_step].
Qed.

Lemma _setColumnLocations_same_heap : preserves same_heap _setColumnLocations.
Proof.
  unfold _setColumnLocations.
  repeat first [apply columnLocationLoop_same_heap | same_heap_step].
Qed.

Lemma same_heap_kept (K : NodeState -> NodeState -> Prop) (ids : list nat)
    {A : Type} (m : M World A) :
  (forall s, K s s) -> preserves same_heap m -> preserves (heap_kept K ids) m.
Proof.
  intros Hrefl Hm w. specialize (Hm w). unfold same_heap in Hm.
  unfold heap_kept. rewrite Hm. now apply heap_rel_refl.
Qed.

Lemma _computeColumnWidths_kept :
  preserves (heap_kept keeps_but_opacity (subtree_ids zoomedElement))
            _computeColumnWidths.
Proof.
  pose proof (@heap_kept_refl _ keeps_but_opacity_refl (subtree_ids zoomedElement))
    as Hrefl.
  pose proof (@heap_kept_trans _ keeps_but_opacity_trans (subtree_ids zoomedElement))
    as Htrans.
  unfold _computeColumnWidths, widestColumns.
  repeat first
    [ apply _setColumnWidthsFromWidestText_kept
    | apply same_heap_kept;
      [apply keeps_but_opacity_refl
      | first [apply lastColumnLoop_same_heap | apply adjustEnds_same_heap]]
    | kept_step Hrefl Htrans keeps_but_opacity_refl ].
Qed.

(** *** The node the traversal places, and what it reads *)

(** Whether the node is in the zoomed subtree, as computed on entry. *)
Definition zoomedNow (isChildOfZoomed : bool) (node : OmTreeNode) : bool :=
  if negb isChildOfZoomed then Nat.eqb (node_id node) (node_id zoomedElement)
  else isChildOfZoomed.

(** The earliest minimized parent after [enterNode]. *)
Definition nextEmp (h : Heap) (node : OmTreeNode) (isChildOfZoomed : bool)
    (emp : option OmTreeNode) : option OmTreeNode :=
  match emp with
  | Some e => Some e
  | None =>
      if isChildOfZoomed && isVisible node (node_flags h node)
         && isVisibleLeaf node (node_flags h node)
      then Some node else None
  end.

Definition workNode (node : OmTreeNode) (emp : option OmTreeNode) : OmTreeNode :=
  match emp with
  | Some e => e
  | None => node
  end.

Lemma enterNode_spec (node : OmTreeNode) (icz : bool) (emp : option OmTreeNode)
    (w : World) :
  exists w', enterNode node icz emp w = Ok (nextEmp (heap w) node icz emp) w' /\
             heap w' = heap w /\ same_columns w w'.
Proof.
  unfold enterNode, nextEmp, bind, get, modify, ret, same_columns.
  destruct emp as [e|]; simpl;
    [eexists; split; [reflexivity|]; repeat split|].
  destruct icz; simpl; [|eexists; split; [reflexivity|]; repeat split].
  destruct (isVisible node (node_flags (heap w) node)); simpl;
    [|eexists; split; [reflexivity|]; repeat split].
  destruct (isVisibleLeaf node (node_flags (heap w) node)); simpl;
    [|eexists; split; [reflexivity|]; repeat split].
  destruct (negb (draw_hidden (heap w) node)); simpl;
    eexists; (split; [reflexivity|]); repeat split.
Qed.

Lemma upd_numLeaves (h : Heap) (i : nat) (f : NodeState -> NodeState) (j : nat) :
  (forall s, numLeaves (f s) = numLeaves s) ->
  numLeaves (upd h i f j) = numLeaves (h j).
Proof.
  intros Hf. unfold upd. destruct (Nat.eqb j i) eqn:E; [|reflexivity].
  apply Nat.eqb_eq in E. subst. apply Hf.
Qed.

Lemma upd_flags (h : Heap) (i : nat) (f : NodeState -> NodeState) (j : nat) :
  (forall s, flags (f s) = flags s) ->
  flags (upd h i f j) = flags (h j).
Proof.
  intros Hf. unfold upd. destruct (Nat.eqb j i) eqn:E; [|reflexivity].
  apply Nat.eqb_eq in E. subst. apply Hf.
Qed.

(** What [placeNode] does to a visible node whose column exists. *)
Lemma placeNode_visible (node : OmTreeNode) (leafCounter : Z)
    (emp : option OmTreeNode) (w : World) (col : Column) :
  isVisible node (node_flags (heap w) node) = true ->
  index (cols w) (depth (workNode node emp)) = Some col ->
  exists w',
    placeNode node leafCounter emp w = Ok tt w' /\
    dims_x (dims (heap w' (node_id node))) = ndiv (col_location col) (treeWidth w) /\
    dims_y (dims (heap w' (node_id node))) =
      ndiv (of_int leafCounter) (of_int (draw_numLeaves (heap w) (root model))) /\
    dims_width (dims (heap w' (node_id node))) =
      (if hasChildren node && negb (draw_minimized (heap w) node)
          && negb (draw_filtered (heap w) node)
       then ndiv (col_width col) (treeWidth w)
       else nsub one
              (if Nat.eqb (node_id (workNode node emp)) (node_id node)
               then ndiv (col_location col) (treeWidth w)
               else dims_x (draw_dims (heap w) (workNode node emp)))) /\
    dims_height (dims (heap w' (node_id node))) =
      ndiv (of_int (draw_numLeaves (heap w) (workNode node emp)))
           (of_int (draw_numLeaves (heap w) (root model))).
Proof.
  intros Hvis Hcol.
  unfold placeNode, on_dims, on_node, bind, get, modify, defined, ret.
  simpl. rewrite upd_flags_preserveDims, Hvis. simpl.
  fold (workNode node emp). rewrite Hcol. simpl.
  eexists. split; [reflexivity|]. simpl.
  unfold draw_numLeaves, draw_minimized, draw_filtered, draw_dims.
  rewrite !upd_same. simpl.
  rewrite ?upd_numLeaves by (intros; reflexivity).
  rewrite ?upd_flags by (intros; reflexivity).
  split; [reflexivity|]. split; [reflexivity|]. split; [|reflexivity].
  destruct (hasChildren node && _ && _); [reflexivity|].
  f_equal. destruct (Nat.eqb (node_id (workNode node emp)) (node_id node)) eqn:E.
  - apply Nat.eqb_eq in E. rewrite E, !upd_same. reflexivity.
  - apply Nat.eqb_neq in E. rewrite !upd_other by assumption. reflexivity.
Qed.

(** The child is entered by the loop: it is not a minimized input or
    output. *)
Definition entered (h : Heap) (child : OmTreeNode) : bool :=
  negb (isInputOrOutput child) || negb (draw_minimized h child).

(** [Visited h top icz emp n icz_n emp_n]: the traversal called on [top]
    with [icz] and [emp] calls itself on [n] with [icz_n] and [emp_n]. *)
Inductive Visited (h : Heap) :
  OmTreeNode -> bool -> option OmTreeNode ->
  OmTreeNode -> bool -> option OmTreeNode -> Prop :=
| Visited_here (top : OmTreeNode) (icz : bool) (emp : option OmTreeNode) :
    Visited h top icz emp top icz emp
| Visited_below (top : OmTreeNode) (icz : bool) (emp : option OmTreeNode)
    (c n : OmTreeNode) (icz_n : bool) (emp_n : option OmTreeNode) :
    In c (children top) ->
    entered h c = true ->
    Visited h c (zoomedNow icz top) (nextEmp h top (zoomedNow icz top) emp)
            n icz_n emp_n ->
    Visited h top icz emp n icz_n emp_n.

Definition same_flags (h h' : Heap) : Prop := forall j, flags (h' j) = flags (h j).

Lemma nextEmp_same_flags (h h' : Heap) (node : OmTreeNode) (icz : bool)
    (emp : option OmTreeNode) :
  same_flags h h' -> nextEmp h' node icz emp = nextEmp h node icz emp.
Proof. intros H. unfold nextEmp, node_flags. now rewrite H. Qed.

Lemma entered_same_flags (h h' : Heap) (c : OmTreeNode) :
  same_flags h h' -> entered h' c = entered h c.
Proof. intros H. unfold entered, draw_minimized. now rewrite H. Qed.

Lemma Visited_same_flags (h h' : Heap) (top n : OmTreeNode) (icz icz_n : bool)
    (emp emp_n : option OmTreeNode) :
  same_flags h h' -> Visited h top icz emp n icz_n emp_n ->
  Visited h' top icz emp n icz_n emp_n.
Proof.
  intros H. induction 1 as [|top icz emp c n icz_n emp_n Hc He _ IH].
  - constructor.
  - eapply Visited_below; [exact Hc | now rewrite (entered_same_flags c H) |].
    now rewrite (nextEmp_same_flags top (zoomedNow icz top) emp H).
Qed.

Lemma Visited_in_subtree (h : Heap) (top n : OmTreeNode) (icz icz_n : bool)
    (emp emp_n : option OmTreeNode) :
  Visited h top icz emp n icz_n emp_n -> In (node_id n) (subtree_ids top).
Proof.
  induction 1 as [|top icz emp c n icz_n emp_n Hc _ _ IH].
  - apply node_id_in_subtree.
  - rewrite subtree_ids_eq. right. eapply subtree_ids_child; eassumption.
Qed.

Lemma world_rel_same_flags (ids : list nat) (w w' : World) :
  world_rel keeps_but_dims ids w w' -> same_flags (heap w) (heap w').
Proof. intros [[H _] _] j. apply (H j). Qed.

Lemma NoDup_child (c : OmTreeNode) (cs : list OmTreeNode) :
  NoDup (flat_map subtree_ids cs) -> In c cs -> NoDup (subtree_ids c).
Proof.
  induction cs as [|a cs IH]; simpl; intros Hnd Hin; [contradiction|].
  destruct Hin as [->|Hin].
  - eapply NoDup_app_remove_r; eassumption.
  - apply IH; [eapply NoDup_app_remove_l; eassumption | assumption].
Qed.

(** The loop over the children calls the traversal on every child that
    is entered; what that call writes below the child is final. *)
Lemma positionsLoop_reach (icz : bool) (emp : option OmTreeNode) (c : OmTreeNode)
    (cs : list OmTreeNode) :
  forall lc w w',
    NoDup (flat_map subtree_ids cs) -> In c cs -> entered (heap w) c = true ->
    positionsLoop icz emp cs lc w = Ok tt w' ->
    exists lc_c w_c w_c',
      world_rel keeps_but_dims (flat_map subtree_ids cs) w w_c /\
      _computeNormalizedPositions c lc_c icz emp w_c = Ok tt w_c' /\
      world_rel keeps_but_dims (flat_map subtree_ids cs) w_c' w' /\
      forall j, In j (subtree_ids c) -> heap w' j = heap w_c' j.
Proof.
  pose proof (fun ids => @world_rel_refl _ keeps_but_dims_refl ids) as Hrefl.
  pose proof (fun ids => @world_rel_trans _ keeps_but_dims_trans ids) as Htrans.
  induction cs as [|a cs IH]; intros lc w w' Hnd Hin Hent Hrun; [contradiction|].
  simpl in Hnd.
  pose proof (NoDup_app_remove_l _ _ Hnd) as Hnd2.
  pose proof (NoDup_app_disjoint _ _ Hnd) as Hdisj.
  simpl in Hrun. unfold bind at 1 in Hrun. unfold get at 1 in Hrun.
  fold (entered (heap w) a) in Hrun.
  assert (Htail : forall lc1 w1,
            world_rel keeps_but_dims (subtree_ids a) w w1 ->
            positionsLoop icz emp cs lc1 w1 = Ok tt w' ->
            world_rel keeps_but_dims (flat_map subtree_ids cs) w1 w').
  { intros lc1 w1 _ H1.
    pose proof (@positionsLoop_keeps icz emp cs) as Hk.
    specialize (Hk (proj2 (Forall_forall _ _)
                      (fun c0 _ => _computeNormalizedPositions_keeps c0)) lc1 w1).
    now rewrite H1 in Hk. }
  destruct Hin as [->|Hin].
  - rewrite Hent in Hrun.
    apply bind_Ok_inv in Hrun as ([] & w1 & Hc & Hrun).
    apply bind_Ok_inv in Hrun as (h1 & w1' & Hget & Hrun).
    unfold get in Hget. inversion Hget; subst w1' h1.
    pose proof (_computeNormalizedPositions_keeps c lc icz emp w) as Hk.
    rewrite Hc in Hk. simpl in Hk.
    exists lc, w, w1. split; [apply Hrefl|]. split; [exact Hc|].
    pose proof (Htail _ _ Hk Hrun) as Hrest.
    split.
    + simpl. eapply world_rel_mono; [|exact Hrest]. apply incl_appr, incl_refl.
    + intros j Hj. apply (proj2 (proj1 Hrest)). now apply Hdisj.
  - assert (Hstep : exists lc1 w1,
              world_rel keeps_but_dims (subtree_ids a) w w1 /\
              positionsLoop icz emp cs lc1 w1 = Ok tt w').
    { destruct (entered (heap w) a).
      - apply bind_Ok_inv in Hrun as ([] & w1 & Hc & Hrun).
        apply bind_Ok_inv in Hrun as (h1 & w1' & Hget & Hrun).
        unfold get in Hget. inversion Hget; subst w1' h1.
        pose proof (_computeNormalizedPositions_keeps a lc icz emp w) as Hk.
        rewrite Hc in Hk. simpl in Hk. eauto.
      - exists lc, w. split; [apply Hrefl | exact Hrun]. }
    destruct Hstep as (lc1 & w1 & Hk & Hrun1).
    assert (Hent1 : entered (heap w1) c = true).
    { now rewrite (entered_same_flags c (world_rel_same_flags Hk)). }
    destruct (IH lc1 w1 w' Hnd2 Hin Hent1 Hrun1) as (lc_c & w_c & w_c' & H1 & H2 & H3 & H4).
    exists lc_c, w_c, w_c'. split; [|split; [exact H2|split; [|exact H4]]].
    + simpl. eapply Htrans.
      * eapply world_rel_mono; [|exact Hk]. apply incl_appl, incl_refl.
      * eapply world_rel_mono; [|exact H1]. apply incl_appr, incl_refl.
    + simpl. eapply world_rel_mono; [|exact H3]. apply incl_appr, incl_refl.
Qed.

(** Every visited node is placed once, and what [placeNode] writes on it
    is what the traversal leaves on it. *)
Lemma positions_visit (h : Heap) (top n : OmTreeNode) (icz icz_n : bool)
    (emp emp_n : option OmTreeNode) :
  Visited h top icz emp n icz_n emp_n ->
  forall lc w w',
    same_flags h (heap w) ->
    NoDup (subtree_ids top) ->
    _computeNormalizedPositions top lc icz emp w = Ok tt w' ->
    exists lc_n w_n w_n',
      world_rel keeps_but_dims (subtree_ids top) w w_n /\
      placeNode n lc_n (nextEmp h n (zoomedNow icz_n n) emp_n) w_n = Ok tt w_n' /\
      heap w' (node_id n) = heap w_n' (node_id n).
Proof.
  pose proof (fun ids => @world_rel_refl _ keeps_but_dims_refl ids) as Hrefl.
  pose proof (fun ids => @world_rel_trans _ keeps_but_dims_trans ids) as Htrans.
  induction 1 as [top icz emp|top icz emp c n icz_n emp_n Hc Hent Hvis IH];
    intros lc w w' Hfl Hnd Hrun;
    rewrite _computeNormalizedPositions_eq in Hrun; cbv zeta in Hrun;
    fold (zoomedNow icz top) in Hrun;
    apply bind_Ok_inv in Hrun as (emp' & w1 & Henter & Hrun);
    apply bind_Ok_inv in Hrun as ([] & w2 & Hplace & Hrun);
    destruct (enterNode_spec top (zoomedNow icz top) emp w) as (w1' & He & Hh1 & Hc1);
    rewrite He in Henter; inversion Henter; subst w1' emp'; clear Henter;
    rewrite (nextEmp_same_flags top (zoomedNow icz top) emp Hfl) in *;
    rewrite subtree_ids_eq in Hnd; inversion Hnd as [|? ? Hid Hcs]; subst.
  - exists lc, w1, w2. split; [|split; [exact Hplace|]].
    + split; [|exact Hc1]. rewrite Hh1. apply (@heap_rel_refl _ keeps_but_dims_refl).
    + destruct (hasChildren top).
      * pose proof (@positionsLoop_keeps (zoomedNow icz top)
                      (nextEmp h top (zoomedNow icz top) emp) (children top)
                      (proj2 (Forall_forall _ _)
                         (fun c0 _ => _computeNormalizedPositions_keeps c0)) lc w2) as Hk.
        rewrite Hrun in Hk. simpl in Hk. now apply (proj2 (proj1 Hk)).
      * unfold ret in Hrun. now inversion Hrun.
  - assert (Hhas : hasChildren top = true).
    { unfold hasChildren. destruct (children top); [contradiction | reflexivity]. }
    rewrite Hhas in Hrun.
    pose proof (placeNode_keeps top lc (nextEmp h top (zoomedNow icz top) emp) w1) as Hk2.
    rewrite Hplace in Hk2. simpl in Hk2.
    assert (Hw2 : world_rel keeps_but_dims (subtree_ids top) w w2).
    { apply Htrans with w1.
      - split; [|exact Hc1]. rewrite Hh1. apply (@heap_rel_refl _ keeps_but_dims_refl).
      - eapply world_rel_mono; [|exact Hk2]. intros j [Hj|[]]. subst j.
        apply node_id_in_subtree. }
    pose proof (world_rel_same_flags Hw2) as Hfl2.
    assert (Hfl2' : same_flags h (heap w2)).
    { intros j. now rewrite Hfl2, Hfl. }
    assert (Hent2 : entered (heap w2) c = true).
    { now rewrite (entered_same_flags c Hfl2'). }
    destruct (@positionsLoop_reach _ _ c (children top) lc w2 w' Hcs Hc Hent2 Hrun)
      as (lc_c & w_c & w_c' & H1 & H2 & _ & H4).
    assert (Hflc : same_flags h (heap w_c)).
    { intros j. rewrite (world_rel_same_flags H1 j). apply Hfl2'. }
    destruct (IH lc_c w_c w_c' Hflc (@NoDup_child _ _ Hcs Hc) H2)
      as (lc_n & w_n & w_n' & G1 & G2 & G3).
    exists lc_n, w_n, w_n'. split; [|split; [exact G2|]].
    + apply Htrans with w2; [exact Hw2|].
      rewrite subtree_ids_eq.
      apply Htrans with w_c.
      * eapply world_rel_mono; [|exact H1]. apply incl_tl, incl_refl.
      * eapply world_rel_mono; [|exact G1].
        apply incl_tl. now apply incl_child_subtree.
    + rewrite <- G3. apply H4. eapply Visited_in_subtree; eassumption.
Qed.

(** *** The stages of the pass *)

(** What the pass keeps on every node after the leaves are counted. *)
Definition keeps_counts (s s' : NodeState) : Prop :=
  flags s' = flags s /\ numLeaves s' = numLeaves s.

Lemma keeps_counts_refl (s : NodeState) : keeps_counts s s.
Proof. split; reflexivity. Qed.

Lemma keeps_counts_trans (s1 s2 s3 : NodeState) :
  keeps_counts s1 s2 -> keeps_counts s2 s3 -> keeps_counts s1 s3.
Proof. unfold keeps_counts. intros [? ?] [? ?]. split; congruence. Qed.

Lemma heap_kept_weaken (K K' : NodeState -> NodeState -> Prop) (ids : list nat)
    {A : Type} (m : M World A) :
  (forall s s', K s s' -> K' s s') ->
  preserves (heap_kept K ids) m -> preserves (heap_kept K' ids) m.
Proof.
  intros HK Hm w. destruct (Hm w) as [H1 H2]. split; [|exact H2].
  intros j. apply HK, H1.
Qed.

Lemma computeColumns_kept :
  preserves (heap_kept keeps_counts (subtree_ids zoomedElement)) computeColumns.
Proof.
  pose proof (@heap_kept_refl _ keeps_counts_refl (subtree_ids zoomedElement)) as Hrefl.
  pose proof (@heap_kept_trans _ keeps_counts_trans (subtree_ids zoomedElement))
    as Htrans.
  unfold computeColumns, _setupTextRenderer.
  repeat first
    [ eapply heap_kept_weaken; [|apply _updateTextWidths_kept];
      intros s s' Hk; split; apply Hk
    | eapply heap_kept_weaken; [|apply _computeColumnWidths_kept];
      intros s s' Hk; split; apply Hk
    | apply same_heap_kept; [apply keeps_counts_refl | apply _setColumnLocations_same_heap]
    | kept_step Hrefl Htrans keeps_counts_refl ].
Qed.

Lemma layoutPass_stages (w w' : World) :
  layoutPass w = Ok tt w' ->
  exists w2 w3,
    computeColumns (with_heap (_computeLeaves (root model) (heap w)) w) = Ok tt w2 /\
    _computeNormalizedPositions (root model) 0 false None w2 = Ok tt w3 /\
    heap w' = heap w3 /\ same_columns w3 w'.
Proof.
  unfold layoutPass, computeLeaves. intros H.
  apply bind_Ok_inv in H as ([] & w1 & H1 & H).
  unfold modify in H1. inversion H1; subst w1; clear H1.
  apply bind_Ok_inv in H as ([] & w2 & H2 & H).
  unfold computePositions in H.
  apply bind_Ok_inv in H as ([] & w3 & H3 & H).
  exists w2, w3. split; [exact H2|]. split; [exact H3|].
  destruct (parent zoomedElement); unfold modify, ret in H; inversion H; subst;
    simpl; split; try reflexivity; unfold same_columns; simpl; auto.
Qed.

(** After the pass every node has the flags and the leaf count that
    [_computeLeaves] gave it. *)
Lemma layoutPass_counts (w w' : World) :
  layoutPass w = Ok tt w' ->
  forall j, keeps_counts (_computeLeaves (root model) (heap w) j) (heap w' j).
Proof.
  intros H j. destruct (@layoutPass_stages w w' H) as (w2 & w3 & H2 & H3 & Hh & _).
  pose proof (computeColumns_kept (with_heap (_computeLeaves (root model) (heap w)) w))
    as Hk2.
  rewrite H2 in Hk2. simpl in Hk2.
  pose proof (_computeNormalizedPositions_keeps (root model) 0 false None w2) as Hk3.
  rewrite H3 in Hk3. simpl in Hk3.
  rewrite Hh. apply keeps_counts_trans with (heap w2 j).
  - apply (proj1 Hk2 j).
  - destruct (proj1 (proj1 Hk3) j) as (Ha & Hb & _). split; assumption.
Qed.

(** *** From the nodes [_computeLeaves] enters to the nodes that are
    placed *)

Lemma Visited_snoc (h : Heap) (top p c : OmTreeNode) (icz icz_p : bool)
    (emp emp_p : option OmTreeNode) :
  Visited h top icz emp p icz_p emp_p ->
  In c (children p) -> entered h c = true ->
  Visited h top icz emp c (zoomedNow icz_p p) (nextEmp h p (zoomedNow icz_p p) emp_p).
Proof.
  induction 1 as [top icz emp|top icz emp c0 n icz_n emp_n Hc0 He0 _ IH];
    intros Hc He.
  - eapply Visited_below; [exact Hc | exact He | constructor].
  - eapply Visited_below; [exact Hc0 | exact He0 | now apply IH].
Qed.

Lemma Reached_same_flags (h h' : Heap) (top n : OmTreeNode) :
  same_flags h h' -> Reached h top n -> Reached h' top n.
Proof.
  intros H. induction 1 as [|p c _ IH Hs He Hc]; [constructor|].
  apply Reached_child with p; try assumption.
  - unfold shown, draw_hidden, draw_filtered in *. now rewrite H.
  - unfold expanded, draw_minimized in *. now rewrite H.
Qed.

(** A visible leaf, as [isVisibleLeaf] reports it, has no children or is
    minimized. *)
Definition leaf_means_collapsed : Prop :=
  forall n f, isVisibleLeaf n f = true -> hasChildren n = false \/ minimized f = true.

Lemma nextEmp_expanded (h : Heap) (p : OmTreeNode) (icz : bool) :
  leaf_means_collapsed -> expanded h p = true -> nextEmp h p icz None = None.
Proof.
  intros HL He. unfold nextEmp.
  destruct (isVisibleLeaf p (node_flags h p)) eqn:E;
    [|now rewrite andb_false_r].
  apply HL in E. unfold expanded, draw_minimized, node_flags in *.
  apply andb_prop in He as [H1 H2]. apply negb_true_iff in H2.
  destruct E; congruence.
Qed.

Lemma expanded_entered (h : Heap) (p : OmTreeNode) :
  expanded h p = true -> entered h p = true.
Proof.
  unfold expanded, entered. intros H. apply andb_prop in H as [_ H].
  rewrite H. apply orb_true_r.
Qed.

Lemma Reached_Visited (h : Heap) (top n : OmTreeNode) :
  leaf_means_collapsed ->
  Reached h top n -> entered h n = true ->
  exists icz_n, Visited h top false None n icz_n None.
Proof.
  intros HL. induction 1 as [|p c _ IH Hs He Hc]; intros Hent.
  - exists false. constructor.
  - destruct (IH (expanded_entered h p He)) as [icz_p Hp].
    exists (zoomedNow icz_p p).
    pose proof (@Visited_snoc h top p c false icz_p None None Hp Hc Hent) as Hv.
    now rewrite (nextEmp_expanded h p (zoomedNow icz_p p) HL He) in Hv.
Qed.

Lemma placeNode_visible_throws (node : OmTreeNode) (leafCounter : Z)
    (emp : option OmTreeNode) (w : World) :
  isVisible node (node_flags (heap w) node) = true ->
  index (cols w) (depth (workNode node emp)) = None ->
  returns (placeNode node leafCounter emp w) = false.
Proof.
  intros Hvis Hcol.
  unfold placeNode, on_dims, on_node, bind, get, modify, defined, ret.
  simpl. rewrite upd_flags_preserveDims, Hvis. simpl.
  fold (workNode node emp). rewrite Hcol. reflexivity.
Qed.

Lemma workNode_nextEmp_None (h : Heap) (n : OmTreeNode) (icz : bool) :
  workNode n (nextEmp h n icz None) = n.
Proof. unfold nextEmp. destruct (_ && _ && _); reflexivity. Qed.

(** C6 (as amended): after a full layout pass, a node that
    [_computeLeaves] enters and that is shown but not expanded (a
    minimized subtree root, whatever the number of leaves below it, or a
    true leaf), that the position traversal enters and that is visible,
    counts one leaf and has the normalized height 1 / totalLeaves, where
    totalLeaves is the leaf count of the root: a minimized subtree has
    the height of a single leaf. *)
Theorem collapsed_node_height (w w' : World) (m : OmTreeNode) :
  NoDup (subtree_ids (root model)) ->
  leaf_means_collapsed ->
  layoutPass w = Ok tt w' ->
  Reached (heap w') (root model) m ->
  shown (heap w') m = true ->
  expanded (heap w') m = false ->
  entered (heap w') m = true ->
  isVisible m (node_flags (heap w') m) = true ->
  draw_numLeaves (heap w') m = 1 /\
  dims_height (draw_dims (heap w') m) =
    ndiv (of_int 1) (of_int (draw_numLeaves (heap w') (root model))).
Proof.
  intros Hnd HL Hpass Hreach Hshown Hexp Hent Hvis.
  pose proof (layoutPass_counts w Hpass) as Hcounts.
  remember (_computeLeaves (root model) (heap w)) as hL eqn:EhL.
  assert (HflL : same_flags (heap w') hL).
  { intros j. symmetry. apply (proj1 (Hcounts j)). }
  assert (Hone : draw_numLeaves (heap w') m = 1).
  { unfold draw_numLeaves. rewrite (proj2 (Hcounts (node_id m))).
    pose proof (Reached_same_flags HflL Hreach) as HreachL.
    rewrite EhL in *.
    apply (@entered_leaf_counts_one (heap w) m Hnd HreachL).
    - unfold shown, draw_hidden, draw_filtered in *. now rewrite HflL.
    - unfold expanded, draw_minimized in *. now rewrite HflL. }
  split; [exact Hone|].
  destruct (layoutPass_stages w Hpass) as (w2 & w3 & H2 & H3 & Hh & _).
  pose proof (computeColumns_kept
                (with_heap (_computeLeaves (root model) (heap w)) w)) as Hk2.
  rewrite H2 in Hk2. simpl in Hk2. rewrite <- EhL in Hk2.
  assert (Hc2 : forall j, keeps_counts (heap w' j) (heap w2 j)).
  { intros j. destruct (proj1 Hk2 j) as [Ha Hb]. destruct (Hcounts j) as [Hc Hd].
    simpl in Ha, Hb. split; congruence. }
  destruct (Reached_Visited HL Hreach Hent) as [icz_n Hvisit].
  destruct (positions_visit Hvisit 0 w2 (fun j => proj1 (Hc2 j)) Hnd H3)
    as (lc_n & w_n & w_n' & Hrel & Hplace & Hfinal).
  assert (Hcn : forall j, keeps_counts (heap w' j) (heap w_n j)).
  { intros j. destruct (proj1 (proj1 Hrel) j) as (Ha & Hb & _).
    destruct (Hc2 j) as [Hc Hd]. split; congruence. }
  set (e := nextEmp (heap w') m (zoomedNow icz_n m) None) in *.
  assert (Hwork : workNode m e = m) by apply workNode_nextEmp_None.
  assert (Hvis_n : isVisible m (node_flags (heap w_n) m) = true).
  { unfold node_flags in *. now rewrite (proj1 (Hcn (node_id m))). }
  destruct (index (cols w_n) (depth (workNode m e))) as [col|] eqn:Hcol.
  - destruct (@placeNode_visible m lc_n e w_n col Hvis_n Hcol)
      as (w'' & Hrun & _ & _ & _ & Hheight).
    rewrite Hrun in Hplace. inversion Hplace; subst w''.
    unfold draw_dims. rewrite Hh, Hfinal, Hheight, Hwork.
    unfold draw_numLeaves.
    rewrite (proj2 (Hcn (node_id m))), (proj2 (Hcn (node_id (root model)))).
    rewrite <- Hh. fold (draw_numLeaves (heap w') m). now rewrite Hone.
  - pose proof (@placeNode_visible_throws m lc_n e w_n Hvis_n Hcol) as Hthrow.
    rewrite Hplace in Hthrow. discriminate.
Qed.

(** ** Two runs of the same method *)

(** [sim Rpre Rpost Q mX mY]: from states related by [Rpre], whenever
    [mX] returns, [mY] returns too, with values related by [Q] and
    states related by [Rpost]. *)
Definition sim {S A B : Type} (Rpre Rpost : S -> S -> Prop) (Q : A -> B -> Prop)
    (mX : M S A) (mY : M S B) : Prop :=
  forall wX wY a x,
    Rpre wX wY -> mX wX = Ok a x ->
    exists b y, mY wY = Ok b y /\ Q a b /\ Rpost x y.

Lemma sim_ret {S A B : Type} (R : S -> S -> Prop) (Q : A -> B -> Prop) (a : A) (b : B) :
  Q a b -> sim R R Q (ret a) (ret b).
Proof.
  intros HQ wX wY a' x HR H. unfold ret in *. inversion H; subst.
  do 2 eexists. split; [reflexivity|]. split; auto.
Qed.

Lemma sim_bind {S A A' B B' : Type} (R1 R2 R3 : S -> S -> Prop)
    (Q : A -> A' -> Prop) (Q' : B -> B' -> Prop)
    (mX : M S A) (mY : M S A') (kX : A -> M S B) (kY : A' -> M S B') :
  sim R1 R2 Q mX mY ->
  (forall a a', Q a a' -> sim R2 R3 Q' (kX a) (kY a')) ->
  sim R1 R3 Q' (bind mX kX) (bind mY kY).
Proof.
  intros Hm Hk wX wY b x HR H.
  apply bind_Ok_inv in H as (a & x1 & H1 & H2).
  destruct (Hm wX wY a x1 HR H1) as (a' & y1 & G1 & GQ & GR).
  destruct (Hk a a' GQ x1 y1 b x GR H2) as (b' & y & G2 & GQ' & GR').
  exists b', y. split; [|auto]. unfold bind. now rewrite G1.
Qed.

Lemma sim_get {S A B : Type} (R : S -> S -> Prop) (Q : A -> B -> Prop)
    (f : S -> A) (g : S -> B) :
  (forall x y, R x y -> Q (f x) (g y)) -> sim R R Q (get f) (get g).
Proof.
  intros HQ wX wY a x HR H. unfold get in *. inversion H; subst.
  do 2 eexists. split; [reflexivity|]. split; auto.
Qed.

Lemma sim_modify {S : Type} (R R' : S -> S -> Prop) (f g : S -> S) :
  (forall x y, R x y -> R' (f x) (g y)) -> sim R R' eq (modify f) (modify g).
Proof.
  intros HR' wX wY a x HR H. unfold modify in *. inversion H; subst.
  do 2 eexists. split; [reflexivity|]. split; auto.
Qed.

Lemma sim_defined {S A : Type} (R : S -> S -> Prop) (o : option A) :
  sim R R eq (@defined S A o) (defined o).
Proof.
  intros wX wY a x HR H. destruct o; simpl in *; [|discriminate].
  unfold ret in *. inversion H; subst.
  do 2 eexists. split; [reflexivity|]. split; auto.
Qed.

Lemma sim_throw {S A B : Type} (R R' : S -> S -> Prop) (Q : A -> B -> Prop)
    (e : Error) (mY : M S B) :
  sim R R' Q (throw e) mY.
Proof. intros wX wY a x HR H. discriminate. Qed.

Lemma sim_weaken {S A B : Type} (R1 R1' R2 R2' : S -> S -> Prop)
    (Q Q' : A -> B -> Prop) (mX : M S A) (mY : M S B) :
  (forall x y, R1' x y -> R1 x y) -> (forall x y, R2 x y -> R2' x y) ->
  (forall a b, Q a b -> Q' a b) ->
  sim R1 R2 Q mX mY -> sim R1' R2' Q' mX mY.
Proof.
  intros H1 H2 HQ Hs wX wY a x HR H.
  destruct (Hs wX wY a x (H1 _ _ HR) H) as (b & y & G & GQ & GR). eauto 8.
Qed.

Lemma forEach_sim (R : World -> World -> Prop) (f g : OmTreeNode -> M World unit)
    (cs : list OmTreeNode) :
  Forall (fun c => sim R R eq (f c) (g c)) cs ->
  sim R R eq (forEach f cs) (forEach g cs).
Proof.
  induction 1 as [|c cs Hc _ IH]; simpl.
  - now apply sim_ret.
  - eapply sim_bind; [exact Hc | intros _ _ _; exact IH].
Qed.

(** Written to the same value in both runs, or written in neither. *)
Definition written_or_kept {A : Type} (aX aY a0X a0Y : A) : Prop :=
  aX = aY \/ (aX = a0X /\ aY = a0Y).

(** *** Text widths in two runs *)

Definition text_rel (hX0 hY0 : Heap) (wX wY : World) : Prop :=
  same_flags (heap wX) (heap wY) /\
  textRenderer wX = textRenderer wY /\
  forall j, written_or_kept (nameWidthPx (heap wX j)) (nameWidthPx (heap wY j))
                            (nameWidthPx (hX0 j)) (nameWidthPx (hY0 j)).

Lemma _getTextWidth_sim (hX0 hY0 : Heap) (text : string) :
  sim (text_rel hX0 hY0) (text_rel hX0 hY0) eq (_getTextWidth text) (_getTextWidth text).
Proof.
  unfold _getTextWidth.
  eapply sim_bind with (Q := eq).
  { apply sim_get. intros x y (_ & H & _). exact H. }
  intros r r' <-.
  eapply sim_bind; [apply sim_defined|]. intros cache cache' <-.
  destruct (cache_lookup text cache).
  - now apply sim_ret.
  - eapply sim_bind with (Q := eq); [|intros _ _ _; now apply sim_ret].
    apply sim_modify. intros x y (H1 & H2 & H3). repeat split; assumption.
Qed.

Lemma text_rel_write (hX0 hY0 : Heap) (node : OmTreeNode) (v : num) (x y : World) :
  text_rel hX0 hY0 x y ->
  text_rel hX0 hY0
    (with_heap (upd (heap x) (node_id node) (set_nameWidthPx v)) x)
    (with_heap (upd (heap y) (node_id node) (set_nameWidthPx v)) y).
Proof.
  intros (H1 & H2 & H3). split; [|split; [exact H2|]]; simpl.
  - intros j. rewrite !upd_flags by reflexivity. apply H1.
  - intros j. unfold upd. destruct (Nat.eqb j (node_id node)).
    + left. reflexivity.
    + apply H3.
Qed.

Lemma _updateTextWidths_sim (hX0 hY0 : Heap) (node : OmTreeNode) :
  sim (text_rel hX0 hY0) (text_rel hX0 hY0) eq
      (_updateTextWidths node) (_updateTextWidths node).
Proof.
  induction node as [node IH] using OmTreeNode_ind'.
  rewrite _updateTextWidths_eq.
  eapply sim_bind with (Q := same_flags).
  { apply sim_get. intros x y (H & _). exact H. }
  intros h h' Hfl.
  assert (Hhid : draw_hidden h' node = draw_hidden h node).
  { unfold draw_hidden. now rewrite Hfl. }
  rewrite Hhid. destruct (draw_hidden h node); [now apply sim_ret|].
  eapply sim_bind; [apply _getTextWidth_sim|]. intros tw tw' <-.
  eapply sim_bind with (Q := eq).
  { apply sim_modify. intros x y. apply text_rel_write. }
  intros _ _ _.
  eapply sim_bind with (Q := same_flags).
  { apply sim_get. intros x y (H & _). exact H. }
  intros h1 h1' Hfl1.
  assert (Hmin : draw_minimized h1' node = draw_minimized h1 node).
  { unfold draw_minimized. now rewrite Hfl1. }
  rewrite Hmin. destruct (hasChildren node && negb (draw_minimized h1 node));
    [|now apply sim_ret].
  apply (@forEach_sim _ _updateTextWidths _updateTextWidths). exact IH.
Qed.

(** *** Column widths in two runs *)

(** The two heaps agree on what the column stage reads. *)
Definition same_measures (h h' : Heap) : Prop :=
  forall j, flags (h' j) = flags (h j) /\ numLeaves (h' j) = numLeaves (h j) /\
            nameWidthPx (h' j) = nameWidthPx (h j).

Definition opacity_rel (hX0 hY0 : Heap) (wX wY : World) : Prop :=
  same_measures (heap wX) (heap wY) /\
  forall j, written_or_kept (textOpacity (heap wX j)) (textOpacity (heap wY j))
                            (textOpacity (hX0 j)) (textOpacity (hY0 j)).

(** The relation between the two runs along the column stage; the
    booleans say which fields of the layout object have been assigned in
    both runs, and so agree. *)
Definition col_rel (gd lf cl tw : bool) (hX0 hY0 : Heap) (wX wY : World) : Prop :=
  opacity_rel hX0 hY0 wX wY /\
  (gd = true -> greatestDepth wX = greatestDepth wY) /\
  (lf = true -> leafWidthsPx wX = leafWidthsPx wY) /\
  (cl = true -> cols wX = cols wY) /\
  (tw = true -> treeWidth wX = treeWidth wY).

(** A step that assigns fields of the layout object. *)
Ltac col_rel_step :=
  apply sim_modify;
  let x := fresh "x" in let y := fresh "y" in
  let Ho := fresh "Ho" in let Hg := fresh "Hg" in let Hl := fresh "Hl" in
  let Hc := fresh "Hc" in let Ht := fresh "Ht" in
  intros x y (Ho & Hg & Hl & Hc & Ht);
  repeat split; simpl; intros;
  try (apply Ho); try discriminate;
  try (first [rewrite Hg by assumption | rewrite Hl by assumption
             | rewrite Hc by assumption | rewrite Ht by assumption]);
  try reflexivity; auto.

Lemma col_rel_write (gd lf cl tw : bool) (hX0 hY0 : Heap) (node : OmTreeNode)
    (p p' c : option num) (x y : World) :
  col_rel gd lf cl tw hX0 hY0 x y ->
  col_rel gd lf cl tw hX0 hY0
    (with_heap (upd (heap x) (node_id node) (set_opacities p c)) x)
    (with_heap (upd (heap y) (node_id node) (set_opacities p' c)) y).
Proof.
  intros ((H1 & H2) & Hrest). split; [|exact Hrest]. split; simpl.
  - intros j. rewrite !upd_flags, !upd_numLeaves by reflexivity.
    destruct (H1 j) as (Ha & Hb & Hc). repeat split; try assumption.
    unfold upd. destruct (Nat.eqb j (node_id node)); simpl; [|assumption].
    apply (H1 (node_id node)).
  - intros j. unfold upd. destruct (Nat.eqb j (node_id node)).
    + left. reflexivity.
    + apply H2.
Qed.

Lemma _setColumnWidthsFromWidestText_sim (tw : bool) (hX0 hY0 : Heap)
    (node : OmTreeNode) :
  sim (col_rel true true true tw hX0 hY0) (col_rel true true true tw hX0 hY0) eq
      (_setColumnWidthsFromWidestText node) (_setColumnWidthsFromWidestText node).
Proof.
  induction node as [node IH] using OmTreeNode_ind'.
  rewrite _setColumnWidthsFromWidestText_eq. cbv zeta.
  eapply sim_bind with (Q := same_measures).
  { apply sim_get. intros x y ((H & _) & _). exact H. }
  intros h h' Hm.
  assert (Hhid : draw_hidden h' node = draw_hidden h node).
  { unfold draw_hidden. now rewrite (proj1 (Hm _)). }
  assert (Hnl : forall n, draw_numLeaves h' n = draw_numLeaves h n).
  { intros n. unfold draw_numLeaves. apply (Hm _). }
  rewrite Hhid, !Hnl. destruct (draw_hidden h node); [now apply sim_ret|].
  eapply sim_bind with (Q := eq).
  { apply sim_modify. intros x y. apply col_rel_write. }
  intros _ _ _.
  eapply sim_bind with (Q := same_measures).
  { apply sim_get. intros x y ((H & _) & _). exact H. }
  intros h1 h1' Hm1.
  assert (Hmin : draw_minimized h1' node = draw_minimized h1 node).
  { unfold draw_minimized. now rewrite (proj1 (Hm1 _)). }
  assert (Hfil : draw_filtered h1' node = draw_filtered h1 node).
  { unfold draw_filtered. now rewrite (proj1 (Hm1 _)). }
  rewrite Hmin, Hfil, (proj2 (proj2 (Hm1 (node_id node)))).
  eapply sim_bind with (R2 := col_rel true true true tw hX0 hY0) (Q := eq).
  { col_rel_step. }
  intros _ _ _.
  destruct (hasChildren node && negb (draw_minimized h1 node)).
  - eapply sim_bind with (Q := eq).
    { apply sim_get. intros x y (_ & _ & _ & H & _). now apply H. }
    intros colArr colArr' <-.
    eapply sim_bind; [apply sim_defined|]. intros col col' <-.
    eapply sim_bind with (R2 := col_rel true true true tw hX0 hY0) (Q := eq).
    { col_rel_step. }
    intros _ _ _.
    apply (@forEach_sim _ _setColumnWidthsFromWidestText
             _setColumnWidthsFromWidestText). exact IH.
  - destruct (negb (draw_filtered h1 node)); [|now apply sim_ret].
    eapply sim_bind with (Q := eq).
    { apply sim_get. intros x y (_ & _ & H & _). now apply H. }
    intros leafArr leafArr' <-.
    destruct (index leafArr (depth node)); [col_rel_step | apply sim_throw].
Qed.

(** *** Leaf counts in two runs *)

(** What [precollapse] makes of the flags of its node. *)
Definition precollapsed (node : OmTreeNode) (f : DrawFlags) : DrawFlags :=
  if (name node =? "_auto_ivc")%string && negb (manuallyExpanded f)
  then set_minimized true f
  else if (nodeIds_length model >? Precollapse_minimumNodes)
          && tooLarge node f (index (depthCount model) (depth node))
  then set_minimized true f
  else f.

Lemma precollapse_flags (node : OmTreeNode) (h : Heap) :
  flags (precollapse node h (node_id node)) = precollapsed node (flags (h (node_id node))) /\
  numLeaves (precollapse node h (node_id node)) = numLeaves (h (node_id node)).
Proof.
  unfold precollapse, precollapsed, minimizeIfLarge, minimize.
  destruct (_ && negb _); [rewrite upd_same; split; reflexivity|].
  destruct (_ >? _); simpl; [|split; reflexivity].
  destruct (tooLarge _ _ _); [rewrite upd_same|]; split; reflexivity.
Qed.

(** A second [precollapse] changes nothing: a minimized node stays
    minimized, and a node that passed the tests passes them again. *)
Lemma precollapsed_again (node : OmTreeNode) (f : DrawFlags) :
  precollapsed node (precollapsed node f) = precollapsed node f.
Proof.
  unfold precollapsed.
  destruct ((name node =? "_auto_ivc")%string && negb (manuallyExpanded f)) eqn:E1.
  - cbn [manuallyExpanded set_minimized]. rewrite E1. reflexivity.
  - destruct ((nodeIds_length model >? Precollapse_minimumNodes)
              && tooLarge node f (index (depthCount model) (depth node))) eqn:E2.
    + cbn [manuallyExpanded set_minimized]. rewrite E1.
      destruct (_ && tooLarge node (set_minimized true f) _); reflexivity.
    + rewrite E1, E2. reflexivity.
Qed.

Lemma precollapsed_shown (node : OmTreeNode) (f : DrawFlags) :
  hidden (precollapsed node f) = hidden f /\
  filtered (precollapsed node f) = filtered f.
Proof.
  unfold precollapsed. destruct (_ && negb _); [split; reflexivity|].
  destruct (_ && tooLarge _ _ _); split; reflexivity.
Qed.

Lemma frame_of_children (cs : list OmTreeNode) :
  Forall (fun c => forall h j, ~ In j (subtree_ids c) -> _computeLeaves c h j = h j) cs.
Proof. apply Forall_forall. intros c _. apply _computeLeaves_frame. Qed.

Lemma leavesLoop_again (node : OmTreeNode) (cs : list OmTreeNode) :
  Forall (fun c => forall hX hY,
            NoDup (subtree_ids c) ->
            (forall j, In j (subtree_ids c) ->
                       keeps_counts (_computeLeaves c hX j) (hY j)) ->
            forall j, In j (subtree_ids c) ->
                      keeps_counts (_computeLeaves c hX j) (_computeLeaves c hY j)) cs ->
  NoDup (flat_map subtree_ids cs) ->
  ~ In (node_id node) (flat_map subtree_ids cs) ->
  forall hX hY,
    (forall j, In j (flat_map subtree_ids cs) ->
               keeps_counts (leavesLoop node cs hX j) (hY j)) ->
    forall j, In j (flat_map subtree_ids cs) ->
              keeps_counts (leavesLoop node cs hX j) (leavesLoop node cs hY j).
Proof.
  induction 1 as [|c cs Hc _ IH]; intros Hnd Hnin hX hY H j Hj; [contradiction|].
  simpl in Hnd, Hnin, Hj, H |- *. rewrite in_app_iff in Hnin.
  assert (Hhead : forall h i, In i (subtree_ids c) ->
            leavesLoop node cs
              (upd (_computeLeaves c h) (node_id node)
                 (fun s => set_numLeaves
                             (numLeaves s + draw_numLeaves (_computeLeaves c h) c) s)) i
            = _computeLeaves c h i).
  { intros h i Hi.
    assert (Hne : i <> node_id node) by (intros ->; ptauto).
    rewrite leavesLoop_frame; [now apply upd_other| apply frame_of_children
                              | assumption|].
    exact (NoDup_app_disjoint _ _ Hnd i Hi). }
  apply in_app_or in Hj. destruct Hj as [Hj|Hj].
  - rewrite !Hhead by assumption.
    apply Hc; [eapply NoDup_app_remove_r; eassumption| |assumption].
    intros i Hi. rewrite <- (Hhead hX i Hi). apply H. apply in_or_app. now left.
  - apply IH; [eapply NoDup_app_remove_l; eassumption|ptauto| |assumption].
    intros i Hi.
    assert (Hne : i <> node_id node) by (intros ->; ptauto).
    rewrite upd_other by assumption.
    rewrite _computeLeaves_frame.
    + apply H. apply in_or_app. now right.
    + intros Hi'. exact (NoDup_app_disjoint _ _ Hnd i Hi' Hi).
Qed.

Lemma Zsum_alike (h h' : Heap) (cs : list OmTreeNode) :
  (forall j, In j (flat_map subtree_ids cs) -> keeps_counts (h j) (h' j)) ->
  Zsum (map (draw_numLeaves h') cs) = Zsum (map (draw_numLeaves h) cs).
Proof.
  induction cs as [|c cs IH]; simpl; intros H; [reflexivity|].
  rewrite IH by (intros j Hj; apply H, in_or_app; now right).
  unfold draw_numLeaves at 1 3.
  rewrite (proj2 (H (node_id c) (in_or_app _ _ _ (or_introl (node_id_in_subtree c))))).
  reflexivity.
Qed.

Lemma leavesLoop_node (node : OmTreeNode) (cs : list OmTreeNode) (h : Heap) :
  NoDup (flat_map subtree_ids cs) ->
  ~ In (node_id node) (flat_map subtree_ids cs) ->
  numLeaves (leavesLoop node cs h (node_id node)) =
    numLeaves (h (node_id node)) + Zsum (map (draw_numLeaves (leavesLoop node cs h)) cs) /\
  flags (leavesLoop node cs h (node_id node)) = flags (h (node_id node)).
Proof.
  intros Hnd Hnin. apply leavesLoop_ok; try assumption.
  apply Forall_forall. intros c _ h' Hc. now apply _computeLeaves_ok.
Qed.

(** *** [_computeLeaves] run again

    On a heap that has the flags and the leaf counts that a run of
    [_computeLeaves] left, a second run leaves the same flags and leaf
    counts. *)
Lemma _computeLeaves_again (node : OmTreeNode) :
  forall hX hY,
    NoDup (subtree_ids node) ->
    (forall j, In j (subtree_ids node) ->
               keeps_counts (_computeLeaves node hX j) (hY j)) ->
    forall j, In j (subtree_ids node) ->
              keeps_counts (_computeLeaves node hX j) (_computeLeaves node hY j).
Proof.
  induction node as [node IH] using OmTreeNode_ind'.
  intros hX hY Hnd H.
  pose proof (H (node_id node) (node_id_in_subtree node)) as Hid.
  revert H Hid. rewrite subtree_ids_eq in Hnd |- *.
  inversion Hnd as [|? ? Hnin Hcs]; subst.
  rewrite !(_computeLeaves_eq node). cbv zeta.
  unfold draw_hidden, draw_filtered, draw_minimized. rewrite !upd_same.
  change (flags (set_numLeaves 0 (hX (node_id node)))) with (flags (hX (node_id node))).
  change (flags (set_numLeaves 0 (hY (node_id node)))) with (flags (hY (node_id node))).
  set (hX1 := upd hX (node_id node) (set_numLeaves 0)).
  set (hY1 := upd hY (node_id node) (set_numLeaves 0)).
  assert (EX1 : flags (hX1 (node_id node)) = flags (hX (node_id node))).
  { unfold hX1. now rewrite upd_same. }
  assert (EY1 : flags (hY1 (node_id node)) = flags (hY (node_id node))).
  { unfold hY1. now rewrite upd_same. }
  assert (NX1 : numLeaves (hX1 (node_id node)) = 0).
  { unfold hX1. now rewrite upd_same. }
  assert (NY1 : numLeaves (hY1 (node_id node)) = 0).
  { unfold hY1. now rewrite upd_same. }
  assert (Hother : forall (h : Heap) j, In j (flat_map subtree_ids (children node)) ->
            precollapse node (upd h (node_id node) (set_numLeaves 0)) j = h j).
  { intros h j Hj. assert (j <> node_id node) by (intros ->; contradiction).
    rewrite precollapse_other by assumption. now apply upd_other. }
  destruct (precollapse_flags node hX1) as (FX & NX).
  destruct (precollapse_flags node hY1) as (FY & NY).
  rewrite EX1 in FX. rewrite EY1 in FY. rewrite NX1 in NX. rewrite NY1 in NY.
  destruct (precollapsed_shown node (flags (hX (node_id node)))) as (SH & SF).
  destruct (negb (hidden (flags (hX (node_id node))) ||
                  filtered (flags (hX (node_id node))))) eqn:EshownX.
  - (* shown in the first run *)
    rewrite FX.
    destruct (hasChildren node &&
              negb (minimized (precollapsed node (flags (hX (node_id node)))))) eqn:EexpX.
    + (* expanded *)
      destruct (leavesLoop_node node (children node) (precollapse node hX1) Hcs Hnin)
        as (NLX & FLX).
      intros H (Hf & Hn). rewrite FLX, FX in Hf.
      rewrite Hf, SH, SF, EshownX, FY, Hf, precollapsed_again, EexpX.
      destruct (leavesLoop_node node (children node) (precollapse node hY1) Hcs Hnin)
        as (NLY & FLY).
      assert (Hbelow : forall j, In j (flat_map subtree_ids (children node)) ->
                keeps_counts (leavesLoop node (children node) (precollapse node hX1) j)
                              (leavesLoop node (children node) (precollapse node hY1) j)).
      { apply leavesLoop_again; try assumption.
        intros j Hj. unfold hY1. rewrite Hother by assumption.
        apply H. now right. }
      intros j [<-|Hj]; [|now apply Hbelow].
      split.
      * rewrite FLY, FLX, FY, FX, Hf. apply precollapsed_again.
      * rewrite NLY, NLX, NY, NX. f_equal. now apply Zsum_alike.
    + (* a leaf or a minimized node *)
      rewrite !upd_same. unfold keeps_counts at 2.
      cbn [flags numLeaves set_numLeaves]. rewrite FX.
      intros H (Hf & Hn).
      rewrite Hf, SH, SF, EshownX, FY, Hf, precollapsed_again, EexpX.
      intros j [<-|Hj].
      * rewrite !upd_same. split; simpl; [|reflexivity].
        rewrite FY, FX, Hf. apply precollapsed_again.
      * assert (j <> node_id node) by (intros ->; contradiction).
        rewrite !upd_other by assumption. unfold hY1.
        rewrite Hother by assumption.
        specialize (H j (or_intror Hj)).
        rewrite upd_other in H by assumption. exact H.
  - (* hidden or filtered *)
    intros H (Hf & Hn). rewrite EX1 in Hf. rewrite Hf, EshownX.
    intros j [<-|Hj].
    + unfold hX1, hY1. rewrite !upd_same. split; simpl; [assumption|reflexivity].
    + assert (j <> node_id node) by (intros ->; contradiction).
      unfold hY1. rewrite upd_other by assumption.
      apply H. now right.
Qed.

(** Reading a field of the layout object that the two runs agree on. *)
Ltac sim_get_eq :=
  apply sim_get; intros ? ? (_ & ? & ? & ? & ?); auto.

Lemma lastColumnLoop_sim (tw : bool) (hX0 hY0 : Heap) (fuel : nat) :
  forall i sum lastColumnWidth,
    sim (col_rel true true true tw hX0 hY0) (col_rel true true true tw hX0 hY0) eq
        (lastColumnLoop fuel i sum lastColumnWidth)
        (lastColumnLoop fuel i sum lastColumnWidth).
Proof.
  induction fuel as [|fuel IH]; intros i sum lcw; simpl; [now apply sim_ret|].
  destruct (i >=? depth zoomedElement); [|now apply sim_ret].
  eapply sim_bind with (Q := eq); [sim_get_eq|]. intros colArr ? <-.
  eapply sim_bind; [apply sim_defined|]. intros col ? <-.
  eapply sim_bind with (Q := eq); [sim_get_eq|]. intros leafArr ? <-.
  apply IH.
Qed.

Lemma assign_col_width_sim (gd lf tw : bool) (hX0 hY0 : Heap) (i : Z) (v : num) :
  sim (col_rel gd lf true tw hX0 hY0) (col_rel gd lf true tw hX0 hY0) eq
      (assign_col_width i v) (assign_col_width i v).
Proof.
  unfold assign_col_width.
  eapply sim_bind with (Q := eq); [sim_get_eq|]. intros colArr ? <-.
  eapply sim_bind; [apply sim_defined|]. intros col ? <-.
  col_rel_step.
Qed.

Lemma widestColumns_sim (tw : bool) (hX0 hY0 : Heap) :
  sim (col_rel false false false tw hX0 hY0) (col_rel true true true tw hX0 hY0) eq
      widestColumns widestColumns.
Proof.
  unfold widestColumns.
  eapply sim_bind with (R2 := col_rel true false false tw hX0 hY0) (Q := eq);
    [col_rel_step|]. intros _ _ _.
  eapply sim_bind with (R2 := col_rel true false false tw hX0 hY0) (Q := eq).
  { destruct (_ <? 0); [apply sim_throw | now apply sim_ret]. }
  intros _ _ _.
  eapply sim_bind with (R2 := col_rel true true false tw hX0 hY0) (Q := eq);
    [col_rel_step|]. intros _ _ _.
  eapply sim_bind with (R2 := col_rel true true true tw hX0 hY0) (Q := eq);
    [col_rel_step|]. intros _ _ _.
  eapply sim_bind; [apply _setColumnWidthsFromWidestText_sim|]. intros _ _ _.
  eapply sim_bind with (Q := eq); [sim_get_eq|]. intros leafArr ? <-.
  apply lastColumnLoop_sim.
Qed.

Lemma _computeColumnWidths_sim (tw : bool) (hX0 hY0 : Heap) :
  sim (col_rel false false false tw hX0 hY0) (col_rel true true true tw hX0 hY0) eq
      _computeColumnWidths _computeColumnWidths.
Proof.
  unfold _computeColumnWidths, adjustEnds.
  eapply sim_bind; [apply widestColumns_sim|]. intros lastColumnWidth ? <-.
  eapply sim_bind; [apply assign_col_width_sim|]. intros _ _ _.
  eapply sim_bind with (Q := eq); [sim_get_eq|]. intros gd ? <-.
  apply assign_col_width_sim.
Qed.

Lemma columnLocationLoop_sim (hX0 hY0 : Heap) (depths : list nat) :
  sim (col_rel true true true true hX0 hY0) (col_rel true true true true hX0 hY0) eq
      (columnLocationLoop depths) (columnLocationLoop depths).
Proof.
  induction depths as [|d depths IH]; simpl; [now apply sim_ret|].
  eapply sim_bind with (Q := eq); [sim_get_eq|]. intros colArr ? <-.
  eapply sim_bind; [apply sim_defined|]. intros col ? <-.
  eapply sim_bind with (Q := eq); [sim_get_eq|]. intros width ? <-.
  eapply sim_bind with (R2 := col_rel true true true true hX0 hY0) (Q := eq);
    [col_rel_step|]. intros _ _ _.
  eapply sim_bind with (R2 := col_rel true true true true hX0 hY0) (Q := eq);
    [col_rel_step|]. intros _ _ _.
  exact IH.
Qed.

Lemma _setColumnLocations_sim (tw : bool) (hX0 hY0 : Heap) :
  sim (col_rel true true true tw hX0 hY0) (col_rel true true true true hX0 hY0) eq
      _setColumnLocations _setColumnLocations.
Proof.
  unfold _setColumnLocations.
  eapply sim_bind with (R2 := col_rel true true true true hX0 hY0) (Q := eq);
    [col_rel_step|]. intros _ _ _.
  apply columnLocationLoop_sim.
Qed.

(** *** Positions in two runs *)

(** Every parent component is one of the nodes above: [anc] holds the
    identities of the ancestors of [node]. *)
Fixpoint pcs_above (anc : list nat) (node : OmTreeNode) {struct node} : Prop :=
  (forall pc, parentComponent node = Some pc -> In (ref_id pc) anc) /\
  (fix all (cs : list OmTreeNode) {struct cs} : Prop :=
     match cs with
     | [] => True
     | c :: cs' => pcs_above (node_id node :: anc) c /\ all cs'
     end) (children node).

Lemma pcs_above_eq (anc : list nat) (node : OmTreeNode) :
  pcs_above anc node <->
  (forall pc, parentComponent node = Some pc -> In (ref_id pc) anc) /\
  Forall (pcs_above (node_id node :: anc)) (children node).
Proof.
  destruct node as [id nm ap pn d io fl p pc cs]. simpl.
  assert (H : forall l,
             (fix all (cs : list OmTreeNode) : Prop :=
                match cs with
                | [] => True
                | c :: cs' => pcs_above (id :: anc) c /\ all cs'
                end) l <-> Forall (pcs_above (id :: anc)) l).
  { induction l as [|c l IH]; simpl.
    - split; [constructor | trivial].
    - split.
      + intros [H1 H2]. constructor; [assumption | now apply IH].
      + intros H. inversion H; subst. split; [assumption | now apply IH]. }
  rewrite H. reflexivity.
Qed.

(** The relation between the two runs along the position traversal: the
    columns and the counts agree, the dims of the nodes above agree, and
    the dims of any node agree once the node is placed. *)
Definition pos_rel (anc : list nat) (hX0 hY0 : Heap) (wX wY : World) : Prop :=
  cols wX = cols wY /\ treeWidth wX = treeWidth wY /\
  (forall j, keeps_counts (heap wX j) (heap wY j)) /\
  (forall j, In j anc -> dims (heap wX j) = dims (heap wY j)) /\
  (forall j, written_or_kept (dims (heap wX j)) (dims (heap wY j))
                             (dims (hX0 j)) (dims (hY0 j))).

Lemma pos_rel_heap (anc : list nat) (hX0 hY0 : Heap) :
  sim (pos_rel anc hX0 hY0) (pos_rel anc hX0 hY0)
      (fun h h' => forall j, keeps_counts (h j) (h' j)) (get heap) (get heap).
Proof. apply sim_get. intros x y (_ & _ & H & _). exact H. Qed.

Lemma enterNode_sim (anc : list nat) (hX0 hY0 : Heap) (node : OmTreeNode)
    (icz : bool) (emp : option OmTreeNode) :
  sim (pos_rel anc hX0 hY0) (pos_rel anc hX0 hY0)
      (fun a a' => a = a' /\ forall e, a = Some e -> emp = Some e \/ e = node)
      (enterNode node icz emp) (enterNode node icz emp).
Proof.
  intros wX wY a x HR H.
  destruct (enterNode_spec node icz emp wX) as (x' & Hx & HhX & HcX & _ & _ & HtX).
  destruct (enterNode_spec node icz emp wY) as (y & Hy & HhY & HcY & _ & _ & HtY).
  rewrite Hx in H. inversion H; subst a x'; clear H.
  exists (nextEmp (heap wY) node icz emp), y. split; [exact Hy|].
  destruct HR as (Hc & Ht & Hk & Ha & Hw). split; [split|].
  - unfold nextEmp, node_flags. now rewrite (proj1 (Hk (node_id node))).
  - intros e. unfold nextEmp. destruct emp as [e0|]; [now left|].
    destruct (_ && _ && _); [|discriminate]. intros He. inversion He. now right.
  - unfold pos_rel. rewrite HhX, HhY, HcX, HcY, HtX, HtY. repeat split; auto;
      apply Hk.
Qed.

Lemma dims_eta (d d' : Dimensions) :
  dims_x d = dims_x d' -> dims_y d = dims_y d' ->
  dims_width d = dims_width d' -> dims_height d = dims_height d' -> d = d'.
Proof. destruct d, d'; simpl; congruence. Qed.

(** Inside [placeNode]: the node being placed is [i], and [P] says what
    is known of its dims in the two runs. *)
Definition pos_mid (anc : list nat) (i : nat) (P : Dimensions -> Dimensions -> Prop)
    (hX0 hY0 : Heap) (wX wY : World) : Prop :=
  cols wX = cols wY /\ treeWidth wX = treeWidth wY /\
  (forall j, keeps_counts (heap wX j) (heap wY j)) /\
  (forall j, In j anc -> dims (heap wX j) = dims (heap wY j)) /\
  P (dims (heap wX i)) (dims (heap wY i)) /\
  (forall j, j <> i -> written_or_kept (dims (heap wX j)) (dims (heap wY j))
                                       (dims (hX0 j)) (dims (hY0 j))).

(** What the two heaps agree on inside [placeNode]. *)
Definition mid_heaps (anc : list nat) (i : nat) (P : Dimensions -> Dimensions -> Prop)
    (h h' : Heap) : Prop :=
  (forall j, keeps_counts (h j) (h' j)) /\
  (forall j, In j anc -> dims (h j) = dims (h' j)) /\
  P (dims (h i)) (dims (h' i)).

Lemma pos_mid_heap (anc : list nat) (i : nat) (P : Dimensions -> Dimensions -> Prop)
    (hX0 hY0 : Heap) :
  sim (pos_mid anc i P hX0 hY0) (pos_mid anc i P hX0 hY0) (mid_heaps anc i P)
      (get heap) (get heap).
Proof.
  apply sim_get. intros x y (_ & _ & Hk & Ha & HP & _). repeat split; auto; apply Hk.
Qed.

Lemma pos_mid_cols (anc : list nat) (i : nat) (P : Dimensions -> Dimensions -> Prop)
    (hX0 hY0 : Heap) :
  sim (pos_mid anc i P hX0 hY0) (pos_mid anc i P hX0 hY0) eq (get cols) (get cols).
Proof. apply sim_get. intros x y (H & _). exact H. Qed.

Lemma pos_mid_treeWidth (anc : list nat) (i : nat)
    (P : Dimensions -> Dimensions -> Prop) (hX0 hY0 : Heap) :
  sim (pos_mid anc i P hX0 hY0) (pos_mid anc i P hX0 hY0) eq
      (get treeWidth) (get treeWidth).
Proof. apply sim_get. intros x y (_ & H & _). exact H. Qed.

(** One write to the dims of the node being placed, the same in the two
    runs. *)
Lemma on_dims_sim (anc : list nat) (P P' : Dimensions -> Dimensions -> Prop)
    (hX0 hY0 : Heap) (node : OmTreeNode) (f : Dimensions -> Dimensions) :
  (forall d d', P d d' -> P' (f d) (f d')) ->
  sim (pos_mid anc (node_id node) P hX0 hY0) (pos_mid anc (node_id node) P' hX0 hY0) eq
      (on_dims node f) (on_dims node f).
Proof.
  intros HP. unfold on_dims, on_node. apply sim_modify.
  intros x y (Hc & Ht & Hk & Ha & Hp & Hw). unfold pos_mid. simpl.
  split; [assumption|]. split; [assumption|]. split; [|split; [|split]].
  - intros j. split.
    + rewrite !upd_flags by (intros; reflexivity). apply Hk.
    + rewrite !upd_numLeaves by (intros; reflexivity). apply Hk.
  - intros j Hj. destruct (Nat.eq_dec j (node_id node)) as [->|Hne].
    + rewrite !upd_same. simpl. now rewrite (Ha _ Hj).
    + rewrite !upd_other by assumption. now apply Ha.
  - rewrite !upd_same. simpl. now apply HP.
  - intros j Hne. rewrite !upd_other by assumption. now apply Hw.
Qed.

Lemma preserveDims_sim (anc : list nat) (P : Dimensions -> Dimensions -> Prop)
    (hX0 hY0 : Heap) (node : OmTreeNode) :
  sim (pos_mid anc (node_id node) P hX0 hY0) (pos_mid anc (node_id node) P hX0 hY0) eq
      (on_node node preserveDims) (on_node node preserveDims).
Proof.
  unfold on_node. apply sim_modify.
  intros x y (Hc & Ht & Hk & Ha & Hp & Hw). unfold pos_mid. simpl.
  assert (Hd : forall (h : Heap) j,
             dims (upd h (node_id node) preserveDims j) = dims (h j)).
  { intros h j. unfold upd. destruct (Nat.eqb j (node_id node)) eqn:E;
      [apply Nat.eqb_eq in E; subst|]; reflexivity. }
  split; [assumption|]. split; [assumption|]. split; [|split; [|split]].
  - intros j. split.
    + rewrite !upd_flags by (intros; reflexivity). apply Hk.
    + rewrite !upd_numLeaves by (intros; reflexivity). apply Hk.
  - intros j Hj. rewrite !Hd. now apply Ha.
  - now rewrite !Hd.
  - intros j Hne. rewrite !Hd. now apply Hw.
Qed.

(** What is known of the dims of the node as the fields are written. *)
Definition same_x (d d' : Dimensions) : Prop := dims_x d = dims_x d'.
Definition same_xy (d d' : Dimensions) : Prop :=
  dims_x d = dims_x d' /\ dims_y d = dims_y d'.
Definition same_xyw (d d' : Dimensions) : Prop :=
  dims_x d = dims_x d' /\ dims_y d = dims_y d' /\ dims_width d = dims_width d'.

Lemma set_x_sim (anc : list nat) (hX0 hY0 : Heap) (node : OmTreeNode) (v : num) :
  sim (pos_mid anc (node_id node) (fun _ _ => True) hX0 hY0)
      (pos_mid anc (node_id node) same_x hX0 hY0) eq
      (on_dims node (set_x v)) (on_dims node (set_x v)).
Proof. apply on_dims_sim. intros d d' _. reflexivity. Qed.

Lemma set_y_sim (anc : list nat) (hX0 hY0 : Heap) (node : OmTreeNode) (v : num) :
  sim (pos_mid anc (node_id node) same_x hX0 hY0)
      (pos_mid anc (node_id node) same_xy hX0 hY0) eq
      (on_dims node (set_y v)) (on_dims node (set_y v)).
Proof. apply on_dims_sim. intros d d' H. split; [exact H | reflexivity]. Qed.

Lemma set_width_sim (anc : list nat) (hX0 hY0 : Heap) (node : OmTreeNode) (v : num) :
  sim (pos_mid anc (node_id node) same_xy hX0 hY0)
      (pos_mid anc (node_id node) same_xyw hX0 hY0) eq
      (on_dims node (set_width v)) (on_dims node (set_width v)).
Proof.
  apply on_dims_sim. intros d d' [Hx Hy]. repeat split; simpl; assumption.
Qed.

Lemma set_height_sim (anc : list nat) (hX0 hY0 : Heap) (node : OmTreeNode) (v : num) :
  sim (pos_mid anc (node_id node) same_xyw hX0 hY0)
      (pos_mid anc (node_id node) eq hX0 hY0) eq
      (on_dims node (set_height v)) (on_dims node (set_height v)).
Proof.
  apply on_dims_sim. intros d d' (Hx & Hy & Hw). now apply dims_eta.
Qed.

(** [placeNode] writes the same dims in the two runs: what it reads is
    the columns, the counts, and the dims of a node above or of the node
    itself, after its x is set. *)
Lemma placeNode_sim (anc : list nat) (hX0 hY0 : Heap) (node : OmTreeNode)
    (leafCounter : Z) (emp : option OmTreeNode) :
  (forall pc, parentComponent node = Some pc -> In (ref_id pc) anc) ->
  (forall e, emp = Some e -> In (node_id e) anc \/ node_id e = node_id node) ->
  sim (pos_rel anc hX0 hY0) (pos_rel (node_id node :: anc) hX0 hY0) eq
      (placeNode node leafCounter emp) (placeNode node leafCounter emp).
Proof.
  intros Hpc Hemp.
  assert (Hwork : In (node_id (workNode node emp)) anc \/
                  node_id (workNode node emp) = node_id node).
  { destruct emp as [e|]; simpl; [now apply Hemp | now right]. }
  apply sim_weaken with
    (R1 := pos_mid anc (node_id node) (fun _ _ => True) hX0 hY0)
    (R2 := pos_mid anc (node_id node) eq hX0 hY0) (Q := eq);
    [| |auto|].
  { intros x y (Hc & Ht & Hk & Ha & Hw). repeat split; auto; apply Hk. }
  { intros x y (Hc & Ht & Hk & Ha & Hp & Hw). unfold pos_rel.
    split; [assumption|]. split; [assumption|]. split; [assumption|]. split.
    - intros j [<-|Hj]; [assumption | now apply Ha].
    - intros j. destruct (Nat.eq_dec j (node_id node)) as [->|Hne];
        [now left | now apply Hw]. }
  unfold placeNode. fold (workNode node emp).
  eapply sim_bind; [apply preserveDims_sim|]. intros _ _ _.
  eapply sim_bind; [apply pos_mid_heap|]. intros h h' (Hk & _).
  eapply sim_bind; [apply pos_mid_cols|]. intros colArr ? <-.
  eapply sim_bind; [apply pos_mid_treeWidth|]. intros treeW ? <-.
  unfold node_flags. rewrite (proj1 (Hk (node_id node))).
  destruct (negb (isVisible node (flags (h (node_id node))))).
  - (* not visible *)
    destruct (parentComponent node) as [pc|] eqn:Epc; unfold defined at 1 3.
    + eapply sim_bind with (Q := fun a a' => a = pc /\ a' = pc);
        [now apply sim_ret|]. intros ? ? [-> ->].
      eapply sim_bind; [apply sim_defined|]. intros col ? <-.
      eapply sim_bind; [apply set_x_sim|]. intros _ _ _.
      eapply sim_bind; [apply pos_mid_heap|]. intros h1 h1' (_ & Ha1 & _).
      rewrite (Ha1 _ (Hpc pc eq_refl)).
      eapply sim_bind; [apply set_y_sim|]. intros _ _ _.
      eapply sim_bind; [apply set_width_sim|]. intros _ _ _.
      apply set_height_sim.
    + eapply sim_bind with (R2 := pos_mid anc (node_id node) eq hX0 hY0)
                           (Q := fun _ _ => False);
        [apply sim_throw | intros ? ? []].
  - (* visible *)
    eapply sim_bind; [apply sim_defined|]. intros col ? <-.
    eapply sim_bind; [apply set_x_sim|]. intros _ _ _.
    eapply sim_bind; [apply pos_mid_heap|]. intros h1 h1' (Hk1 & _ & _).
    unfold draw_numLeaves. rewrite (proj2 (Hk1 (node_id (root model)))).
    eapply sim_bind; [apply set_y_sim|]. intros _ _ _.
    eapply sim_bind; [apply pos_mid_heap|]. intros h2 h2' (Hk2 & Ha2 & Hx2 & _).
    unfold draw_minimized, draw_filtered, draw_dims.
    rewrite (proj1 (Hk2 (node_id node))).
    assert (Hx : dims_x (dims (h2' (node_id (workNode node emp)))) =
                 dims_x (dims (h2 (node_id (workNode node emp))))).
    { destruct Hwork as [Hin|Heq].
      - now rewrite (Ha2 _ Hin).
      - rewrite Heq. symmetry. exact Hx2. }
    rewrite Hx.
    eapply sim_bind; [apply set_width_sim|]. intros _ _ _.
    eapply sim_bind; [apply pos_mid_heap|]. intros h3 h3' (Hk3 & _).
    rewrite (proj2 (Hk3 (node_id (workNode node emp)))),
            (proj2 (Hk3 (node_id (root model)))).
    apply set_height_sim.
Qed.

Lemma positionsLoop_sim (anc : list nat) (hX0 hY0 : Heap) (icz : bool)
    (emp : option OmTreeNode) (cs : list OmTreeNode) :
  Forall (fun c => forall lc,
            sim (pos_rel anc hX0 hY0) (pos_rel anc hX0 hY0) eq
                (_computeNormalizedPositions c lc icz emp)
                (_computeNormalizedPositions c lc icz emp)) cs ->
  forall lc,
    sim (pos_rel anc hX0 hY0) (pos_rel anc hX0 hY0) eq
        (positionsLoop icz emp cs lc) (positionsLoop icz emp cs lc).
Proof.
  induction 1 as [|c cs Hc _ IH]; intros lc; simpl; [now apply sim_ret|].
  eapply sim_bind; [apply pos_rel_heap|]. intros h h' Hk.
  unfold draw_minimized. rewrite (proj1 (Hk (node_id c))).
  destruct (negb (isInputOrOutput c) || negb (minimized (flags (h (node_id c)))));
    [|apply IH].
  eapply sim_bind; [apply Hc|]. intros _ _ _.
  eapply sim_bind; [apply pos_rel_heap|]. intros h1 h1' Hk1.
  unfold draw_numLeaves. rewrite (proj2 (Hk1 (node_id c))). apply IH.
Qed.

(** The position traversal writes the same dims in the two runs, when
    the parent component of every node is one of its ancestors. *)
Lemma _computeNormalizedPositions_sim (hX0 hY0 : Heap) (node : OmTreeNode) :
  forall anc lc icz emp,
    pcs_above anc node ->
    (forall e, emp = Some e -> In (node_id e) anc) ->
    sim (pos_rel anc hX0 hY0) (pos_rel anc hX0 hY0) eq
        (_computeNormalizedPositions node lc icz emp)
        (_computeNormalizedPositions node lc icz emp).
Proof.
  induction node as [node IH] using OmTreeNode_ind'.
  intros anc lc icz emp Hpcs Hemp.
  apply pcs_above_eq in Hpcs. destruct Hpcs as [Hpc Hcs].
  rewrite _computeNormalizedPositions_eq. cbv zeta.
  eapply sim_bind; [apply enterNode_sim|]. intros emp' ? [<- Hemp'].
  assert (Hin : forall e, emp' = Some e -> In (node_id e) (node_id node :: anc)).
  { intros e He. destruct (Hemp' e He) as [H| ->]; [right; now apply Hemp | now left]. }
  apply sim_weaken with (R1 := pos_rel anc hX0 hY0)
                        (R2 := pos_rel (node_id node :: anc) hX0 hY0) (Q := eq);
    [auto| |auto|].
  { intros x y (Hc & Ht & Hk & Ha & Hw). repeat split; auto; try apply Hk.
    intros j Hj. apply Ha. now right. }
  eapply sim_bind.
  { apply placeNode_sim; [exact Hpc|].
    intros e He. destruct (Hemp' e He) as [H| ->]; [left; now apply Hemp | now right]. }
  intros _ _ _.
  destruct (hasChildren node); [|now apply sim_ret].
  apply positionsLoop_sim.
  rewrite Forall_forall in IH, Hcs |- *.
  intros c Hc lc'. apply IH; auto.
Qed.

(** *** The pass run twice *)

(** The column stage on two worlds whose nodes count alike, the second
    of which already has the text widths that the first run ends with. *)
Lemma computeColumns_twice (wL wC wL' : World) :
  computeColumns wL = Ok tt wC ->
  (forall j, keeps_counts (heap wL j) (heap wL' j)) ->
  (forall j, nameWidthPx (heap wL' j) = nameWidthPx (heap wC j)) ->
  exists wC',
    computeColumns wL' = Ok tt wC' /\
    cols wC = cols wC' /\ treeWidth wC = treeWidth wC' /\
    (forall j, keeps_counts (heap wC j) (heap wC' j)) /\
    (forall j, nameWidthPx (heap wC' j) = nameWidthPx (heap wC j)) /\
    (forall j, dims (heap wC' j) = dims (heap wL' j)).
Proof.
  intros H Hk Hnw. unfold computeColumns in H.
  apply bind_Ok_inv in H as ([] & wR & HR & H).
  unfold _setupTextRenderer, modify in HR. inversion HR; subst wR; clear HR.
  apply bind_Ok_inv in H as ([] & wT & HT & H).
  apply bind_Ok_inv in H as ([] & wT2 & HT2 & H).
  unfold modify in HT2. inversion HT2; subst wT2; clear HT2.
  apply bind_Ok_inv in H as ([] & wW & HW & HC).
  (* what the first run keeps *)
  pose proof (_updateTextWidths_kept zoomedElement (with_textRenderer (Some []) wL))
    as KT.
  rewrite HT in KT. destruct KT as [KT _]. simpl in KT.
  pose proof (_computeColumnWidths_kept (with_textRenderer None wT)) as KW.
  rewrite HW in KW. destruct KW as [KW _]. simpl in KW.
  pose proof (_setColumnLocations_same_heap wW) as KC.
  rewrite HC in KC. unfold same_heap in KC. simpl in KC.
  (* the text widths of the second run *)
  destruct (@_updateTextWidths_sim (heap wL) (heap wL') zoomedElement
              (with_textRenderer (Some []) wL) (with_textRenderer (Some []) wL')
              tt wT) as ([] & wT' & HT' & _ & Hf & _ & Hw); [|exact HT|].
  { split; [|split]; simpl.
    - intros j. apply Hk.
    - reflexivity.
    - intros j. right. split; reflexivity. }
  pose proof (_updateTextWidths_kept zoomedElement (with_textRenderer (Some []) wL'))
    as KT'.
  rewrite HT' in KT'. destruct KT' as [KT' _]. simpl in KT'.
  assert (Hm : same_measures (heap wT) (heap wT')).
  { intros j. split; [apply Hf|]. split.
    - destruct (KT j) as (_ & Ha & _). destruct (KT' j) as (_ & Hb & _).
      rewrite Ha, Hb. apply Hk.
    - destruct (Hw j) as [E|[_ E]]; [now symmetry|].
      rewrite E, Hnw, KC. apply (KW j). }
  (* the columns of the second run *)
  destruct (@_computeColumnWidths_sim false (heap wT) (heap wT')
              (with_textRenderer None wT) (with_textRenderer None wT') tt wW)
    as ([] & wW' & HW' & _ & HrelW); [|exact HW|].
  { split; [split|]; simpl; [exact Hm| |repeat split; discriminate].
    intros j. right. split; reflexivity. }
  destruct (@_setColumnLocations_sim false (heap wT) (heap wT') wW wW' tt wC HrelW HC)
    as ([] & wC' & HC' & _ & (Hm' & _) & _ & _ & Hc & Ht).
  pose proof (_computeColumnWidths_kept (with_textRenderer None wT')) as KW'.
  rewrite HW' in KW'. destruct KW' as [KW' _]. simpl in KW'.
  pose proof (_setColumnLocations_same_heap wW') as KC'.
  rewrite HC' in KC'. unfold same_heap in KC'. simpl in KC'.
  exists wC'. split; [|split; [|split; [|split; [|split]]]].
  - unfold computeColumns, _setupTextRenderer.
    erewrite bind_Ok by reflexivity.
    erewrite bind_Ok by exact HT'.
    erewrite bind_Ok by reflexivity.
    erewrite bind_Ok by exact HW'.
    exact HC'.
  - now apply Hc.
  - now apply Ht.
  - intros j. destruct (Hm' j) as (Ha & Hb & _). split; assumption.
  - intros j. apply (Hm' j).
  - intros j. rewrite KC'.
    destruct (KW' j) as (_ & _ & _ & Ha & _). rewrite Ha.
    destruct (KT' j) as (_ & _ & Hb & _). exact Hb.
Qed.

(** The position stage on two worlds with the same columns, whose nodes
    count alike. *)
Lemma computePositions_twice (wC wP wC' : World) :
  pcs_above [] (root model) ->
  computePositions wC = Ok tt wP ->
  cols wC = cols wC' -> treeWidth wC = treeWidth wC' ->
  (forall j, keeps_counts (heap wC j) (heap wC' j)) ->
  exists wP',
    computePositions wC' = Ok tt wP' /\
    cols wP' = cols wC' /\ treeWidth wP' = treeWidth wC' /\
    (forall j, keeps_counts (heap wP j) (heap wP' j)) /\
    (forall j, written_or_kept (dims (heap wP j)) (dims (heap wP' j))
                               (dims (heap wC j)) (dims (heap wC' j))).
Proof.
  intros Hpcs H Hc Ht Hk. unfold computePositions in H.
  apply bind_Ok_inv in H as ([] & w3 & H3 & H).
  assert (Hnone : forall e, @None OmTreeNode = Some e -> In (node_id e) [])
    by discriminate.
  destruct (@_computeNormalizedPositions_sim (heap wC) (heap wC') (root model)
              [] 0 false None Hpcs Hnone wC wC' tt w3)
    as ([] & w3' & H3' & _ & Hc3 & Ht3 & Hk3 & _ & Hw3); [|exact H3|].
  { repeat split; auto; try apply Hk; try contradiction.
    intros j. right. split; reflexivity. }
  pose proof (_computeNormalizedPositions_keeps (root model) 0 false None wC') as KP'.
  rewrite H3' in KP'. destruct KP' as [_ (Hc' & _ & _ & Ht')]. simpl in Hc', Ht'.
  assert (Hh : heap wP = heap w3).
  { destruct (parent zoomedElement); unfold modify, ret in H; inversion H; reflexivity. }
  unfold computePositions. erewrite bind_Ok by exact H3'.
  destruct (parent zoomedElement); unfold modify, ret;
    (eexists; split; [reflexivity|]); simpl; rewrite Hh; repeat split; auto;
    apply Hk3.
Qed.

(** C8: when the parent component of every node is one of its
    ancestors, a layout pass ([computeLeaves], [computeColumns],
    [computePositions]) that returns can be run again on the nodes it
    left, the model and the zoomed element being the same, whatever the
    other fields of the layout object are: the second pass returns too,
    and leaves every node with the same flags, the same leaf count, the
    same text width and the same dims, and the layout with the same
    columns (widths and locations) and the same tree width. *)
Theorem layoutPass_twice (w w1 wB : World) :
  NoDup (subtree_ids (root model)) ->
  pcs_above [] (root model) ->
  layoutPass w = Ok tt w1 ->
  heap wB = heap w1 ->
  exists w2,
    layoutPass wB = Ok tt w2 /\
    (forall j, flags (heap w2 j) = flags (heap w1 j) /\
               numLeaves (heap w2 j) = numLeaves (heap w1 j) /\
               nameWidthPx (heap w2 j) = nameWidthPx (heap w1 j) /\
               dims (heap w2 j) = dims (heap w1 j)) /\
    cols w2 = cols w1 /\ treeWidth w2 = treeWidth w1.
Proof.
  intros Hnd Hpcs H HB.
  pose proof (@layoutPass_counts w w1 H) as Hcounts.
  unfold layoutPass, computeLeaves in H.
  apply bind_Ok_inv in H as ([] & wL & HL & H).
  unfold modify in HL. inversion HL; subst wL; clear HL.
  apply bind_Ok_inv in H as ([] & wC & HC & HP).
  set (wL := with_heap (_computeLeaves (root model) (heap w)) w) in *.
  set (wL' := with_heap (_computeLeaves (root model) (heap wB)) wB).
  (* what the position stage of the first pass keeps *)
  assert (KP : forall j, keeps_but_dims (heap wC j) (heap w1 j) /\
                         cols w1 = cols wC /\ treeWidth w1 = treeWidth wC).
  { unfold computePositions in HP.
    apply bind_Ok_inv in HP as ([] & w3 & H3 & HP).
    pose proof (_computeNormalizedPositions_keeps (root model) 0 false None wC) as K.
    rewrite H3 in K. destruct K as [[K _] (Hc & _ & _ & Ht)]. simpl in K, Hc, Ht.
    intros j.
    destruct (parent zoomedElement); unfold modify, ret in HP; inversion HP; subst;
      simpl; auto. }
  (* the leaf counts of the second pass *)
  assert (HkL : forall j, keeps_counts (heap wL j) (heap wL' j)).
  { intros j. unfold wL, wL'. simpl. rewrite HB.
    destruct (in_dec Nat.eq_dec j (subtree_ids (root model))) as [Hin|Hnin].
    - apply _computeLeaves_again; [assumption| |assumption].
      intros i _. apply Hcounts.
    - rewrite (_computeLeaves_frame (root model) (heap w1)) by assumption.
      apply Hcounts. }
  assert (HkeepL' : forall j, keeps_but_leaves (heap w1 j) (heap wL' j)).
  { intros j. unfold wL'. simpl. rewrite HB. apply _computeLeaves_keeps. }
  (* the columns of the second pass *)
  destruct (@computeColumns_twice wL wC wL' HC HkL) as
    (wC' & HC' & Hcols & Htw & HkC & HnwC & HdC).
  { intros j. destruct (HkeepL' j) as (_ & _ & _ & Ha & _). rewrite Ha.
    destruct (KP j) as ((_ & _ & Hb & _) & _). exact Hb. }
  (* the positions of the second pass *)
  destruct (@computePositions_twice wC w1 wC' Hpcs HP Hcols Htw HkC) as
    (w2 & HP' & Hcols' & Htw' & HkP & HdP).
  exists w2. split; [|split; [|split]].
  - unfold layoutPass, computeLeaves.
    erewrite bind_Ok by reflexivity. fold wL'.
    erewrite bind_Ok by exact HC'. exact HP'.
  - intros j. destruct (HkP j) as [Hf Hn].
    split; [exact Hf|]. split; [exact Hn|]. split.
    + assert (KP' : keeps_but_dims (heap wC' j) (heap w2 j)).
      { clear - HP'. unfold computePositions in HP'.
        apply bind_Ok_inv in HP' as ([] & w3 & H3 & HP').
        pose proof (_computeNormalizedPositions_keeps (root model) 0 false None wC')
          as K.
        rewrite H3 in K. destruct K as [[K _] _]. simpl in K.
        destruct (parent zoomedElement); unfold modify, ret in HP'; inversion HP';
          subst; simpl; apply K. }
      destruct KP' as (_ & _ & Ha & _). rewrite Ha, HnwC.
      destruct (KP j) as ((_ & _ & Hb & _) & _). now rewrite Hb.
    + destruct (HdP j) as [E|[E1 E2]]; [now symmetry|].
      rewrite E2, HdC. destruct (HkeepL' j) as (_ & _ & _ & _ & Ha & _).
      exact Ha.
  - rewrite Hcols', <- Hcols. symmetry. apply (KP 0%nat).
  - rewrite Htw', <- Htw. symmetry. apply (KP 0%nat).
Qed.

(** ** Further properties of [setTransitionPermission] *)

(** The prototype is consistent with its flag: where transitions are
    denied the three methods return the selection itself, and where they
    are allowed every method that has an original has it back. *)
Definition d3_consistent (d3 : D3Selection) : Prop :=
  (transitionAllowed d3 = false -> forall m, method d3 m = returnThis) /\
  (transitionAllowed d3 = true ->
   forall m, In m originalFuncs -> method d3 m = original).

Lemma set_method_same (m : Method) (i : Impl) (f : Method -> Impl) :
  set_method m i f m = i.
Proof. destruct m; reflexivity. Qed.

Lemma set_method_original (m m' : Method) (f : Method -> Impl) :
  f m' = original -> set_method m original f m' = original.
Proof. destruct m, m'; simpl; auto. Qed.

Lemma restore_original (ms : list Method) :
  forall f m, In m ms \/ f m = original ->
    fold_left (fun g m0 => set_method m0 original g) ms f m = original.
Proof.
  induction ms as [|m0 ms IH]; intros f m H; simpl.
  - destruct H as [[]|H]. exact H.
  - apply IH. destruct H as [[->|H]|H].
    + right. apply set_method_same.
    + now left.
    + right. now apply set_method_original.
Qed.

(** X1: after two calls the permission depends on the two counts alone,
    whatever the state was before: transitions are allowed exactly when
    the larger of the two counts is below [maxNodes].  A pass with few
    visible nodes that follows a pass with too many is still denied its
    transitions. *)
Theorem setTransitionPermission_two_calls (len1 len2 : Z) (t : Transitions) :
  transitionAllowed
    (d3_selection (setTransitionPermission len2 (setTransitionPermission len1 t))) =
  (Z.max len1 len2 <? maxNodes).
Proof.
  unfold setTransitionPermission at 1. cbv zeta.
  change (visibleNodeCount (setTransitionPermission len1 t)) with (number len1).
  cbn [Math_max at_least].
  destruct (Z.max len1 len2 >=? maxNodes) eqn:E.
  - assert (Hlt : (Z.max len1 len2 <? maxNodes) = false).
    { apply Z.ltb_ge. apply Z.geb_le in E. lia. }
    rewrite Hlt.
    destruct (transitionAllowed (d3_selection (setTransitionPermission len1 t)))
      eqn:Ea; simpl; [reflexivity | exact Ea].
  - assert (Hlt : (Z.max len1 len2 <? maxNodes) = true).
    { apply Z.ltb_lt. rewrite Z.geb_leb in E. apply Z.leb_gt in E. lia. }
    rewrite Hlt.
    destruct (transitionAllowed (d3_selection (setTransitionPermission len1 t)))
      eqn:Ea; simpl; [exact Ea | reflexivity].
Qed.

(** X2: a call keeps the prototype consistent with its flag: if, before
    the call, denied transitions mean three replaced methods and allowed
    transitions mean restored originals, the same holds after it. *)
Theorem setTransitionPermission_consistent (len : Z) (t : Transitions) :
  d3_consistent (d3_selection t) ->
  d3_consistent (d3_selection (setTransitionPermission len t)).
Proof.
  intros Hc. unfold setTransitionPermission. cbv zeta. cbn [d3_selection].
  destruct (at_least _ maxNodes).
  - destruct (transitionAllowed (d3_selection t)); simpl; [|exact Hc].
    split; simpl; [|discriminate].
    intros _ m. destruct m; reflexivity.
  - destruct (transitionAllowed (d3_selection t)); simpl; [exact Hc|].
    split; simpl; [discriminate|].
    intros _ m Hm. apply restore_original. now left.
Qed.

(** X3: a call that leaves the permission as it was leaves the whole
    prototype as it was: the methods are assigned only when the
    permission flips. *)
Theorem setTransitionPermission_untouched (len : Z) (t : Transitions) :
  transitionAllowed (d3_selection (setTransitionPermission len t)) =
    transitionAllowed (d3_selection t) ->
  d3_selection (setTransitionPermission len t) = d3_selection t.
Proof.
  unfold setTransitionPermission. cbv zeta. cbn [d3_selection].
  destruct (at_least _ maxNodes);
    destruct (transitionAllowed (d3_selection t)) eqn:Ea; simpl;
    try reflexivity; discriminate.
Qed.

(** ** Further properties of the text widths *)


(** Every cached width is the rendered width of its text. *)
Definition cache_ok (c : WidthCache) : Prop :=
  forall t v, cache_lookup t c = Some v -> v = renderedWidth t.

Lemma _getTextWidth_rendered (text : string) (w : World) (c : WidthCache) :
  textRenderer w = Some c -> cache_ok c ->
  exists w' c',
    _getTextWidth text w = Ok (renderedWidth text) w' /\
    textRenderer w' = Some c' /\ cache_ok c' /\ heap w' = heap w.
Proof.
  intros Er Hc.
  unfold _getTextWidth, bind, get, defined, ret, modify. rewrite Er.
  destruct (cache_lookup text c) as [x|] eqn:El.
  - exists w, c. rewrite (Hc _ _ El). repeat split; assumption.
  - eexists. exists ((text, renderedWidth text) :: c).
    split; [reflexivity|]. simpl. repeat split.
    intros t v. simpl. destruct (String.eqb text t) eqn:E.
    + apply String.eqb_eq in E. subst t. congruence.
    + apply Hc.
Qed.

(** The nodes [_updateTextWidths] measures: the top node unless it is
    hidden, and the children, not hidden, of a measured node that has
    children and is not minimized. *)
Inductive Measured (h : Heap) (top : OmTreeNode) : OmTreeNode -> Prop :=
| Measured_top : draw_hidden h top = false -> Measured h top top
| Measured_child (p c : OmTreeNode) :
    Measured h top p -> expanded h p = true -> In c (children p) ->
    draw_hidden h c = false -> Measured h top c.

Lemma Measured_inv (h : Heap) (top n : OmTreeNode) :
  Measured h top n ->
  draw_hidden h top = false /\
  (n = top \/
   expanded h top = true /\ exists c, In c (children top) /\ Measured h c n).
Proof.
  induction 1 as [Hs|p c _ [Htop IH] He Hin Hc].
  - split; [assumption | now left].
  - split; [assumption|]. right. destruct IH as [->|(Het & c0 & Hin0 & Hm)].
    + split; [assumption|]. exists c. split; [assumption | now constructor].
    + split; [assumption|]. exists c0. split; [assumption|].
      eapply Measured_child; eassumption.
Qed.

Lemma Measured_in_subtree (h : Heap) (top : OmTreeNode) :
  forall n, Measured h top n -> In (node_id n) (subtree_ids top).
Proof.
  induction top as [top IH] using OmTreeNode_ind'.
  intros n Hn. apply Measured_inv in Hn.
  destruct Hn as [_ [->|(_ & c & Hin & Hm)]]; [apply node_id_in_subtree|].
  rewrite subtree_ids_eq. right.
  rewrite Forall_forall in IH.
  eapply subtree_ids_child; [exact Hin | now apply IH].
Qed.

Lemma Measured_same_flags (h h' : Heap) (top n : OmTreeNode) :
  same_flags h h' -> Measured h top n -> Measured h' top n.
Proof.
  intros Hf. induction 1 as [Hs|p c _ IH He Hin Hc].
  - constructor. unfold draw_hidden in *. now rewrite Hf.
  - eapply Measured_child; [exact IH | | exact Hin |].
    + unfold expanded, draw_minimized in *. now rewrite Hf.
    + unfold draw_hidden in *. now rewrite Hf.
Qed.

Lemma Measured_graft (h : Heap) (top c n : OmTreeNode) :
  Measured h top c -> Measured h c n -> Measured h top n.
Proof.
  intros Hc. induction 1 as [|p c' _ IH He Hin Hh]; [exact Hc|].
  eapply Measured_child; eassumption.
Qed.

(** The width [_updateTextWidths] assigns to a node. *)
Definition paddedWidth (n : OmTreeNode) : num :=
  nadd (renderedWidth (getText n)) (nmul (of_int 2) (rightTextMargin size)).

(** What a run of [_updateTextWidths] on [node] has done. *)
Definition TextDone (node : OmTreeNode) (w w' : World) : Prop :=
  (exists c', textRenderer w' = Some c' /\ cache_ok c') /\
  heap_rel keeps_but_width (subtree_ids node) (heap w) (heap w') /\
  forall n, Measured (heap w) node n -> nameWidthPx (heap w' (node_id n)) = paddedWidth n.

Lemma keeps_but_width_flags (ids : list nat) (h h' : Heap) :
  heap_rel keeps_but_width ids h h' -> same_flags h h'.
Proof. intros [H _] j. apply (H j). Qed.

Lemma forEach_TextDone (cs : list OmTreeNode) :
  Forall (fun c => forall w r,
            NoDup (subtree_ids c) -> textRenderer w = Some r -> cache_ok r ->
            exists w', _updateTextWidths c w = Ok tt w' /\ TextDone c w w') cs ->
  NoDup (flat_map subtree_ids cs) ->
  forall w r,
    textRenderer w = Some r -> cache_ok r ->
    exists w',
      forEach _updateTextWidths cs w = Ok tt w' /\
      (exists c', textRenderer w' = Some c' /\ cache_ok c') /\
      heap_rel keeps_but_width (flat_map subtree_ids cs) (heap w) (heap w') /\
      forall c n, In c cs -> Measured (heap w) c n ->
                  nameWidthPx (heap w' (node_id n)) = paddedWidth n.
Proof.
  induction 1 as [|c cs Hc _ IH]; intros Hnd w r Er Hr.
  - exists w. split; [reflexivity|]. split; [eauto|]. split.
    + apply (@heap_rel_refl _ keeps_but_width_refl).
    + intros ? ? [].
  - simpl in Hnd.
    destruct (Hc w r (NoDup_app_remove_r _ _ Hnd) Er Hr)
      as (w1 & H1 & (r1 & Er1 & Hr1) & Hk1 & Hm1).
    destruct (IH (NoDup_app_remove_l _ _ Hnd) w1 r1 Er1 Hr1)
      as (w2 & H2 & Hr2 & Hk2 & Hm2).
    exists w2. split.
    { change (forEach _updateTextWidths (c :: cs))
        with (_updateTextWidths c ;; forEach _updateTextWidths cs).
      erewrite bind_Ok by exact H1. exact H2. }
    split; [exact Hr2|]. split.
    + eapply (@heap_rel_trans _ keeps_but_width_trans).
      * eapply heap_rel_mono; [|exact Hk1]. apply incl_appl, incl_refl.
      * eapply heap_rel_mono; [|exact Hk2]. apply incl_appr, incl_refl.
    + intros c0 n [<-|Hin] Hn.
      * rewrite (proj2 Hk2).
        -- now apply Hm1.
        -- apply (NoDup_app_disjoint _ _ Hnd). eapply Measured_in_subtree, Hn.
      * apply (Hm2 c0 n Hin).
        eapply Measured_same_flags; [|exact Hn].
        eapply keeps_but_width_flags, Hk1.
Qed.

Lemma _updateTextWidths_done (node : OmTreeNode) :
  forall w r,
    NoDup (subtree_ids node) -> textRenderer w = Some r -> cache_ok r ->
    exists w', _updateTextWidths node w = Ok tt w' /\ TextDone node w w'.
Proof.
  induction node as [node IH] using OmTreeNode_ind'.
  intros w r Hnd Er Hr. rewrite _updateTextWidths_eq.
  rewrite subtree_ids_eq in Hnd. inversion Hnd as [|? ? Hnin Hcs]; subst.
  unfold bind at 1, get at 1.
  destruct (draw_hidden (heap w) node) eqn:Ehid.
  - exists w. split; [reflexivity|]. split; [eauto|]. split.
    + apply (@heap_rel_refl _ keeps_but_width_refl).
    + intros n Hn. apply Measured_inv in Hn. destruct Hn as [Hn _]. congruence.
  - destruct (@_getTextWidth_rendered (getText node) w r Er Hr)
      as (w1 & r1 & H1 & Er1 & Hr1 & Hh1).
    erewrite bind_Ok by exact H1.
    unfold on_node, modify, bind at 1. unfold bind at 1, get at 1. cbn [heap with_heap].
    fold (paddedWidth node). rewrite Hh1.
    set (w2 := with_heap (upd (heap w) (node_id node)
                            (set_nameWidthPx (paddedWidth node))) w1).
    assert (Hk2 : heap_rel keeps_but_width [node_id node] (heap w) (heap w2)).
    { unfold w2. cbn [heap with_heap].
      apply (@heap_rel_upd _ keeps_but_width_refl). intros s.
      apply set_nameWidthPx_keeps. }
    assert (Hmin : draw_minimized (upd (heap w) (node_id node)
                      (set_nameWidthPx (paddedWidth node))) node =
                   draw_minimized (heap w) node).
    { unfold draw_minimized. now rewrite upd_flags by (intros; reflexivity). }
    rewrite Hmin.
    assert (Hw2 : nameWidthPx (heap w2 (node_id node)) = paddedWidth node).
    { unfold w2. cbn [heap with_heap]. now rewrite upd_same. }
    destruct (hasChildren node && negb (draw_minimized (heap w) node)) eqn:Eexp.
    + destruct (@forEach_TextDone (children node) IH Hcs w2 r1 Er1 Hr1)
        as (w3 & H3 & Hr3 & Hk3 & Hm3).
      exists w3. split; [exact H3|]. split; [exact Hr3|]. split.
      * rewrite subtree_ids_eq.
        eapply (@heap_rel_trans _ keeps_but_width_trans).
        -- eapply heap_rel_mono; [|exact Hk2]. intros j [->|[]]. now left.
        -- eapply heap_rel_mono; [|exact Hk3]. apply incl_tl, incl_refl.
      * intros n Hn. apply Measured_inv in Hn.
        destruct Hn as [_ [->|(_ & c & Hin & Hm)]].
        -- rewrite (proj2 Hk3) by assumption. exact Hw2.
        -- apply (Hm3 c n Hin).
           eapply Measured_same_flags; [|exact Hm].
           eapply keeps_but_width_flags, Hk2.
    + exists w2. split; [reflexivity|]. split; [eauto|]. split.
      * rewrite subtree_ids_eq.
        eapply heap_rel_mono; [|exact Hk2]. intros j [->|[]]. now left.
      * intros n Hn. apply Measured_inv in Hn.
        destruct Hn as [_ [->|(He & _)]]; [exact Hw2|].
        unfold expanded in He. congruence.
Qed.

(** X5: with a new renderer, [_updateTextWidths] on the zoomed element
    returns, and every node it measures (the zoomed element unless
    hidden, and the children, not hidden, of a measured node that has
    children and is not minimized) gets the rendered width of its text
    plus twice the right margin: the cache never changes a width.  The
    flags, the leaf counts and the dims of every node are kept, and
    nothing outside the zoomed subtree is written. *)
Theorem updateTextWidths_rendered (w : World) :
  NoDup (subtree_ids zoomedElement) ->
  exists w',
    (_setupTextRenderer ;; _updateTextWidths zoomedElement) w = Ok tt w' /\
    (forall n, Measured (heap w) zoomedElement n ->
       nameWidthPx (heap w' (node_id n)) =
         nadd (renderedWidth (getText n)) (nmul (of_int 2) (rightTextMargin size))) /\
    (forall j, flags (heap w' j) = flags (heap w j) /\
               numLeaves (heap w' j) = numLeaves (heap w j) /\
               dims (heap w' j) = dims (heap w j)) /\
    (forall j, ~ In j (subtree_ids zoomedElement) -> heap w' j = heap w j).
Proof.
  intros Hnd.
  destruct (@_updateTextWidths_done zoomedElement (with_textRenderer (Some []) w) []
              Hnd eq_refl) as (w' & H & _ & [Hk Hout] & Hm).
  { intros t v Hl. discriminate. }
  exists w'. split; [exact H|]. split; [exact Hm|]. split; [|exact Hout].
  intros j. destruct (Hk j) as (Ha & Hb & Hc & _). repeat split; assumption.
Qed.

(** ** Further properties of [_computeLeaves] *)

(** The only change to the flags of a node: it may become minimized. *)
Definition only_minimizes (s s' : NodeState) : Prop :=
  flags s' = flags s \/ flags s' = set_minimized true (flags s).

Lemma only_minimizes_refl (s : NodeState) : only_minimizes s s.
Proof. now left. Qed.

Lemma only_minimizes_trans (s1 s2 s3 : NodeState) :
  only_minimizes s1 s2 -> only_minimizes s2 s3 -> only_minimizes s1 s3.
Proof.
  unfold only_minimizes. intros [H1|H1] [H2|H2]; rewrite H2, H1; auto.
Qed.

Lemma upd_numLeaves_only_minimizes (h : Heap) (i : nat) (f : NodeState -> Z) (j : nat) :
  only_minimizes (h j) (upd h i (fun s => set_numLeaves (f s) s) j).
Proof. left. now rewrite upd_flags by (intros; reflexivity). Qed.

Lemma precollapse_only_minimizes (node : OmTreeNode) (h : Heap) (j : nat) :
  only_minimizes (h j) (precollapse node h j).
Proof.
  destruct (Nat.eq_dec j (node_id node)) as [->|Hne].
  - unfold only_minimizes. rewrite (proj1 (precollapse_flags node h)).
    unfold precollapsed. destruct (_ && negb _); [now right|].
    destruct (_ && tooLarge _ _ _); [now right | now left].
  - rewrite precollapse_other by assumption. apply only_minimizes_refl.
Qed.

Lemma leavesLoop_only_minimizes (node : OmTreeNode) (cs : list OmTreeNode) :
  Forall (fun c => forall h j, only_minimizes (h j) (_computeLeaves c h j)) cs ->
  forall h j, only_minimizes (h j) (leavesLoop node cs h j).
Proof.
  induction 1 as [|c cs Hc _ IH]; intros h j; simpl.
  - apply only_minimizes_refl.
  - eapply only_minimizes_trans; [|apply IH].
    eapply only_minimizes_trans; [apply Hc|].
    apply (upd_numLeaves_only_minimizes (_computeLeaves c h) (node_id node)
             (fun s => numLeaves s + draw_numLeaves (_computeLeaves c h) c)).
Qed.

Lemma _computeLeaves_only_minimizes (node : OmTreeNode) :
  forall h j, only_minimizes (h j) (_computeLeaves node h j).
Proof.
  induction node as [node IH] using OmTreeNode_ind'.
  intros h j. rewrite _computeLeaves_eq. cbv zeta.
  pose proof (upd_numLeaves_only_minimizes h (node_id node) (fun _ => 0) j) as H0.
  destruct (negb _); [|exact H0].
  eapply only_minimizes_trans; [exact H0|].
  set (h1 := upd h (node_id node) (set_numLeaves 0)).
  pose proof (precollapse_only_minimizes node h1 j) as H1.
  destruct (_ && _).
  - eapply only_minimizes_trans; [exact H1|]. now apply leavesLoop_only_minimizes.
  - eapply only_minimizes_trans; [exact H1|].
    apply (upd_numLeaves_only_minimizes (precollapse node h1) (node_id node)
             (fun _ => 1)).
Qed.

(** X6: [_computeLeaves] on a node writes the leaf count and the
    [minimized] flag of nodes of its subtree, and nothing else: a node
    outside the subtree is left as it was; on every node the text width,
    the dims, the previous dims and the opacities are kept; and the
    flags are kept, except that [minimized] may be set.  A minimized
    node is never expanded. *)
Theorem computeLeaves_writes_only (node : OmTreeNode) (h : Heap) (j : nat) :
  (~ In j (subtree_ids node) -> _computeLeaves node h j = h j) /\
  nameWidthPx (_computeLeaves node h j) = nameWidthPx (h j) /\
  dims (_computeLeaves node h j) = dims (h j) /\
  prevDims (_computeLeaves node h j) = prevDims (h j) /\
  textOpacity (_computeLeaves node h j) = textOpacity (h j) /\
  prevTextOpacity (_computeLeaves node h j) = prevTextOpacity (h j) /\
  (flags (_computeLeaves node h j) = flags (h j) \/
   flags (_computeLeaves node h j) = set_minimized true (flags (h j))) /\
  (minimized (flags (h j)) = true ->
   minimized (flags (_computeLeaves node h j)) = true).
Proof.
  destruct (_computeLeaves_keeps node h j) as (_ & _ & _ & Ha & Hb & Hc & Hd & He).
  pose proof (_computeLeaves_only_minimizes node h j) as Hm.
  split; [apply _computeLeaves_frame|].
  split; [exact Ha|]. split; [exact Hb|]. split; [exact Hc|].
  split; [exact Hd|]. split; [exact He|]. split; [exact Hm|].
  intros Hmin. destruct Hm as [-> | ->]; [assumption | reflexivity].
Qed.

(** The number of leaves of a subtree is at least 1. *)
Lemma leafCount_eq (n : OmTreeNode) :
  leafCount n = if hasChildren n then Zsum (map leafCount (children n)) else 1.
Proof. destruct n as [? ? ? ? ? ? ? ? ? [|c cs]]; reflexivity. Qed.

Lemma leafCount_pos (n : OmTreeNode) : 1 <= leafCount n.
Proof.
  induction n as [n IH] using OmTreeNode_ind'.
  rewrite leafCount_eq. unfold hasChildren.
  destruct (children n) as [|c cs]; [lia|].
  inversion IH as [|? ? Hc Hcs]; subst. simpl.
  assert (H : 0 <= Zsum (map leafCount cs)).
  { clear - Hcs. induction Hcs as [|a l Ha _ IHl]; simpl; lia. }
  lia.
Qed.

Lemma LeavesOK_bounds (h0 h' : Heap) (n : OmTreeNode) :
  LeavesOK h0 h' n -> 0 <= draw_numLeaves h' n <= leafCount n.
Proof.
  induction n as [n IH] using OmTreeNode_ind'.
  pose proof (leafCount_pos n) as Hpos.
  intros Hok. inversion Hok as [? _ Hz _|? _ _ Hz _|? _ He Hz Hall]; subst;
    [lia | lia |].
  rewrite Hz, leafCount_eq.
  unfold expanded in He. apply andb_prop in He as [-> _].
  clear Hz Hok Hpos.
  induction (children n) as [|c cs IHcs]; simpl; [lia|].
  inversion IH; subst. inversion Hall; subst.
  assert (0 <= draw_numLeaves h' c <= leafCount c) by auto.
  assert (0 <= Zsum (map (draw_numLeaves h') cs) <= Zsum (map leafCount cs)) by auto.
  lia.
Qed.

(** X7: after [_computeLeaves] on the model root, the leaf count of
    every node the traversal enters lies between 0 and the number of
    leaves of the node's subtree. *)
Theorem computeLeaves_bounds (h : Heap) (n : OmTreeNode) :
  NoDup (subtree_ids (root model)) ->
  Reached (_computeLeaves (root model) h) (root model) n ->
  0 <= draw_numLeaves (_computeLeaves (root model) h) n <= leafCount n.
Proof.
  intros Hnd Hn. eapply LeavesOK_bounds.
  exact (Reached_LeavesOK (@_computeLeaves_ok (root model) h Hnd) Hn).
Qed.

(** The flags of a node that is shown in full. *)
Definition plain (f : DrawFlags) : Prop :=
  hidden f = false /\ filtered f = false /\ minimized f = false.

Lemma leavesLoop_plain (node : OmTreeNode) (cs : list OmTreeNode) :
  ~ In (node_id node) (flat_map subtree_ids cs) ->
  NoDup (flat_map subtree_ids cs) ->
  Forall (fun c => forall h,
            NoDup (subtree_ids c) ->
            (forall j, In j (subtree_ids c) -> plain (flags (h j))) ->
            (forall j, flags (_computeLeaves c h j) = flags (h j)) /\
            draw_numLeaves (_computeLeaves c h) c = leafCount c) cs ->
  forall h,
    (forall j, In j (flat_map subtree_ids cs) -> plain (flags (h j))) ->
    (forall j, flags (leavesLoop node cs h j) = flags (h j)) /\
    numLeaves (leavesLoop node cs h (node_id node)) =
      numLeaves (h (node_id node)) + Zsum (map leafCount cs).
Proof.
  intros Hnin Hnd H. revert Hnin Hnd.
  induction H as [|c cs Hc _ IH]; intros Hnin Hnd h Hp; simpl.
  - split; [reflexivity | lia].
  - simpl in Hnin, Hnd. rewrite in_app_iff in Hnin.
    destruct (Hc h (NoDup_app_remove_r _ _ Hnd)) as [Hf Hn].
    { intros j Hj. apply Hp. apply in_or_app. now left. }
    set (h1 := upd (_computeLeaves c h) (node_id node)
                 (fun s => set_numLeaves
                             (numLeaves s + draw_numLeaves (_computeLeaves c h) c) s)).
    assert (Hf1 : forall j, flags (h1 j) = flags (h j)).
    { intros j. unfold h1. rewrite upd_flags by (intros; reflexivity). apply Hf. }
    destruct (IH (fun Hin => Hnin (or_intror Hin)) (NoDup_app_remove_l _ _ Hnd) h1)
      as [Hf2 Hn2].
    { intros j Hj. rewrite Hf1. apply Hp. apply in_or_app. now right. }
    split.
    + intros j. now rewrite Hf2, Hf1.
    + rewrite Hn2. unfold h1. rewrite upd_same. simpl. rewrite Hn.
      rewrite (_computeLeaves_frame c h) by ptauto. lia.
Qed.

Lemma _computeLeaves_plain (node : OmTreeNode) :
  nodeIds_length model <= Precollapse_minimumNodes ->
  Forall (fun n => name n <> "_auto_ivc"%string) (subtree_nodes node) ->
  forall h,
    NoDup (subtree_ids node) ->
    (forall j, In j (subtree_ids node) -> plain (flags (h j))) ->
    (forall j, flags (_computeLeaves node h j) = flags (h j)) /\
    draw_numLeaves (_computeLeaves node h) node = leafCount node.
Proof.
  intros Hsmall.
  induction node as [node IH] using OmTreeNode_ind'.
  intros Hnames h Hnd Hp.
  rewrite subtree_nodes_eq in Hnames. inversion Hnames as [|? ? Hname Hbelow]; subst.
  rewrite subtree_ids_eq in Hnd, Hp. inversion Hnd as [|? ? Hnin Hcs]; subst.
  destruct (Hp (node_id node) (or_introl eq_refl)) as (Hh & Hfl & Hm).
  rewrite _computeLeaves_eq. cbv zeta.
  set (h1 := upd h (node_id node) (set_numLeaves 0)).
  assert (Hf1 : forall j, flags (h1 j) = flags (h j)).
  { intros j. unfold h1. now rewrite upd_flags by (intros; reflexivity). }
  assert (Hpre : precollapse node h1 = h1).
  { unfold precollapse.
    apply String.eqb_neq in Hname. rewrite Hname. simpl.
    assert (E : (nodeIds_length model >? Precollapse_minimumNodes) = false).
    { rewrite Z.gtb_ltb. apply Z.ltb_ge. exact Hsmall. }
    now rewrite E. }
  rewrite Hpre.
  unfold draw_hidden, draw_filtered, draw_minimized.
  rewrite Hf1, Hh, Hfl, Hm. simpl. rewrite andb_true_r.
  rewrite leafCount_eq.
  destruct (hasChildren node) eqn:Ech.
  - destruct (@leavesLoop_plain node (children node) Hnin Hcs) with (h := h1)
      as [Hf2 Hn2].
    + rewrite Forall_forall in IH |- *. intros c Hc h0 Hndc Hpc.
      apply IH; try assumption.
      rewrite Forall_forall in Hbelow |- *. intros n Hn. apply Hbelow.
      apply in_flat_map. now exists c.
    + intros j Hj. rewrite Hf1. apply Hp. now right.
    + split.
      * intros j. now rewrite Hf2, Hf1.
      * unfold draw_numLeaves. rewrite Hn2. unfold h1. rewrite upd_same. simpl. lia.
  - split.
    + intros j. rewrite upd_flags by (intros; reflexivity). apply Hf1.
    + unfold draw_numLeaves. now rewrite upd_same.
Qed.

(** X8: in a model small enough not to be collapsed beforehand
    ([model.nodeIds.length <= Precollapse.minimumNodes]) and without an
    [_auto_ivc] node, when no node is hidden, filtered or minimized,
    [_computeLeaves] changes no flag and gives the root the number of
    leaves of the tree as its leaf count. *)
Theorem computeLeaves_counts_all_leaves (h : Heap) :
  nodeIds_length model <= Precollapse_minimumNodes ->
  Forall (fun n => name n <> "_auto_ivc"%string) (subtree_nodes (root model)) ->
  NoDup (subtree_ids (root model)) ->
  (forall j, In j (subtree_ids (root model)) ->
     hidden (flags (h j)) = false /\ filtered (flags (h j)) = false /\
     minimized (flags (h j)) = false) ->
  (forall j, flags (_computeLeaves (root model) h j) = flags (h j)) /\
  draw_numLeaves (_computeLeaves (root model) h) (root model) = leafCount (root model).
Proof.
  intros Hsmall Hnames Hnd Hp. now apply _computeLeaves_plain.
Qed.

(** ** Further properties of the column stage *)

(** The lists of zoomed and visible nodes are as they were. *)
Definition lists_kept (w w' : World) : Prop :=
  zoomedNodes w' = zoomedNodes w /\ visibleNodes w' = visibleNodes w.

Lemma lists_kept_refl (w : World) : lists_kept w w.
Proof. split; reflexivity. Qed.

Lemma lists_kept_trans (w1 w2 w3 : World) :
  lists_kept w1 w2 -> lists_kept w2 w3 -> lists_kept w1 w3.
Proof. intros [? ?] [? ?]. split; congruence. Qed.

(** The text renderer is as it was. *)
Definition renderer_kept (w w' : World) : Prop := textRenderer w' = textRenderer w.

Lemma renderer_kept_refl (w : World) : renderer_kept w w.
Proof. reflexivity. Qed.

Lemma renderer_kept_trans (w1 w2 w3 : World) :
  renderer_kept w1 w2 -> renderer_kept w2 w3 -> renderer_kept w1 w3.
Proof. unfold renderer_kept. congruence. Qed.

(** One step of a method that assigns other fields than the relation
    speaks of. *)
Ltac fields_step Hrefl Htrans :=
  first
    [ preserves_step Hrefl Htrans
    | apply preserves_modify; intros ?; repeat split; reflexivity ].

Lemma forEach_fields (R : World -> World -> Prop) (f : OmTreeNode -> M World unit)
    (cs : list OmTreeNode) :
  (forall w, R w w) ->
  (forall w1 w2 w3, R w1 w2 -> R w2 w3 -> R w1 w3) ->
  Forall (fun c => preserves R (f c)) cs ->
  preserves R (forEach f cs).
Proof.
  intros Hrefl Htrans. induction 1 as [|c cs Hc _ IH]; simpl.
  - apply preserves_ret, Hrefl.
  - eapply preserves_bind; [apply Htrans | exact Hc | intros ?; exact IH].
Qed.

Lemma _updateTextWidths_lists (node : OmTreeNode) :
  preserves lists_kept (_updateTextWidths node).
Proof.
  induction node as [node IH] using OmTreeNode_ind'.
  rewrite _updateTextWidths_eq. unfold _getTextWidth, on_node.
  repeat first
    [ apply (@forEach_fields lists_kept _updateTextWidths);
      [exact lists_kept_refl | exact lists_kept_trans | exact IH]
    | fields_step lists_kept_refl lists_kept_trans ].
Qed.

Lemma _setColumnWidthsFromWidestText_fields (R : World -> World -> Prop)
    (node : OmTreeNode) :
  (forall w, R w w) ->
  (forall w1 w2 w3, R w1 w2 -> R w2 w3 -> R w1 w3) ->
  (forall w v, R w (with_heap v w)) ->
  (forall w v, R w (with_greatestDepth v w)) ->
  (forall w v, R w (with_cols v w)) ->
  (forall w v, R w (with_leafWidthsPx v w)) ->
  preserves R (_setColumnWidthsFromWidestText node).
Proof.
  intros Hrefl Htrans Hh Hg Hc Hl.
  induction node as [node IH] using OmTreeNode_ind'.
  rewrite _setColumnWidthsFromWidestText_eq. cbv zeta. unfold on_node.
  repeat first
    [ apply (@forEach_fields R _setColumnWidthsFromWidestText);
      [exact Hrefl | exact Htrans | exact IH]
    | preserves_step Hrefl Htrans
    | apply preserves_modify; intros ?;
      first [apply Hh | apply Hg | apply Hc | apply Hl] ].
Qed.

Lemma lastColumnLoop_unchanged (fuel : nat) :
  forall i sum last w, final_state (lastColumnLoop fuel i sum last w) = w.
Proof.
  induction fuel as [|fuel IH]; intros i sum last w; simpl; [reflexivity|].
  destruct (i >=? depth zoomedElement); [|reflexivity].
  unfold bind, get, defined.
  destruct (index (cols w) i); simpl; [apply IH | reflexivity].
Qed.

Lemma _computeColumnWidths_fields (R : World -> World -> Prop) :
  (forall w, R w w) ->
  (forall w1 w2 w3, R w1 w2 -> R w2 w3 -> R w1 w3) ->
  (forall w v, R w (with_heap v w)) ->
  (forall w v, R w (with_greatestDepth v w)) ->
  (forall w v, R w (with_cols v w)) ->
  (forall w v, R w (with_leafWidthsPx v w)) ->
  preserves R _computeColumnWidths.
Proof.
  intros Hrefl Htrans Hh Hg Hc Hl.
  unfold _computeColumnWidths, widestColumns, adjustEnds, assign_col_width.
  repeat first
    [ apply _setColumnWidthsFromWidestText_fields; assumption
    | intros w; rewrite lastColumnLoop_unchanged; apply Hrefl
    | preserves_step Hrefl Htrans
    | apply preserves_modify; intros ?;
      first [apply Hh | apply Hg | apply Hc | apply Hl] ].
Qed.

Lemma _setColumnLocations_fields (R : World -> World -> Prop) :
  (forall w, R w w) ->
  (forall w1 w2 w3, R w1 w2 -> R w2 w3 -> R w1 w3) ->
  (forall w v, R w (with_cols v w)) ->
  (forall w v, R w (with_treeWidth v w)) ->
  preserves R _setColumnLocations.
Proof.
  intros Hrefl Htrans Hc Ht. unfold _setColumnLocations.
  eapply preserves_bind; [exact Htrans | apply preserves_modify; intros ?; apply Ht |].
  intros _. induction (seq 1 (Z.to_nat (maxDepth model))) as [|d ds IH]; simpl.
  - apply preserves_ret, Hrefl.
  - repeat first
      [ exact IH
      | preserves_step Hrefl Htrans
      | apply preserves_modify; intros ?; first [apply Hc | apply Ht] ].
Qed.

(** The locations of the columns are as they were (and so is their
    number). *)
Definition locations_kept (w w' : World) : Prop :=
  map col_location (cols w') = map col_location (cols w).

Lemma locations_kept_refl (w : World) : locations_kept w w.
Proof. reflexivity. Qed.

Lemma locations_kept_trans (w1 w2 w3 : World) :
  locations_kept w1 w2 -> locations_kept w2 w3 -> locations_kept w1 w3.
Proof. unfold locations_kept. congruence. Qed.

Lemma replace_nth_locations (arr : list Column) (n : nat) (c c' : Column) :
  nth_error arr n = Some c -> col_location c' = col_location c ->
  map col_location (replace_nth arr n c') = map col_location arr.
Proof.
  revert n. induction arr as [|a arr IH]; intros [|n] Hn Hl; simpl in *;
    try discriminate.
  - inversion Hn; subst. now rewrite Hl.
  - f_equal. now apply IH.
Qed.

Lemma assign_locations (arr : list Column) (i : Z) (c c' : Column) :
  index arr i = Some c -> col_location c' = col_location c ->
  map col_location (assign arr i c') = map col_location arr.
Proof.
  unfold index, assign. destruct (i <? 0); [discriminate|].
  apply replace_nth_locations.
Qed.

(** A column is widened where it stands. *)
Lemma widen_locations (d : Z) (f : Column -> num) (k : M World unit) :
  preserves locations_kept k ->
  preserves locations_kept
    (colArr <- get cols ;;
     col <- defined (index colArr d) ;;
     modify (with_cols (assign colArr d (set_col_width (f col) col))) ;; k).
Proof.
  intros Hk w. unfold bind at 1, get at 1. unfold bind at 1.
  destruct (index (cols w) d) as [col|] eqn:E; simpl; [|reflexivity].
  unfold bind, modify.
  eapply locations_kept_trans; [|apply Hk].
  unfold locations_kept. simpl. now apply assign_locations with col.
Qed.

Lemma _setColumnWidthsFromWidestText_locations (node : OmTreeNode) :
  preserves locations_kept (_setColumnWidthsFromWidestText node).
Proof.
  induction node as [node IH] using OmTreeNode_ind'.
  rewrite _setColumnWidthsFromWidestText_eq. cbv zeta. unfold on_node.
  repeat first
    [ apply (widen_locations (depth node)
               (fun col => nmax (col_width col) _));
      apply (@forEach_fields locations_kept _setColumnWidthsFromWidestText);
      [exact locations_kept_refl | exact locations_kept_trans | exact IH]
    | fields_step locations_kept_refl locations_kept_trans ].
Qed.

Lemma assign_col_width_locations (i : Z) (v : num) :
  preserves locations_kept (assign_col_width i v).
Proof.
  intros w. unfold assign_col_width, bind, get, modify.
  destruct (index (cols w) i) as [col|] eqn:E; simpl; [|reflexivity].
  unfold locations_kept. simpl. now apply assign_locations with col.
Qed.

Lemma repeat_locations (c : Column) (n : nat) :
  Forall (fun c' => col_location c' = col_location c) (repeat c n).
Proof. induction n; simpl; constructor; auto. Qed.

Lemma Forall_locations (v : num) (l l' : list Column) :
  map col_location l' = map col_location l ->
  Forall (fun c => col_location c = v) l -> Forall (fun c => col_location c = v) l'.
Proof.
  revert l'. induction l as [|a l IH]; intros [|a' l'] Hm Hl; simpl in *;
    try discriminate; constructor; inversion Hm; inversion Hl; subst; auto;
    congruence.
Qed.

(** X9: when [_computeColumnWidths] returns, the model has a depth of
    at least 0, there are exactly [maxDepth + 1] columns, each with the
    location 0 it was made with, and the [_setColumnLocations] that
    follows returns too: it finds a column at every depth. *)
Theorem computeColumnWidths_columns (w w1 : World) :
  _computeColumnWidths w = Ok tt w1 ->
  0 <= maxDepth model /\
  List.length (cols w1) = Z.to_nat (maxDepth model + 1) /\
  Forall (fun c => col_location c = zero) (cols w1) /\
  exists w2, _setColumnLocations w1 = Ok tt w2.
Proof.
  intros H. unfold _computeColumnWidths in H.
  apply bind_Ok_inv in H as (last & wL & HW & HA).
  unfold widestColumns in HW.
  apply bind_Ok_inv in HW as ([] & wa & Ha & HW).
  unfold modify in Ha. inversion Ha; subst wa; clear Ha.
  apply bind_Ok_inv in HW as ([] & wb & Hb & HW).
  destruct (maxDepth model + 1 <? 0) eqn:Erange; [discriminate|].
  unfold ret in Hb. inversion Hb; subst wb; clear Hb.
  apply bind_Ok_inv in HW as ([] & wc & Hc & HW).
  unfold modify in Hc. inversion Hc; subst wc; clear Hc.
  apply bind_Ok_inv in HW as ([] & wd & Hd & HW).
  unfold modify in Hd. inversion Hd; subst wd; clear Hd.
  apply bind_Ok_inv in HW as ([] & wS & HS & HW).
  apply bind_Ok_inv in HW as (leafArr & we & He & HW).
  unfold get in He. inversion He; subst we leafArr; clear He.
  pose proof (_setColumnWidthsFromWidestText_locations zoomedElement) as KS.
  unfold preserves in KS.
  match type of HS with _ ?s = _ => specialize (KS s) end.
  rewrite HS in KS.
  unfold locations_kept in KS. cbn [final_state cols with_cols] in KS.
  pose proof (lastColumnLoop_unchanged
                (S (Z.to_nat (Z.of_nat (List.length (leafWidthsPx wS)))))
                (Z.of_nat (List.length (leafWidthsPx wS)) - 1) zero zero wS) as KL.
  rewrite HW in KL. simpl in KL. subst wL.
  unfold adjustEnds in HA.
  apply bind_Ok_inv in HA as ([] & wp & Hp & HA).
  apply bind_Ok_inv in HA as (gd & wq & Hq & HA).
  unfold get in Hq. inversion Hq; subst wq gd; clear Hq.
  pose proof (assign_col_width_locations (depth zoomedElement - 1)
                (parentNodeWidth size) wS) as Kp.
  rewrite Hp in Kp.
  pose proof (assign_col_width_locations (greatestDepth wp) last wp) as Kq.
  rewrite HA in Kq. unfold locations_kept in Kp, Kq. simpl in Kp, Kq.
  assert (Hloc : map col_location (cols w1) =
                 map col_location
                   (repeat {| col_width := zero; col_location := zero |}
                           (Z.to_nat (maxDepth model + 1)))) by congruence.
  assert (Hlen : List.length (cols w1) = Z.to_nat (maxDepth model + 1)).
  { rewrite <- (length_map col_location), Hloc, length_map. apply repeat_length. }
  assert (Hpos : 0 <= maxDepth model).
  { unfold assign_col_width, bind, get in HA.
    destruct (index (cols wp) (greatestDepth wp)) as [c|] eqn:E; [|discriminate].
    assert (Hlenp : List.length (cols wp) = Z.to_nat (maxDepth model + 1)).
    { rewrite <- (length_map col_location), <- Hlen, <- (length_map col_location (cols w1)).
      now rewrite Kq. }
    unfold index in E. destruct (greatestDepth wp <? 0); [discriminate|].
    assert (Hlt : (Z.to_nat (greatestDepth wp) < List.length (cols wp))%nat).
    { apply nth_error_Some. congruence. }
    lia. }
  split; [exact Hpos|]. split; [exact Hlen|]. split.
  - eapply Forall_locations; [exact Hloc|].
    apply (repeat_locations {| col_width := zero; col_location := zero |}).
  - destruct (cols w1) as [|c0 mid] eqn:Ecols.
    + simpl in Hlen. lia.
    + eexists. apply _setColumnLocations_spec with (c0 := c0) (mid := mid);
        [exact Ecols|].
      simpl in Hlen. lia.
Qed.

Lemma columnLocationLoop_short (depths : list nat) :
  forall w,
    (exists d, In d depths /\ (List.length (cols w) <= d)%nat) ->
    exists w', columnLocationLoop depths w = Throw TypeError w' /\
               heap w' = heap w /\ lists_kept w w'.
Proof.
  induction depths as [|d depths IH]; intros w (d0 & Hin & Hlen); [contradiction|].
  simpl. unfold bind at 1, get at 1. unfold bind at 1.
  rewrite index_of_nat.
  destruct (nth_error (cols w) d) as [col|] eqn:E; simpl.
  - unfold bind at 1, get at 1. unfold bind at 1, modify at 1.
    unfold bind at 1, modify at 1.
    assert (Hd : (d < List.length (cols w))%nat) by (apply nth_error_Some; congruence).
    destruct Hin as [->|Hin]; [lia|].
    match goal with
    | |- exists w', columnLocationLoop depths ?s = _ /\ _ =>
        destruct (IH s) as (w' & Hw' & Hh & Hl)
    end.
    + exists d0. split; [exact Hin|]. simpl.
      rewrite assign_of_nat, replace_nth_length. exact Hlen.
    + exists w'. split; [exact Hw'|]. split; [exact Hh | exact Hl].
  - exists w. repeat split.
Qed.

(** X10: with fewer columns than [maxDepth + 1] (and a depth of at
    least 1), [_setColumnLocations] throws a [TypeError], at the first
    depth that has no column; no node and neither list is touched. *)
Theorem setColumnLocations_missing_column (w : World) :
  1 <= maxDepth model ->
  (List.length (cols w) < Z.to_nat (maxDepth model + 1))%nat ->
  exists w', _setColumnLocations w = Throw TypeError w' /\
             heap w' = heap w /\
             zoomedNodes w' = zoomedNodes w /\ visibleNodes w' = visibleNodes w.
Proof.
  intros Hd Hlen. unfold _setColumnLocations, bind, modify at 1.
  destruct (@columnLocationLoop_short (seq 1 (Z.to_nat (maxDepth model)))
              (with_treeWidth zero w)) as (w' & H & Hh & Hz & Hv).
  - exists (Z.to_nat (maxDepth model)). split.
    + apply in_seq. lia.
    + simpl. lia.
  - exists w'. rewrite H. repeat split; assumption.
Qed.

(** What a stage that assigns no field of a node's draw state but the
    text width and the opacities keeps on every node. *)
Definition keeps_layout (s s' : NodeState) : Prop :=
  flags s' = flags s /\ numLeaves s' = numLeaves s /\
  dims s' = dims s /\ prevDims s' = prevDims s.

Lemma keeps_layout_refl (s : NodeState) : keeps_layout s s.
Proof. repeat split. Qed.

Lemma keeps_layout_trans (s1 s2 s3 : NodeState) :
  keeps_layout s1 s2 -> keeps_layout s2 s3 -> keeps_layout s1 s3.
Proof.
  unfold keeps_layout. intros (? & ? & ? & ?) (? & ? & ? & ?).
  repeat split; congruence.
Qed.

Lemma computeColumns_layout :
  preserves (heap_kept keeps_layout (subtree_ids zoomedElement)) computeColumns.
Proof.
  pose proof (@heap_kept_refl _ keeps_layout_refl (subtree_ids zoomedElement)) as Hrefl.
  pose proof (@heap_kept_trans _ keeps_layout_trans (subtree_ids zoomedElement))
    as Htrans.
  unfold computeColumns, _setupTextRenderer.
  repeat first
    [ eapply heap_kept_weaken; [|apply _updateTextWidths_kept];
      intros s s' (? & ? & ? & ? & _); repeat split; assumption
    | eapply heap_kept_weaken; [|apply _computeColumnWidths_kept];
      intros s s' (? & ? & _ & ? & ?); repeat split; assumption
    | apply same_heap_kept; [apply keeps_layout_refl | apply _setColumnLocations_same_heap]
    | kept_step Hrefl Htrans keeps_layout_refl ].
Qed.

Lemma computeColumns_lists : preserves lists_kept computeColumns.
Proof.
  unfold computeColumns, _setupTextRenderer.
  repeat first
    [ apply _updateTextWidths_lists
    | apply _computeColumnWidths_fields;
      [exact lists_kept_refl | exact lists_kept_trans
      | intros; split; reflexivity | intros; split; reflexivity
      | intros; split; reflexivity | intros; split; reflexivity]
    | apply _setColumnLocations_fields;
      [exact lists_kept_refl | exact lists_kept_trans
      | intros; split; reflexivity | intros; split; reflexivity]
    | fields_step lists_kept_refl lists_kept_trans ].
Qed.

(** X11: a [computeColumns] that returns leaves no text renderer
    behind; it leaves the lists of zoomed and visible nodes as they
    were; and on every node it keeps the flags, the leaf count, the dims
    and the previous dims; a node outside the zoomed subtree is not
    written at all. *)
Theorem computeColumns_leaves_behind (w w' : World) :
  computeColumns w = Ok tt w' ->
  textRenderer w' = None /\
  zoomedNodes w' = zoomedNodes w /\ visibleNodes w' = visibleNodes w /\
  (forall j, flags (heap w' j) = flags (heap w j) /\
             numLeaves (heap w' j) = numLeaves (heap w j) /\
             dims (heap w' j) = dims (heap w j) /\
             prevDims (heap w' j) = prevDims (heap w j)) /\
  (forall j, ~ In j (subtree_ids zoomedElement) -> heap w' j = heap w j).
Proof.
  intros H.
  pose proof (computeColumns_lists w) as Hl.
  pose proof (computeColumns_layout w) as Hk.
  rewrite H in Hl, Hk. destruct Hl as [Hz Hv]. destruct Hk as [Hk Hout].
  simpl in Hz, Hv, Hk, Hout.
  split; [|repeat split; try assumption; apply Hk].
  unfold computeColumns in H.
  apply bind_Ok_inv in H as ([] & w1 & _ & H).
  apply bind_Ok_inv in H as ([] & w2 & _ & H).
  apply bind_Ok_inv in H as ([] & w3 & H3 & H).
  unfold modify in H3. inversion H3; subst w3; clear H3.
  apply bind_Ok_inv in H as ([] & w4 & H4 & H5).
  pose proof (@_computeColumnWidths_fields renderer_kept renderer_kept_refl
                renderer_kept_trans) as K4.
  pose proof (@_setColumnLocations_fields renderer_kept renderer_kept_refl
                renderer_kept_trans) as K5.
  specialize (K4 (fun _ _ => eq_refl) (fun _ _ => eq_refl) (fun _ _ => eq_refl)
                 (fun _ _ => eq_refl) (with_textRenderer None w2)).
  specialize (K5 (fun _ _ => eq_refl) (fun _ _ => eq_refl) w4).
  rewrite H4 in K4. rewrite H5 in K5. unfold renderer_kept in K4, K5.
  simpl in K4, K5. congruence.
Qed.

(** ** Further properties of the position traversal *)

(** X12: [placeNode] returns exactly when the column it reads exists:
    for a visible node, the column at the depth of the node that stands
    for it; for a node that is not visible, the column one level below
    its parent component, which must exist too.  Otherwise it throws a
    [TypeError], and then the dims of every node are as they were. *)
Theorem placeNode_completion (node : OmTreeNode) (leafCounter : Z)
    (emp : option OmTreeNode) (w : World) :
  returns (placeNode node leafCounter emp w) =
    (if isVisible node (node_flags (heap w) node)
     then match index (cols w) (depth (workNode node emp)) with
          | Some _ => true
          | None => false
          end
     else match parentComponent node with
          | Some pc => match index (cols w) (ref_depth pc + 1) with
                       | Some _ => true
                       | None => false
                       end
          | None => false
          end) /\
  match placeNode node leafCounter emp w with
  | Ok _ _ => True
  | Throw e w' => e = TypeError /\ forall j, dims (heap w' j) = dims (heap w j)
  end.
Proof.
  assert (Hd : forall j, dims (upd (heap w) (node_id node) preserveDims j) =
                         dims (heap w j)).
  { intros j. unfold upd. destruct (Nat.eqb j (node_id node)) eqn:E;
      [apply Nat.eqb_eq in E; subst|]; reflexivity. }
  unfold placeNode, on_dims, on_node, bind, get, modify, defined, ret, throw.
  simpl. rewrite upd_flags_preserveDims. fold (workNode node emp).
  destruct (isVisible node (node_flags (heap w) node)); simpl.
  - destruct (index (cols w) (depth (workNode node emp))); simpl; auto.
  - destruct (parentComponent node) as [pc|]; simpl; auto.
    destruct (index (cols w) (ref_depth pc + 1)); simpl; auto.
Qed.

(** X13: whether it returns or throws, the position traversal of a
    subtree writes the dims and the previous dims of nodes of that
    subtree and nothing else of the nodes: flags, leaf counts, text
    widths and opacities are kept, and a node outside the subtree is as
    it was; the columns, the leaf widths, the greatest depth and the
    tree width are as they were. *)
Theorem positions_write_only (node : OmTreeNode) (leafCounter : Z) (icz : bool)
    (emp : option OmTreeNode) (w : World) :
  (forall j,
     flags (heap (final_state (_computeNormalizedPositions node leafCounter icz emp w)) j)
       = flags (heap w j) /\
     numLeaves (heap (final_state
                        (_computeNormalizedPositions node leafCounter icz emp w)) j)
       = numLeaves (heap w j) /\
     nameWidthPx (heap (final_state
                          (_computeNormalizedPositions node leafCounter icz emp w)) j)
       = nameWidthPx (heap w j) /\
     textOpacity (heap (final_state
                          (_computeNormalizedPositions node leafCounter icz emp w)) j)
       = textOpacity (heap w j) /\
     prevTextOpacity (heap (final_state
                              (_computeNormalizedPositions node leafCounter icz emp w)) j)
       = prevTextOpacity (heap w j)) /\
  (forall j, ~ In j (subtree_ids node) ->
     heap (final_state (_computeNormalizedPositions node leafCounter icz emp w)) j
       = heap w j) /\
  cols (final_state (_computeNormalizedPositions node leafCounter icz emp w)) = cols w /\
  leafWidthsPx (final_state (_computeNormalizedPositions node leafCounter icz emp w))
    = leafWidthsPx w /\
  greatestDepth (final_state (_computeNormalizedPositions node leafCounter icz emp w))
    = greatestDepth w /\
  treeWidth (final_state (_computeNormalizedPositions node leafCounter icz emp w))
    = treeWidth w.
Proof.
  destruct (_computeNormalizedPositions_keeps node leafCounter icz emp w)
    as [[Hk Hout] (Hc & Hl & Hg & Ht)].
  split; [exact Hk|]. split; [exact Hout|]. repeat split; assumption.
Qed.

Lemma enterNode_outside (node : OmTreeNode) (emp : option OmTreeNode) :
  preserves lists_kept (enterNode node false emp).
Proof.
  intros w. unfold enterNode, bind, get, ret. destruct emp; apply lists_kept_refl.
Qed.

Lemma placeNode_lists (node : OmTreeNode) (leafCounter : Z) (emp : option OmTreeNode) :
  preserves lists_kept (placeNode node leafCounter emp).
Proof.
  unfold placeNode, on_dims, on_node.
  repeat fields_step lists_kept_refl lists_kept_trans.
Qed.

Lemma positionsLoop_outside (emp : option OmTreeNode) (cs : list OmTreeNode) :
  Forall (fun c => ~ In (node_id zoomedElement) (subtree_ids c) ->
                   forall lc emp0,
                     preserves lists_kept
                       (_computeNormalizedPositions c lc false emp0)) cs ->
  ~ In (node_id zoomedElement) (flat_map subtree_ids cs) ->
  forall lc, preserves lists_kept (positionsLoop false emp cs lc).
Proof.
  induction 1 as [|c cs Hc _ IH]; intros Hnin lc; simpl.
  - apply preserves_ret, lists_kept_refl.
  - simpl in Hnin. rewrite in_app_iff in Hnin.
    eapply preserves_bind;
      [exact lists_kept_trans | apply preserves_get, lists_kept_refl | intros h].
    apply preserves_if; [|apply IH; ptauto].
    eapply preserves_bind; [exact lists_kept_trans | apply Hc; ptauto | intros ?].
    eapply preserves_bind;
      [exact lists_kept_trans | apply preserves_get, lists_kept_refl | intros h'].
    apply IH. ptauto.
Qed.

(** X14: the traversal of a subtree that does not hold the zoomed
    element, entered from outside the zoomed subtree, lists no node:
    whether it returns or throws, the lists of zoomed and visible nodes
    are as they were. *)
Theorem positions_outside_zoom (node : OmTreeNode) :
  ~ In (node_id zoomedElement) (subtree_ids node) ->
  forall (leafCounter : Z) (emp : option OmTreeNode) (w : World),
    zoomedNodes (final_state (_computeNormalizedPositions node leafCounter false emp w))
      = zoomedNodes w /\
    visibleNodes (final_state (_computeNormalizedPositions node leafCounter false emp w))
      = visibleNodes w.
Proof.
  induction node as [node IH] using OmTreeNode_ind'.
  intros Hnin lc emp. rewrite subtree_ids_eq in Hnin. simpl in Hnin.
  assert (Hne : Nat.eqb (node_id node) (node_id zoomedElement) = false).
  { apply Nat.eqb_neq. ptauto. }
  change (preserves lists_kept (_computeNormalizedPositions node lc false emp)).
  rewrite _computeNormalizedPositions_eq. cbv zeta. simpl negb. cbv iota.
  rewrite Hne.
  eapply preserves_bind; [exact lists_kept_trans | apply enterNode_outside | intros emp'].
  eapply preserves_bind; [exact lists_kept_trans | apply placeNode_lists | intros ?].
  apply preserves_if; [|apply preserves_ret, lists_kept_refl].
  apply positionsLoop_outside; [|ptauto].
  rewrite Forall_forall in IH |- *. intros c Hc Hc' lc' emp0.
  exact (IH c Hc Hc' lc' emp0).
Qed.

(** What the traversal of a subtree adds to the two lists: every node
    it lists as visible it lists as zoomed, the nodes listed are nodes
    of the subtree, and no node listed as visible is hidden. *)
Definition pushes (ids : list nat) (w w' : World) : Prop :=
  same_flags (heap w) (heap w') /\
  exists zs vs,
    zoomedNodes w' = zoomedNodes w ++ zs /\
    visibleNodes w' = visibleNodes w ++ vs /\
    incl vs zs /\ incl zs ids /\
    Forall (fun j => hidden (flags (heap w' j)) = false) vs.

Lemma pushes_refl (ids : list nat) (w : World) : pushes ids w w.
Proof.
  split; [intros j; reflexivity|]. exists [], [].
  rewrite !app_nil_r. repeat split; try apply incl_nil_l. constructor.
Qed.

Lemma pushes_trans (ids : list nat) (w1 w2 w3 : World) :
  pushes ids w1 w2 -> pushes ids w2 w3 -> pushes ids w1 w3.
Proof.
  intros (Hf1 & zs1 & vs1 & Hz1 & Hv1 & Hi1 & Hs1 & Hh1)
         (Hf2 & zs2 & vs2 & Hz2 & Hv2 & Hi2 & Hs2 & Hh2).
  split; [intros j; now rewrite Hf2, Hf1|].
  exists (zs1 ++ zs2), (vs1 ++ vs2).
  rewrite Hz2, Hz1, Hv2, Hv1, !app_assoc.
  split; [reflexivity|]. split; [reflexivity|]. split; [|split].
  - apply incl_app; [apply incl_appl | apply incl_appr]; assumption.
  - apply incl_app; assumption.
  - apply Forall_app. split; [|assumption].
    eapply Forall_impl; [|exact Hh1]. intros j Hj. simpl in Hj. now rewrite Hf2.
Qed.

Lemma pushes_mono (ids ids' : list nat) (w w' : World) :
  incl ids ids' -> pushes ids w w' -> pushes ids' w w'.
Proof.
  intros Hincl (Hf & zs & vs & Hz & Hv & Hi & Hs & Hh).
  split; [assumption|]. exists zs, vs. repeat split; try assumption.
  eapply incl_tran; eassumption.
Qed.

Lemma enterNode_pushes (node : OmTreeNode) (icz : bool) (emp : option OmTreeNode) :
  preserves (pushes [node_id node]) (enterNode node icz emp).
Proof.
  intros w. unfold enterNode, bind, get, modify, ret.
  destruct emp as [e|]; simpl; [apply pushes_refl|].
  destruct icz; simpl; [|apply pushes_refl].
  destruct (isVisible node (node_flags (heap w) node)); simpl; [|apply pushes_refl].
  destruct (isVisibleLeaf node (node_flags (heap w) node)); simpl.
  - destruct (draw_hidden (heap w) node) eqn:Eh; simpl.
    + split; [intros j; reflexivity|]. exists [node_id node], []. simpl.
      rewrite app_nil_r. repeat split; try apply incl_refl; try apply incl_nil_l.
      constructor.
    + split; [intros j; reflexivity|]. exists [node_id node], [node_id node]. simpl.
      repeat split; try apply incl_refl.
      constructor; [exact Eh | constructor].
  - split; [intros j; reflexivity|]. exists [node_id node], []. simpl.
    rewrite app_nil_r. repeat split; try apply incl_refl; try apply incl_nil_l.
    constructor.
Qed.

Lemma placeNode_pushes (node : OmTreeNode) (leafCounter : Z)
    (emp : option OmTreeNode) :
  preserves (pushes [node_id node]) (placeNode node leafCounter emp).
Proof.
  intros w.
  destruct (placeNode_lists node leafCounter emp w) as [Hz Hv].
  pose proof (world_rel_same_flags (placeNode_keeps node leafCounter emp w)) as Hf.
  split; [exact Hf|]. exists [], []. rewrite !app_nil_r.
  repeat split; try assumption; try apply incl_nil_l. constructor.
Qed.

Lemma positionsLoop_pushes (icz : bool) (emp : option OmTreeNode)
    (cs : list OmTreeNode) :
  Forall (fun c => forall lc icz emp,
            preserves (pushes (subtree_ids c))
                      (_computeNormalizedPositions c lc icz emp)) cs ->
  forall lc, preserves (pushes (flat_map subtree_ids cs))
                       (positionsLoop icz emp cs lc).
Proof.
  induction 1 as [|c cs Hc _ IH]; intros lc; simpl.
  - apply preserves_ret, pushes_refl.
  - eapply preserves_bind;
      [apply pushes_trans | apply preserves_get, pushes_refl | intros h].
    apply preserves_if.
    + eapply preserves_bind; [apply pushes_trans | | intros ?].
      * intros w. eapply pushes_mono; [|apply Hc]. apply incl_appl, incl_refl.
      * eapply preserves_bind;
          [apply pushes_trans | apply preserves_get, pushes_refl | intros h'].
        intros w. eapply pushes_mono; [|apply IH]. apply incl_appr, incl_refl.
    + intros w. eapply pushes_mono; [|apply IH]. apply incl_appr, incl_refl.
Qed.

Lemma _computeNormalizedPositions_pushes (node : OmTreeNode) :
  forall lc icz emp,
    preserves (pushes (subtree_ids node))
              (_computeNormalizedPositions node lc icz emp).
Proof.
  induction node as [node IH] using OmTreeNode_ind'.
  intros lc icz emp. rewrite _computeNormalizedPositions_eq. cbv zeta.
  rewrite subtree_ids_eq.
  eapply preserves_bind; [apply pushes_trans | | intros emp'].
  { intros w. eapply pushes_mono; [|apply enterNode_pushes].
    intros j [->|[]]. now left. }
  eapply preserves_bind; [apply pushes_trans | | intros ?].
  { intros w. eapply pushes_mono; [|apply placeNode_pushes].
    intros j [->|[]]. now left. }
  apply preserves_if; [|apply preserves_ret, pushes_refl].
  intros w. eapply pushes_mono; [|apply positionsLoop_pushes; exact IH].
  apply incl_tl, incl_refl.
Qed.

(** X15: after a layout pass that starts with the two lists empty (as
    the constructor leaves them) and returns, every node listed as
    visible is also listed as zoomed, is a node of the model tree and is
    not hidden; the zoomed nodes are nodes of the tree, followed by the
    parent of the zoomed element when it has one. *)
Theorem layoutPass_lists (w w' : World) :
  layoutPass w = Ok tt w' ->
  zoomedNodes w = [] -> visibleNodes w = [] ->
  incl (visibleNodes w') (zoomedNodes w') /\
  incl (visibleNodes w') (subtree_ids (root model)) /\
  Forall (fun j => hidden (flags (heap w' j)) = false) (visibleNodes w') /\
  exists zs,
    incl zs (subtree_ids (root model)) /\
    zoomedNodes w' =
      zs ++ match parent zoomedElement with
            | Some p => [ref_id p]
            | None => []
            end.
Proof.
  intros H Hz0 Hv0. unfold layoutPass, computeLeaves in H.
  apply bind_Ok_inv in H as ([] & wL & HL & H).
  unfold modify in HL. inversion HL; subst wL; clear HL.
  apply bind_Ok_inv in H as ([] & wC & HC & HP).
  pose proof (computeColumns_lists
                (with_heap (_computeLeaves (root model) (heap w)) w)) as KC.
  rewrite HC in KC. destruct KC as [KCz KCv]. simpl in KCz, KCv.
  unfold computePositions in HP.
  apply bind_Ok_inv in HP as ([] & wP & H3 & HP).
  pose proof (_computeNormalizedPositions_pushes (root model) 0 false None wC) as KP.
  rewrite H3 in KP. destruct KP as (Hf & zs & vs & Hz & Hv & Hi & Hs & Hh).
  simpl in Hf, Hz, Hv, Hh.
  rewrite KCz, Hz0 in Hz. rewrite KCv, Hv0 in Hv. simpl in Hz, Hv.
  assert (Hfinal : heap w' = heap wP /\ visibleNodes w' = vs /\
                   zoomedNodes w' = zs ++ match parent zoomedElement with
                                          | Some p => [ref_id p]
                                          | None => []
                                          end).
  { destruct (parent zoomedElement); unfold modify, ret in HP; inversion HP; subst;
      simpl; rewrite ?app_nil_r; auto. }
  destruct Hfinal as (Hheap & Hvis & Hzoom). rewrite Hheap, Hvis, Hzoom.
  split; [apply incl_appl; exact Hi|].
  split; [eapply incl_tran; eassumption|].
  split; [exact Hh|]. exists zs. split; [exact Hs | reflexivity].
Qed.

(** ** Further properties of [getText] *)

Lemma startsWith_append (p s : string) :
  startsWith p s = true <-> exists t, s = String.append p t.
Proof.
  unfold startsWith. revert s. induction p as [|a p IH]; intros s; simpl.
  - split; [intros _; now exists s | intros _; destruct s; reflexivity].
  - destruct s as [|b s].
    + split; [discriminate | intros [t Ht]; discriminate].
    + simpl. destruct (Ascii.ascii_dec a b) as [->|Hne].
      * rewrite (IH s). split; intros [t Ht]; exists t; [now rewrite Ht|].
        now inversion Ht.
      * split; [discriminate|]. intros [t Ht]. inversion Ht. congruence.
Qed.

Lemma length_append (p s : string) :
  String.length (String.append p s) = (String.length p + String.length s)%nat.
Proof. induction p as [|a p IH]; simpl; [reflexivity | now rewrite IH]. Qed.

Lemma substring_all (s : string) : substring 0 (String.length s) s = s.
Proof. induction s as [|a s IH]; simpl; [reflexivity | now rewrite IH]. Qed.

Lemma substring_append (p s : string) :
  substring (String.length p) (String.length s) (String.append p s) = s.
Proof. induction p as [|a p IH]; simpl; [apply substring_all | exact IH]. Qed.

Lemma substring_split (s : string) :
  forall m, (m <= String.length s)%nat ->
    s = String.append (substring 0 m s) (substring m (String.length s - m) s).
Proof.
  induction s as [|a s IH]; intros [|m] Hm; simpl in *; try lia.
  - reflexivity.
  - now rewrite substring_all.
  - f_equal. apply IH. lia.
Qed.

Lemma endsWith_append (suffix s : string) :
  endsWith suffix s = true <-> exists p, s = String.append p suffix.
Proof.
  unfold endsWith. cbv zeta. split.
  - intros H. apply andb_prop in H as [Hle Heq].
    apply Nat.leb_le in Hle. apply String.eqb_eq in Heq.
    exists (substring 0 (String.length s - String.length suffix)%nat s).
    pose proof (@substring_split s (String.length s - String.length suffix)%nat) as Hs.
    replace (String.length s - (String.length s - String.length suffix))%nat
      with (String.length suffix) in Hs by lia.
    rewrite Heq in Hs. apply Hs. lia.
  - intros [p ->]. rewrite length_append.
    replace (String.length p + String.length suffix - String.length suffix)%nat
      with (String.length p) by lia.
    rewrite substring_append, String.eqb_refl, andb_true_r.
    apply Nat.leb_le. lia.
Qed.

(** X16: the label of a node.  The auto-IVC node is labelled "Auto-IVC",
    before anything else is looked at.  Any other filter node is
    labelled "Filtered Inputs" when its name ends with
    [_N2_FILTER_inputs] and "Filtered Outputs" when it does not,
    whatever the name is.  Any other node whose path starts with
    [_auto_ivc] is labelled with its promoted name when it has one.
    Every remaining node is labelled with its name. *)
Theorem getText_label (node : OmTreeNode) :
  (name node = "_auto_ivc"%string -> getText node = "Auto-IVC"%string) /\
  (name node <> "_auto_ivc"%string -> isFilter node = true ->
   ((exists p, name node = String.append p "_N2_FILTER_inputs") ->
    getText node = "Filtered Inputs"%string) /\
   (~ (exists p, name node = String.append p "_N2_FILTER_inputs") ->
    getText node = "Filtered Outputs"%string)) /\
  (name node <> "_auto_ivc"%string -> isFilter node = false ->
   ((exists t, absPathName node = String.append "_auto_ivc" t) ->
    forall p, promotedName node = Some p -> getText node = p) /\
   ((exists t, absPathName node = String.append "_auto_ivc" t) ->
    promotedName node = None -> getText node = name node) /\
   (~ (exists t, absPathName node = String.append "_auto_ivc" t) ->
    getText node = name node)).
Proof.
  unfold getText. split; [|split].
  - intros ->. reflexivity.
  - intros Hne Hf. apply String.eqb_neq in Hne. rewrite Hne, Hf.
    split; intros H.
    + apply endsWith_append in H. now rewrite H.
    + destruct (endsWith "_N2_FILTER_inputs" (name node)) eqn:E; [|reflexivity].
      apply endsWith_append in E. contradiction.
  - intros Hne Hf. apply String.eqb_neq in Hne. rewrite Hne, Hf.
    split; [|split].
    + intros H p Hp. apply startsWith_append in H. now rewrite H, Hp.
    + intros H Hp. apply startsWith_append in H. now rewrite H, Hp.
    + intros H. destruct (startsWith "_auto_ivc" (absPathName node)) eqn:E;
        [|reflexivity].
      apply startsWith_append in E. contradiction.
Qed.

(** ** [_computeLeaves] run twice *)

Lemma NodeState_eta (s s' : NodeState) :
  flags s' = flags s -> numLeaves s' = numLeaves s ->
  nameWidthPx s' = nameWidthPx s -> dims s' = dims s -> prevDims s' = prevDims s ->
  textOpacity s' = textOpacity s -> prevTextOpacity s' = prevTextOpacity s ->
  s' = s.
Proof. destruct s, s'; simpl; intros; subst; reflexivity. Qed.

(** X17: [_computeLeaves] is idempotent: run on the nodes a first run
    left, it leaves every node exactly as it found it. *)
Theorem computeLeaves_idempotent (node : OmTreeNode) (h : Heap) (j : nat) :
  NoDup (subtree_ids node) ->
  _computeLeaves node (_computeLeaves node h) j = _computeLeaves node h j.
Proof.
  intros Hnd.
  destruct (in_dec Nat.eq_dec j (subtree_ids node)) as [Hin|Hnin];
    [|now apply _computeLeaves_frame].
  destruct (@_computeLeaves_again node h (_computeLeaves node h) Hnd
              (fun i _ => keeps_counts_refl _) j Hin) as [Hf Hn].
  destruct (_computeLeaves_keeps node (_computeLeaves node h) j)
    as (_ & _ & _ & Ha & Hb & Hc & Hd & He).
  now apply NodeState_eta.
Qed.

(** ** The greatest depth *)

(** What a run of [_setColumnWidthsFromWidestText] that returns has made
    of [this.greatestDepth]: it has not decreased, it is at least the
    depth of every node visited, and if it has changed it is the depth
    of a node visited.  The nodes visited are the nodes [Measured]: the
    two traversals test the same flags. *)
Definition DepthDone (tops : list OmTreeNode) (w w' : World) : Prop :=
  same_flags (heap w) (heap w') /\
  greatestDepth w <= greatestDepth w' /\
  (forall top n, In top tops -> Measured (heap w) top n ->
                 depth n <= greatestDepth w') /\
  (greatestDepth w' = greatestDepth w \/
   exists top n, In top tops /\ Measured (heap w) top n /\
                 depth n = greatestDepth w').

Lemma forEach_DepthDone (cs : list OmTreeNode) :
  Forall (fun c => forall w w',
            _setColumnWidthsFromWidestText c w = Ok tt w' -> DepthDone [c] w w') cs ->
  forall w w',
    forEach _setColumnWidthsFromWidestText cs w = Ok tt w' -> DepthDone cs w w'.
Proof.
  induction 1 as [|c cs Hc _ IH]; intros w w' H.
  - simpl in H. unfold ret in H. inversion H; subst.
    split; [intros j; reflexivity|]. split; [lia|]. split; [intros ? ? []|now left].
  - change (forEach _setColumnWidthsFromWidestText (c :: cs))
      with (_setColumnWidthsFromWidestText c ;;
            forEach _setColumnWidthsFromWidestText cs) in H.
    apply bind_Ok_inv in H as ([] & w1 & H1 & H2).
    destruct (Hc w w1 H1) as (Hf1 & Hg1 & Hm1 & Hx1).
    destruct (IH w1 w' H2) as (Hf2 & Hg2 & Hm2 & Hx2).
    assert (Hback : forall top n, Measured (heap w1) top n -> Measured (heap w) top n).
    { intros top n. apply Measured_same_flags. intros j. symmetry. apply Hf1. }
    split; [intros j; now rewrite Hf2, Hf1|]. split; [lia|]. split.
    + intros top n [<-|Hin] Hn.
      * specialize (Hm1 c n (or_introl eq_refl) Hn). lia.
      * apply (Hm2 top n Hin). eapply Measured_same_flags; [exact Hf1 | exact Hn].
    + destruct Hx2 as [E2|(top & n & Hin & Hn & E2)].
      * destruct Hx1 as [E1|(top & n & [<-|[]] & Hn & E1)].
        -- left. lia.
        -- right. exists c, n. split; [now left|]. split; [exact Hn | lia].
      * right. exists top, n. split; [now right|]. split; [now apply Hback | exact E2].
Qed.

Lemma _setColumnWidthsFromWidestText_DepthDone (node : OmTreeNode) :
  forall w w',
    _setColumnWidthsFromWidestText node w = Ok tt w' -> DepthDone [node] w w'.
Proof.
  induction node as [node IH] using OmTreeNode_ind'.
  intros w w' H.
  pose proof (_setColumnWidthsFromWidestText_kept node w) as Hk.
  rewrite H in Hk. destruct Hk as [Hk _]. simpl in Hk.
  assert (Hf : same_flags (heap w) (heap w')) by (intros j; apply (Hk j)).
  rewrite _setColumnWidthsFromWidestText_eq in H. cbv zeta in H.
  apply bind_Ok_inv in H as (h & w0 & H0 & H).
  unfold get in H0. inversion H0; subst h w0; clear H0.
  destruct (draw_hidden (heap w) node) eqn:Ehid.
  - unfold ret in H. inversion H; subst w'.
    split; [exact Hf|]. split; [lia|]. split; [|now left].
    intros top n [<-|[]] Hn. apply Measured_inv in Hn. destruct Hn as [Hn _].
    congruence.
  - apply bind_Ok_inv in H as ([] & w1 & H1 & H).
    unfold on_node, modify in H1. inversion H1; subst w1; clear H1.
    apply bind_Ok_inv in H as (h1 & w1 & H1 & H).
    unfold get in H1. inversion H1; subst h1 w1; clear H1.
    apply bind_Ok_inv in H as ([] & w2 & H2 & H).
    unfold modify in H2. inversion H2; subst w2; clear H2.
    cbn [heap with_heap with_greatestDepth] in H.
    assert (Hmin : draw_minimized
                     (upd (heap w) (node_id node)
                        (set_opacities
                           (Some match textOpacity (heap w (node_id node)) with
                                 | Some o => o
                                 | None => zero
                                 end)
                           (Some (if ngt (ndiv (nmul (n2matrix_height size)
                                                  (of_int (draw_numLeaves (heap w) node)))
                                               (of_int (draw_numLeaves (heap w)
                                                          zoomedElement)))
                                          (font size)
                                  then one else zero)))) node =
                   draw_minimized (heap w) node).
    { unfold draw_minimized. now rewrite upd_flags by (intros; reflexivity). }
    rewrite Hmin in H. clear Hmin.
    destruct (hasChildren node && negb (draw_minimized (heap w) node)) eqn:Eexp.
    + apply bind_Ok_inv in H as (colArr & w3 & H3 & H).
      unfold get in H3. inversion H3; subst colArr w3; clear H3.
      apply bind_Ok_inv in H as (col & w3 & H3 & H).
      destruct (index _ (depth node)) as [col0|]; [|discriminate].
      unfold defined, ret in H3. inversion H3; subst col w3; clear H3.
      apply bind_Ok_inv in H as ([] & w4 & H4 & H).
      unfold modify in H4. inversion H4; subst w4; clear H4.
      match type of H with
      | forEach _ _ ?s = _ =>
          destruct (@forEach_DepthDone (children node) IH s w' H)
            as (Hf5 & Hg5 & Hm5 & Hx5);
          assert (Hfs : same_flags (heap w) (heap s))
            by (intros j; simpl; now rewrite upd_flags by (intros; reflexivity))
      end.
      cbn [greatestDepth with_cols with_greatestDepth with_heap] in Hg5, Hx5.
      split; [exact Hf|]. split; [lia|]. split.
      * intros top n [<-|[]] Hn. apply Measured_inv in Hn.
        destruct Hn as [_ [->|(_ & c & Hin & Hm)]]; [lia|].
        apply (Hm5 c n Hin). eapply Measured_same_flags; [exact Hfs | exact Hm].
      * destruct Hx5 as [E5|(c & n & Hin & Hn & E5)].
        -- destruct (Z.max_spec (greatestDepth w) (depth node)) as [[Hlt Hmax]|[Hge Hmax]].
           ++ right. exists node, node. split; [now left|].
              split; [now constructor | lia].
           ++ left. lia.
        -- right. exists node, n. split; [now left|]. split; [|exact E5].
           assert (Hn' : Measured (heap w) c n).
           { eapply Measured_same_flags; [|exact Hn].
             intros j. symmetry. apply Hfs. }
           apply Measured_graft with c; [|exact Hn'].
           eapply Measured_child with (p := node);
             [now constructor | exact Eexp | exact Hin |].
           apply Measured_inv in Hn'. apply Hn'.
    + assert (Hgd : greatestDepth w' = Z.max (greatestDepth w) (depth node)).
      { destruct (negb (draw_filtered _ node)).
        - apply bind_Ok_inv in H as (leafArr & w3 & H3 & H).
          unfold get in H3. inversion H3; subst leafArr w3; clear H3.
          destruct (index _ (depth node)); [|discriminate].
          unfold modify in H. inversion H; subst w'. reflexivity.
        - unfold ret in H. inversion H; subst w'. reflexivity. }
      split; [exact Hf|]. split; [lia|]. split.
      * intros top n [<-|[]] Hn. apply Measured_inv in Hn.
        destruct Hn as [_ [->|(He & _)]]; [lia|].
        unfold expanded in He. congruence.
      * destruct (Z.max_spec (greatestDepth w) (depth node)) as [[Hlt Hmax]|[Hge Hmax]].
        -- right. exists node, node. split; [now left|].
           split; [now constructor | lia].
        -- left. lia.
Qed.

(** X18: when [_computeColumnWidths] returns, [this.greatestDepth] is
    the greatest depth of the nodes the column pass visits (the zoomed
    element unless hidden, and the children, not hidden, of a visited
    node that has children and is not minimized), or 0 when that is
    greater or no node is visited; and a column exists at that depth. *)
Theorem computeColumnWidths_greatestDepth (w w1 : World) :
  _computeColumnWidths w = Ok tt w1 ->
  0 <= greatestDepth w1 /\
  (forall n, Measured (heap w) zoomedElement n -> depth n <= greatestDepth w1) /\
  (greatestDepth w1 = 0 \/
   exists n, Measured (heap w) zoomedElement n /\ depth n = greatestDepth w1) /\
  exists c, index (cols w1) (greatestDepth w1) = Some c.
Proof.
  intros H. unfold _computeColumnWidths in H.
  apply bind_Ok_inv in H as (last & wL & HW & HA).
  unfold widestColumns in HW.
  apply bind_Ok_inv in HW as ([] & wa & Ha & HW).
  unfold modify in Ha. inversion Ha; subst wa; clear Ha.
  apply bind_Ok_inv in HW as ([] & wb & Hb & HW).
  destruct (maxDepth model + 1 <? 0); [discriminate|].
  unfold ret in Hb. inversion Hb; subst wb; clear Hb.
  apply bind_Ok_inv in HW as ([] & wc & Hc & HW).
  unfold modify in Hc. inversion Hc; subst wc; clear Hc.
  apply bind_Ok_inv in HW as ([] & wd & Hd & HW).
  unfold modify in Hd. inversion Hd; subst wd; clear Hd.
  apply bind_Ok_inv in HW as ([] & wS & HS & HW).
  apply bind_Ok_inv in HW as (leafArr & we & He & HW).
  unfold get in He. inversion He; subst we leafArr; clear He.
  destruct (@_setColumnWidthsFromWidestText_DepthDone zoomedElement _ _ HS)
    as (_ & Hg & Hm & Hx).
  cbn [heap greatestDepth with_cols with_leafWidthsPx with_greatestDepth] in Hg, Hm, Hx.
  pose proof (lastColumnLoop_unchanged
                (S (Z.to_nat (Z.of_nat (List.length (leafWidthsPx wS)))))
                (Z.of_nat (List.length (leafWidthsPx wS)) - 1) zero zero wS) as KL.
  rewrite HW in KL. simpl in KL. subst wL.
  unfold adjustEnds in HA.
  apply bind_Ok_inv in HA as ([] & wp & Hp & HA).
  apply bind_Ok_inv in HA as (gd & wq & Hq & HA).
  unfold get in Hq. inversion Hq; subst wq gd; clear Hq.
  assert (Hgp : greatestDepth wp = greatestDepth wS).
  { unfold assign_col_width, bind, get, modify in Hp.
    destruct (index (cols wS) _); [|discriminate]. inversion Hp. reflexivity. }
  unfold assign_col_width, bind, get, modify in HA.
  destruct (index (cols wp) (greatestDepth wp)) as [c|] eqn:E; [|discriminate].
  simpl in HA. inversion HA; subst w1; clear HA.
  cbn [greatestDepth cols with_cols]. rewrite Hgp in *.
  split; [exact Hg|]. split; [|split].
  - intros n Hn. apply (Hm zoomedElement n); [now left | exact Hn].
  - destruct Hx as [E0|(top & n & [<-|[]] & Hn & E0)]; [now left|].
    right. exists n. split; assumption.
  - unfold index, assign in *. destruct (greatestDepth wS <? 0); [discriminate|].
    assert (Hlt : (Z.to_nat (greatestDepth wS) < List.length (cols wp))%nat)
      by (apply nth_error_Some; congruence).
    apply nth_error_defined. now rewrite replace_nth_length.
Qed.

(** ** The root in a layout pass *)

(** X19: a layout pass whose root is not visible once the leaves are
    counted, and has no parent component (as a root has none), does not
    return: if the column stage returns, placing the root reads the
    depth of a parent component that does not exist, and throws. *)
Theorem layoutPass_root_not_visible (w : World) :
  isVisible (root model)
            (flags (_computeLeaves (root model) (heap w) (node_id (root model)))) = false ->
  parentComponent (root model) = None ->
  returns (layoutPass w) = false.
Proof.
  intros Hvis Hpc. unfold layoutPass, computeLeaves.
  erewrite bind_Ok by reflexivity.
  set (wL := with_heap (_computeLeaves (root model) (heap w)) w).
  pose proof (computeColumns_layout wL) as Hk.
  unfold bind at 1. destruct (computeColumns wL) as [[] wC|e wC]; [|reflexivity].
  destruct Hk as [Hk _]. simpl in Hk.
  unfold computePositions. unfold bind at 1.
  rewrite _computeNormalizedPositions_eq. cbv zeta.
  destruct (enterNode_spec (root model)
              (if negb false
               then Nat.eqb (node_id (root model)) (node_id zoomedElement)
               else false) None wC) as (we & He & Hhe & _).
  unfold bind at 1. rewrite He. unfold bind at 1.
  assert (Hthrow : returns (placeNode (root model) 0
                     (nextEmp (heap wC) (root model)
                        (if negb false
                         then Nat.eqb (node_id (root model)) (node_id zoomedElement)
                         else false) None) we) = false).
  { unfold placeNode, on_dims, on_node, bind, get, modify, defined, ret, throw.
    simpl. rewrite upd_flags_preserveDims. unfold node_flags.
    rewrite Hhe, (proj1 (Hk (node_id (root model)))). unfold wL. simpl.
    rewrite Hvis, Hpc. reflexivity. }
  destruct (placeNode _ _ _ we); [discriminate | reflexivity].
Qed.

(** X20: after a layout pass that returns, a visible root starts at
    y = 0 / L and has the height L / L, where L is its leaf count; its
    x is the location of the column at its depth over the tree width. *)
Theorem layoutPass_root_dims (w w' : World) :
  layoutPass w = Ok tt w' ->
  NoDup (subtree_ids (root model)) ->
  isVisible (root model) (node_flags (heap w') (root model)) = true ->
  dims_y (draw_dims (heap w') (root model)) =
    ndiv (of_int 0) (of_int (draw_numLeaves (heap w') (root model))) /\
  dims_height (draw_dims (heap w') (root model)) =
    ndiv (of_int (draw_numLeaves (heap w') (root model)))
         (of_int (draw_numLeaves (heap w') (root model))) /\
  exists col,
    index (cols w') (depth (root model)) = Some col /\
    dims_x (draw_dims (heap w') (root model)) =
      ndiv (col_location col) (treeWidth w').
Proof.
  intros Hpass Hnd Hvis.
  destruct (layoutPass_stages w Hpass) as (wC & wP & _ & H3 & Hheap & Hcols).
  rewrite _computeNormalizedPositions_eq in H3. cbv zeta in H3.
  apply bind_Ok_inv in H3 as (emp' & we & He & H3).
  destruct (enterNode_spec (root model)
              (if negb false
               then Nat.eqb (node_id (root model)) (node_id zoomedElement)
               else false) None wC) as (we0 & He0 & Hhe & Hce).
  rewrite He0 in He. injection He as Eemp Ewe. subst emp' we0.
  apply bind_Ok_inv in H3 as ([] & wn & Hn & H3).
  assert (Hloop : world_rel keeps_but_dims
                    (flat_map subtree_ids (children (root model))) wn wP).
  { destruct (hasChildren (root model)).
    - match type of H3 with
      | ?m = _ => assert (E : wP = final_state m) by (now rewrite H3)
      end.
      rewrite E. apply positionsLoop_keeps.
      apply Forall_forall. intros c _. apply _computeNormalizedPositions_keeps.
    - unfold ret in H3. inversion H3; subst.
      apply (@world_rel_refl _ keeps_but_dims_refl). }
  assert (Kn : world_rel keeps_but_dims [node_id (root model)] we wn).
  { match type of Hn with
    | ?m = _ => assert (E : wn = final_state m) by (now rewrite Hn)
    end.
    rewrite E. apply placeNode_keeps. }
  rewrite subtree_ids_eq in Hnd. inversion Hnd as [|? ? Hnin _]; subst.
  assert (Hroot : heap w' (node_id (root model)) = heap wn (node_id (root model))).
  { rewrite Hheap. now apply (proj2 (proj1 Hloop)). }
  assert (Hcounts : forall j, numLeaves (heap w' j) = numLeaves (heap we j) /\
                              flags (heap w' j) = flags (heap we j)).
  { intros j. rewrite Hheap.
    destruct (proj1 (proj1 Hloop) j) as (Ha & Hb & _).
    destruct (proj1 (proj1 Kn) j) as (Hc & Hd & _).
    split; congruence. }
  assert (Hcol : cols w' = cols we /\ treeWidth w' = treeWidth we).
  { destruct Hcols as (A1 & _ & _ & A4).
    destruct (proj2 Hloop) as (B1 & _ & _ & B4).
    destruct (proj2 Kn) as (C1 & _ & _ & C4).
    split; congruence. }
  set (e := nextEmp (heap wC) (root model)
              (if negb false
               then Nat.eqb (node_id (root model)) (node_id zoomedElement)
               else false) None) in *.
  assert (Hn' : placeNode (root model) 0 e we = Ok tt wn) by exact Hn.
  assert (Hwork : workNode (root model) e = root model)
    by apply workNode_nextEmp_None.
  assert (Hvis_e : isVisible (root model) (node_flags (heap we) (root model)) = true).
  { unfold node_flags in *. now rewrite <- (proj2 (Hcounts _)). }
  destruct (index (cols we) (depth (workNode (root model) e))) as [col|] eqn:Ecol.
  - destruct (@placeNode_visible (root model) 0 e we col Hvis_e Ecol)
      as (wn' & Hrun & Hx & Hy & _ & Hh).
    rewrite Hrun in Hn'. inversion Hn'; subst wn'.
    unfold draw_dims, draw_numLeaves in *. rewrite Hroot, Hy, Hh, Hx, Hwork.
    destruct (proj1 (proj1 Kn) (node_id (root model))) as (_ & Hnl & _).
    rewrite Hnl.
    split; [reflexivity|]. split; [reflexivity|].
    exists col. rewrite (proj1 Hcol), (proj2 Hcol). rewrite Hwork in Ecol.
    split; [exact Ecol | reflexivity].
  - pose proof (@placeNode_visible_throws (root model) 0 e we Hvis_e Ecol) as Hthrow.
    rewrite Hn' in Hthrow. discriminate.
Qed.

(** ** The dims of the page *)

(** The fields of [this.size.n2matrix] that the dims of the page read
    besides the height, and the two dimensions of the browser window. *)
Record N2Matrix : Type := {
  n2matrix_margin : num;
  n2matrix_width : num
}.

Record Window : Type := {
  innerWidth : num;
  innerHeight : num
}.

Variable n2matrix : N2Matrix.
Variable window : Window.

(** The literal 0.95. *)
Variable lit_0_95 : num.

(** [newOuterDims]: the width and the height. *)
Definition newOuterDims (w : World) : num * num :=
  let width :=
    nadd (nadd (nadd (treeWidth w) (n2matrix_margin n2matrix))
               (n2matrix_width n2matrix))
         (n2matrix_margin n2matrix) in
  let height :=
    nadd (n2matrix_height size) (nmul (n2matrix_margin n2matrix) (of_int 2)) in
  (width, height).

Definition calcWidthBasedOnNewHeight (w : World) (height : num) : num :=
  nadd (nadd (treeWidth w) height) (nmul (n2matrix_margin n2matrix) (of_int 2)).

Definition calcHeightBasedOnNewWidth (w : World) (width : num) : num :=
  nsub (nsub width (treeWidth w)) (nmul (n2matrix_margin n2matrix) (of_int 2)).

(** [calcFitDims]: the width and the height. *)
Definition calcFitDims (w : World) : num * num :=
  let height := nmul (innerHeight window) lit_0_95 in
  let width := calcWidthBasedOnNewHeight w height in
  if ngt width (nsub (innerWidth window) (of_int 200)) then
    let width := nsub (innerWidth window) (of_int 200) in
    let height := calcHeightBasedOnNewWidth w width in
    (width, height)
  else (width, height).

(** Lines 384-385 of [updateTransitionInfo]: the value [this.ratio] is
    left with. *)
Definition updateTransitionInfo_ratio (w : World) (manuallyResized : bool) : num :=
  let outerDims := newOuterDims w in
  let ratio := ndiv (nsub (innerWidth window) (of_int 200)) (fst outerDims) in
  if ngt ratio one || manuallyResized then one else ratio.

(** X21: the width that [calcFitDims] returns is never greater than the
    inner width of the window less 200, whatever the numbers are (NaN
    included): either it is that bound itself, with the height computed
    back from it, or it is the width computed from 0.95 of the inner
    height of the window, which the comparison found not to be greater. *)
Theorem calcFitDims_fits (w : World) :
  (forall a : num, nlt a a = false) ->
  ngt (fst (calcFitDims w)) (nsub (innerWidth window) (of_int 200)) = false /\
  (calcFitDims w =
     (nsub (innerWidth window) (of_int 200),
      calcHeightBasedOnNewWidth w (nsub (innerWidth window) (of_int 200))) \/
   calcFitDims w =
     (calcWidthBasedOnNewHeight w (nmul (innerHeight window) lit_0_95),
      nmul (innerHeight window) lit_0_95)).
Proof.
  intros Hirr. unfold calcFitDims. cbv zeta.
  destruct (ngt (calcWidthBasedOnNewHeight w (nmul (innerHeight window) lit_0_95))
                (nsub (innerWidth window) (of_int 200))) eqn:E; simpl.
  - split; [apply Hirr | now left].
  - split; [exact E | now right].
Qed.

(** X22: the ratio [updateTransitionInfo] leaves is never greater than
    1, whatever the numbers are (NaN included); after a manual resize it
    is 1; and it is either 1 or the inner width of the window less 200
    over the outer width. *)
Theorem updateTransitionInfo_ratio_at_most_one (w : World) (manuallyResized : bool) :
  nlt one one = false ->
  ngt (updateTransitionInfo_ratio w manuallyResized) one = false /\
  (manuallyResized = true -> updateTransitionInfo_ratio w manuallyResized = one) /\
  (updateTransitionInfo_ratio w manuallyResized = one \/
   updateTransitionInfo_ratio w manuallyResized =
     ndiv (nsub (innerWidth window) (of_int 200)) (fst (newOuterDims w))).
Proof.
  intros Hirr. unfold updateTransitionInfo_ratio. cbv zeta.
  destruct (ngt (ndiv (nsub (innerWidth window) (of_int 200)) (fst (newOuterDims w)))
                one) eqn:E; simpl.
  - split; [exact Hirr|]. split; [reflexivity | now left].
  - destruct manuallyResized.
    + split; [exact Hirr|]. split; [reflexivity | now left].
    + split; [exact E|]. split; [discriminate | now right].
Qed.

End Layout.

Arguments Dimensions num : clear implicits.
Arguments NodeState num : clear implicits.
Arguments Heap num : clear implicits.
Arguments Size num : clear implicits.
Arguments Column num : clear implicits.
Arguments World num : clear implicits.
Arguments Linear num : clear implicits.
Arguments Scale num : clear implicits.
Arguments TransitCoords num : clear implicits.
Arguments Scales num : clear implicits.
Arguments N2Matrix num : clear implicits.
Arguments Window num : clear implicits.

(** ** Exact arithmetic satisfies the order laws *)

Lemma Exact_order_laws : @OrderLaws Exact.xnum Exact.number.
Proof.
  split.
  - reflexivity.
  - intros [|q] H; simpl in *; [discriminate|].
    apply Qle_bool_iff. apply Qle_refl.
  - intros [|p] [|q] [|r] H1 H2; simpl in *; try discriminate.
    apply Qle_bool_iff. apply Qle_bool_iff in H1, H2. now apply Qle_trans with q.
  - intros [|p] [|q] H1 H2; try discriminate.
    change (Qle_bool p (Qred (p + q)) = true).
    change (Qle_bool 0 q = true) in H2.
    apply Qle_bool_iff. apply Qle_bool_iff in H2.
    apply Qle_trans with (p + q)%Q.
    + rewrite <- (Qplus_0_r p) at 1. now apply Qplus_le_r.
    + rewrite Qred_correct. apply Qle_refl.
Qed.

(** ** The methods of the tree node, as the spec describes them *)

(** Modelled from the spec: [isVisible] is missing from the sources; the
    spec opposes a visible node to a hidden or filtered one. *)
Definition spec_isVisible (node : OmTreeNode) (f : DrawFlags) : bool :=
  negb (hidden f || filtered f).

(** Modelled from the spec: [isVisibleLeaf] is missing from the sources;
    the spec says a leaf is a node without children or a minimized
    subtree root. *)
Definition spec_isVisibleLeaf (node : OmTreeNode) (f : DrawFlags) : bool :=
  negb (hasChildren node) || minimized f.

(** A model below the size at which nodes are collapsed: the size test
    is never consulted. *)
Definition never_tooLarge (node : OmTreeNode) (f : DrawFlags) (count : option Z) : bool :=
  false.

(** ** A model to run the layout on *)

Module Sample.

Import Binary64.

Definition ref (i : nat) (d : Z) : NodeRef := {| ref_id := i; ref_depth := d |}.

Definition variable (i : nat) (nm : string) (d : Z) (p : NodeRef) : OmTreeNode :=
  TreeNode i nm nm None d true false (Some p) (Some p) [].

Definition group (i : nat) (nm : string) (d : Z) (p : option NodeRef)
    (cs : list OmTreeNode) : OmTreeNode :=
  TreeNode i nm nm None d false false p None cs.

(** root (depth 1) > [ G (2) > [ g1; g2; g3 (3) ]; Z (2) > [ z1 (3) ] ] *)
Definition g1 : OmTreeNode := variable 2 "g1" 3 (ref 1 2).
Definition g2 : OmTreeNode := variable 3 "g2" 3 (ref 1 2).
Definition g3 : OmTreeNode := variable 4 "g3" 3 (ref 1 2).
Definition G : OmTreeNode := group 1 "G" 2 (Some (ref 0 1)) [g1; g2; g3].
Definition z1 : OmTreeNode := variable 6 "z1" 3 (ref 5 2).
Definition Z0 : OmTreeNode := group 5 "Z" 2 (Some (ref 0 1)) [z1].
Definition top : OmTreeNode := group 0 "root" 1 None [G; Z0].

Definition model : ModelData :=
  {| root := top; nodeIds_length := 7; depthCount := [0; 1; 2; 4]; maxDepth := 3 |}.

Definition size : Size float :=
  {| n2matrix_height := 600%float; font := 11%float; minColumnWidth := 2%float;
     rightTextMargin := 8%float; parentNodeWidth := 40%float;
     partitionTree_height := 600%float |}.

(** Ten pixels for each character. *)
Definition renderedWidth (text : string) : float :=
  PrimFloat.mul 10%float (of_Z (Z.of_nat (String.length text))).

Definition noFlags : DrawFlags :=
  {| hidden := false; filtered := false; minimized := false;
     manuallyExpanded := false |}.

Definition initialDims : Dimensions float :=
  {| dims_x := 0%float; dims_y := 0%float; dims_width := 1%float;
     dims_height := 1%float |}.

(** A node before any layout: no leaves counted yet. *)
Definition fresh (f : DrawFlags) : NodeState float :=
  {| flags := f; numLeaves := 0; nameWidthPx := 1%float;
     dims := initialDims; prevDims := initialDims;
     textOpacity := None; prevTextOpacity := None |}.

Definition freshHeap : Heap float := fun _ => fresh noFlags.

Definition world (h : Heap float) : World float :=
  {| heap := h; zoomedNodes := []; visibleNodes := []; treeWidth := 0%float;
     textRenderer := None; greatestDepth := 0; leafWidthsPx := []; cols := [] |}.

(** [G] collapsed by the user. *)
Definition collapse (node : OmTreeNode) (h : Heap float) : Heap float :=
  upd h (node_id node) (fun s => set_flags (set_minimized true (flags s)) s).

Definition hide (node : OmTreeNode) (h : Heap float) : Heap float :=
  upd h (node_id node)
    (fun s => set_flags {| hidden := true; filtered := filtered (flags s);
                           minimized := minimized (flags s);
                           manuallyExpanded := manuallyExpanded (flags s) |} s).

Definition leaves (h : Heap float) : Heap float :=
  _computeLeaves model 1000 never_tooLarge top h.

(** The layout pass of a new layout object on the nodes as they are. *)
Definition pass (zoomed : OmTreeNode) (h : Heap float) : Result (World float) unit :=
  layoutPass model zoomed size 1000 never_tooLarge spec_isVisible
    spec_isVisibleLeaf renderedWidth (world h).

Definition after (zoomed : OmTreeNode) (h : Heap float) : Heap float :=
  heap (final_state (pass zoomed h)).

(** A model whose root has depth 0, as the spec numbers depths:
    root0 (0) > [ sub (1) > [ v (2) ] ]. *)
Definition v0 : OmTreeNode := variable 2 "v" 2 (ref 1 1).
Definition sub0 : OmTreeNode := group 1 "sub" 1 (Some (ref 0 0)) [v0].
Definition root0 : OmTreeNode := group 0 "root" 0 None [sub0].

Definition model0 : ModelData :=
  {| root := root0; nodeIds_length := 3; depthCount := [1; 1; 1]; maxDepth := 2 |}.

Definition pass0 (zoomed : OmTreeNode) (h : Heap float) : Result (World float) unit :=
  layoutPass model0 zoomed size 1000 never_tooLarge spec_isVisible
    spec_isVisibleLeaf renderedWidth (world h).

Definition identity : Linear float :=
  {| domain := (0%float, 1%float); range := (0%float, 1%float) |}.

Definition scales0 : Scales float :=
  {| scales_model := {| scale_x := identity; scale_y := identity;
                        scale_prev := (identity, identity) |};
     scales_firstRun := true;
     transitCoords_model := {| transit_x := 0%float; transit_y := 0%float;
                               transit_prev := (0%float, 0%float) |} |}.

(** The columns of the sample after a pass zoomed on the root. *)
Definition columns : list (Column float) :=
  [ {| col_width := 40%float; col_location := 0%float |};
    {| col_width := 56%float; col_location := 0%float |};
    {| col_width := 26%float; col_location := 56%float |};
    {| col_width := 36%float; col_location := 82%float |} ].

Definition placed (h : Heap float) : World float :=
  {| heap := h; zoomedNodes := []; visibleNodes := []; treeWidth := 118%float;
     textRenderer := None; greatestDepth := 3; leafWidthsPx := []; cols := columns |}.

Lemma top_ids_NoDup : NoDup (subtree_ids top).
Proof.
  simpl. repeat constructor; simpl; intuition discriminate.
Qed.

End Sample.



(** Four columns (depths 0 to 3) with widths 7, 5, 3 and 4, in exact
    arithmetic. *)
Definition exactColumns : list (Column Exact.xnum) :=
  map (fun q => {| col_width := Exact.Fin q; col_location := Exact.Fin 0 |})
      [7 # 1; 5 # 1; 3 # 1; 4 # 1]%Q.

Definition exactWorld : World Exact.xnum :=
  {| heap := fun _ =>
       {| flags := Sample.noFlags; numLeaves := 0; nameWidthPx := Exact.Fin 0;
          dims := {| dims_x := Exact.Fin 0; dims_y := Exact.Fin 0;
                     dims_width := Exact.Fin 0; dims_height := Exact.Fin 0 |};
          prevDims := {| dims_x := Exact.Fin 0; dims_y := Exact.Fin 0;
                         dims_width := Exact.Fin 0; dims_height := Exact.Fin 0 |};
          textOpacity := None; prevTextOpacity := None |};
     zoomedNodes := []; visibleNodes := []; treeWidth := Exact.Fin 0;
     textRenderer := None; greatestDepth := 0; leafWidthsPx := [];
     cols := exactColumns |}.

Lemma setColumnLocations_cumulative_witness :
  exists w' c1 c3,
    _setColumnLocations Sample.model exactWorld = Ok tt w' /\
    index (cols w') 1 = Some c1 /\ index (cols w') 3 = Some c3 /\
    col_location c3 = sum_from zero (widths_before exactColumns 3) /\
    nle (col_location c1) (col_location c3) = true.
Proof.
  destruct (@setColumnLocations_cumulative _ Exact.number Sample.model exactWorld)
    as (w' & Hrun & _ & Hsum & _ & _ & Hmono).
  - simpl. lia.
  - reflexivity.
  - destruct (Hsum 1) as (c1 & Hc1 & _); [simpl; lia|].
    destruct (Hsum 3) as (c3 & Hc3 & Hl3); [simpl; lia|].
    exists w', c1, c3. repeat split; try assumption.
    apply (Hmono Exact_order_laws) with (d1 := 1) (d2 := 3); try assumption;
      try (simpl; lia).
    intros d c Hd Hc. simpl in Hd.
    assert (Hcases : d = 1 \/ d = 2) by lia.
    destruct Hcases as [-> | ->]; simpl in Hc; inversion Hc; reflexivity.
Defined.


(** ** Positions on the sample *)

Lemma placeNode_not_visible_witness :
  exists w',
    placeNode Sample.model spec_isVisible Sample.g1 0 None
      (Sample.placed (Sample.hide Sample.g1 Sample.freshHeap)) = Ok tt w' /\
    dims (heap w' (node_id Sample.g1)) =
      {| dims_x := ndiv 82%float 118%float; dims_y := 0%float;
         dims_width := lit_1em6; dims_height := lit_1em6 |}.
Proof.
  destruct (@placeNode_not_visible _ Binary64.number Sample.model spec_isVisible
              Sample.g1 0 None (Sample.placed (Sample.hide Sample.g1 Sample.freshHeap))
              (Sample.ref 1 2) {| col_width := 36%float; col_location := 82%float |})
    as (w' & Hrun & Hdims & _); try reflexivity.
  exists w'. split; [exact Hrun | exact Hdims].
Defined.

(** C5 as stated fails on the x: a hidden [g1] is placed at the column
    one level below its parent component [G] (location 82 of 118), not
    at the column of [G] (location 56 of 118), which is where [G] is. *)
Lemma hidden_node_is_placed_right_of_parent :
  spec_isVisible Sample.g1
    (node_flags (Sample.after Sample.top (Sample.hide Sample.g1 Sample.freshHeap))
       Sample.g1) = false /\
  returns (Sample.pass Sample.top (Sample.hide Sample.g1 Sample.freshHeap)) = true /\
  parentComponent Sample.g1 = Some (self_ref Sample.G) /\
  option_map col_location
    (index (cols (final_state (Sample.pass Sample.top
                    (Sample.hide Sample.g1 Sample.freshHeap)))) (depth Sample.G))
    = Some 56%float /\
  dims_x (draw_dims (Sample.after Sample.top (Sample.hide Sample.g1 Sample.freshHeap))
            Sample.G) = ndiv 56%float 118%float /\
  dims_x (draw_dims (Sample.after Sample.top (Sample.hide Sample.g1 Sample.freshHeap))
            Sample.g1) = ndiv 82%float 118%float /\
  nlt (ndiv 56%float 118%float) (ndiv 82%float 118%float) = true.
Proof. repeat split; vm_compute; reflexivity. Qed.

(** C3 fails on the code: after a pass zoomed on the root, [G] is
    collapsed and a new pass is zoomed on [Z].  [G] is outside the zoomed
    subtree, so its children are placed with the leaf counts of the
    first pass: [g3] gets y = 1 and height = 0.5, and y + height = 1.5. *)
Lemma stale_leaf_counts_outside_zoom :
  returns (Sample.pass Sample.top Sample.freshHeap) = true /\
  returns (Sample.pass Sample.Z0
             (Sample.collapse Sample.G (Sample.after Sample.top Sample.freshHeap))) = true /\
  dims_y (draw_dims (Sample.after Sample.Z0
             (Sample.collapse Sample.G (Sample.after Sample.top Sample.freshHeap)))
             Sample.g3) = 1%float /\
  dims_height (draw_dims (Sample.after Sample.Z0
             (Sample.collapse Sample.G (Sample.after Sample.top Sample.freshHeap)))
             Sample.g3) = 0.5%float /\
  nle (nadd 1%float 0.5%float) (nadd 1%float 0.25%float) = false.
Proof. repeat split; vm_compute; reflexivity. Qed.

(** C6 as stated fails: a collapsed [G] with 3 leaves below it has
    height 1/2 (one row of the two the root counts), not 3/2. *)
Lemma minimized_height_is_one_row :
  leafCount Sample.G = 3 /\
  draw_minimized (Sample.after Sample.top (Sample.collapse Sample.G Sample.freshHeap))
    Sample.G = true /\
  returns (Sample.pass Sample.top (Sample.collapse Sample.G Sample.freshHeap)) = true /\
  draw_numLeaves (Sample.after Sample.top (Sample.collapse Sample.G Sample.freshHeap))
    Sample.top = 2 /\
  dims_height (draw_dims (Sample.after Sample.top
                 (Sample.collapse Sample.G Sample.freshHeap)) Sample.G)
    = ndiv (of_int 1) (of_int 2) /\
  nlt (ndiv (of_int 1) (of_int 2)) (ndiv (of_int 3) (of_int 2)) = true.
Proof. repeat split; vm_compute; reflexivity. Qed.


Lemma returns_Ok {S : Type} (r : Result S unit) :
  returns r = true -> r = Ok tt (final_state r).
Proof. destruct r as [[] s|e s]; [reflexivity | discriminate]. Qed.

Lemma spec_leaf_means_collapsed : leaf_means_collapsed spec_isVisibleLeaf.
Proof.
  intros n f H. unfold spec_isVisibleLeaf in H.
  apply orb_prop in H as [H|H]; [left; now apply negb_true_iff | now right].
Qed.

Lemma collapsed_node_height_witness :
  draw_numLeaves (Sample.after Sample.top (Sample.collapse Sample.G Sample.freshHeap))
    Sample.G = 1 /\
  dims_height (draw_dims (Sample.after Sample.top
                 (Sample.collapse Sample.G Sample.freshHeap)) Sample.G) =
  ndiv (of_int 1)
       (of_int (draw_numLeaves (Sample.after Sample.top
                  (Sample.collapse Sample.G Sample.freshHeap)) Sample.top)).
Proof.
  unfold Sample.after, Sample.pass.
  apply (@collapsed_node_height _ Binary64.number Sample.model Sample.top Sample.size
           1000 never_tooLarge spec_isVisible spec_isVisibleLeaf Sample.renderedWidth
           (Sample.world (Sample.collapse Sample.G Sample.freshHeap)) _ Sample.G).
  - exact Sample.top_ids_NoDup.
  - exact spec_leaf_means_collapsed.
  - apply returns_Ok. vm_compute. reflexivity.
  - apply Reached_child with (p := Sample.top).
    + apply Reached_top.
    + vm_compute. reflexivity.
    + vm_compute. reflexivity.
    + simpl. now left.
  - vm_compute. reflexivity.
  - vm_compute. reflexivity.
  - vm_compute. reflexivity.
  - vm_compute. reflexivity.
Defined.

Lemma top_pcs_above : pcs_above [] Sample.top.
Proof.
  simpl. repeat split; try discriminate;
    intros pc E; inversion E; subst; simpl; auto.
Qed.

Lemma layoutPass_twice_witness :
  exists w2,
    layoutPass Sample.model Sample.top Sample.size 1000 never_tooLarge spec_isVisible
      spec_isVisibleLeaf Sample.renderedWidth
      (final_state (Sample.pass Sample.top (Sample.collapse Sample.G Sample.freshHeap)))
      = Ok tt w2 /\
    (forall j,
       flags (heap w2 j) =
         flags (heap (final_state (Sample.pass Sample.top
                  (Sample.collapse Sample.G Sample.freshHeap))) j) /\
       numLeaves (heap w2 j) =
         numLeaves (heap (final_state (Sample.pass Sample.top
                  (Sample.collapse Sample.G Sample.freshHeap))) j) /\
       nameWidthPx (heap w2 j) =
         nameWidthPx (heap (final_state (Sample.pass Sample.top
                  (Sample.collapse Sample.G Sample.freshHeap))) j) /\
       dims (heap w2 j) =
         dims (heap (final_state (Sample.pass Sample.top
                  (Sample.collapse Sample.G Sample.freshHeap))) j)) /\
    cols w2 =
      cols (final_state (Sample.pass Sample.top
                           (Sample.collapse Sample.G Sample.freshHeap))) /\
    treeWidth w2 =
      treeWidth (final_state (Sample.pass Sample.top
                                (Sample.collapse Sample.G Sample.freshHeap))).
Proof.
  unfold Sample.pass.
  apply (@layoutPass_twice _ Binary64.number Sample.model Sample.top Sample.size
           1000 never_tooLarge spec_isVisible spec_isVisibleLeaf Sample.renderedWidth
           (Sample.world (Sample.collapse Sample.G Sample.freshHeap))).
  - exact Sample.top_ids_NoDup.
  - exact top_pcs_above.
  - apply returns_Ok. vm_compute. reflexivity.
  - reflexivity.
Defined.

(** ** Runs of the further properties *)

Definition measuring : World float :=
  with_textRenderer (Some []) (Sample.world Sample.freshHeap).


Lemma updateTextWidths_rendered_witness :
  exists w',
    bind _setupTextRenderer
         (fun _ => _updateTextWidths Sample.size Sample.renderedWidth Sample.top)
         (Sample.world Sample.freshHeap) = Ok tt w'.
Proof.
  destruct (@updateTextWidths_rendered float _ Sample.top Sample.size
              Sample.renderedWidth (Sample.world Sample.freshHeap)
              Sample.top_ids_NoDup) as (w' & H & _).
  exists w'. exact H.
Defined.

Lemma computeLeaves_bounds_witness :
  0 <= draw_numLeaves (Sample.leaves Sample.freshHeap) Sample.G <= leafCount Sample.G.
Proof.
  apply (@computeLeaves_bounds float Sample.model 1000 never_tooLarge
           Sample.freshHeap Sample.G).
  - exact Sample.top_ids_NoDup.
  - apply Reached_child with (p := Sample.top).
    + apply Reached_top.
    + vm_compute. reflexivity.
    + vm_compute. reflexivity.
    + simpl. now left.
Defined.

Lemma computeLeaves_counts_all_leaves_witness :
  draw_numLeaves (Sample.leaves Sample.freshHeap) Sample.top = leafCount Sample.top.
Proof.
  apply (@computeLeaves_counts_all_leaves float Sample.model 1000 never_tooLarge
           Sample.freshHeap).
  - simpl. lia.
  - simpl. repeat constructor; discriminate.
  - exact Sample.top_ids_NoDup.
  - intros j _. repeat split; reflexivity.
Defined.

Definition allowing : Transitions :=
  {| curVisibleNodeCount := number 0; prevVisibleNodeCount := number 0;
     visibleNodeCount := number 2;
     d3_selection := {| transitionAllowed := true; method := fun _ => original |} |}.

Lemma setTransitionPermission_consistent_witness :
  d3_consistent [m_transition; m_duration; m_delay]
    (d3_selection
       (setTransitionPermission 5 [m_transition; m_duration; m_delay] 7 allowing)).
Proof.
  apply (@setTransitionPermission_consistent 5 [m_transition; m_duration; m_delay]
           7 allowing).
  split; [discriminate | reflexivity].
Defined.

Lemma setTransitionPermission_untouched_witness :
  d3_selection
    (setTransitionPermission 5 [m_transition; m_duration; m_delay] 3 allowing) =
  d3_selection allowing.
Proof.
  apply (@setTransitionPermission_untouched 5 [m_transition; m_duration; m_delay]
           3 allowing).
  reflexivity.
Defined.

Definition counted : World float := Sample.world (Sample.leaves Sample.freshHeap).

Lemma computeColumnWidths_columns_witness :
  0 <= maxDepth Sample.model /\
  List.length
    (cols (final_state (_computeColumnWidths Sample.model Sample.top Sample.size counted)))
    = Z.to_nat (maxDepth Sample.model + 1) /\
  Forall (fun c => col_location c = zero)
    (cols (final_state (_computeColumnWidths Sample.model Sample.top Sample.size counted)))
  /\
  exists w2,
    _setColumnLocations Sample.model
      (final_state (_computeColumnWidths Sample.model Sample.top Sample.size counted))
    = Ok tt w2.
Proof.
  refine (@computeColumnWidths_columns float _ Sample.model Sample.top Sample.size
            counted
            (final_state
               (_computeColumnWidths Sample.model Sample.top Sample.size counted))
            _).
  apply returns_Ok. vm_compute. reflexivity.
Defined.

Lemma setColumnLocations_missing_column_witness :
  exists w',
    _setColumnLocations Sample.model (Sample.world Sample.freshHeap)
      = Throw TypeError w' /\
    heap w' = heap (Sample.world Sample.freshHeap) /\
    zoomedNodes w' = zoomedNodes (Sample.world Sample.freshHeap) /\
    visibleNodes w' = visibleNodes (Sample.world Sample.freshHeap).
Proof.
  apply (@setColumnLocations_missing_column float _ Sample.model
           (Sample.world Sample.freshHeap)).
  - simpl. lia.
  - simpl. lia.
Defined.

Lemma computeColumns_leaves_behind_witness :
  textRenderer
    (final_state
       (computeColumns Sample.model Sample.top Sample.size Sample.renderedWidth counted))
  = None.
Proof.
  refine (proj1 (@computeColumns_leaves_behind float _ Sample.model Sample.top
                   Sample.size Sample.renderedWidth counted
                   (final_state
                      (computeColumns Sample.model Sample.top Sample.size
                         Sample.renderedWidth counted))
                   _)).
  apply returns_Ok. vm_compute. reflexivity.
Defined.

Lemma positions_outside_zoom_witness :
  zoomedNodes
    (final_state
       (_computeNormalizedPositions Sample.model Sample.Z0 spec_isVisible
          spec_isVisibleLeaf Sample.G 0 false None
          (Sample.placed (Sample.leaves Sample.freshHeap)))) = [] /\
  visibleNodes
    (final_state
       (_computeNormalizedPositions Sample.model Sample.Z0 spec_isVisible
          spec_isVisibleLeaf Sample.G 0 false None
          (Sample.placed (Sample.leaves Sample.freshHeap)))) = [].
Proof.
  apply (@positions_outside_zoom float _ Sample.model Sample.Z0 spec_isVisible
           spec_isVisibleLeaf Sample.G).
  simpl. intros [H|[H|[H|[H|[]]]]]; discriminate.
Defined.

Definition collapsed : World float :=
  Sample.world (Sample.collapse Sample.G Sample.freshHeap).

Definition collapsedAfter : World float :=
  final_state
    (layoutPass Sample.model Sample.top Sample.size 1000 never_tooLarge
       spec_isVisible spec_isVisibleLeaf Sample.renderedWidth collapsed).

Lemma layoutPass_lists_witness :
  incl (visibleNodes collapsedAfter) (zoomedNodes collapsedAfter) /\
  incl (visibleNodes collapsedAfter) (subtree_ids (root Sample.model)) /\
  Forall (fun j => hidden (flags (heap collapsedAfter j)) = false)
         (visibleNodes collapsedAfter) /\
  exists zs,
    incl zs (subtree_ids (root Sample.model)) /\
    zoomedNodes collapsedAfter =
      zs ++ match parent Sample.top with
            | Some p => [ref_id p]
            | None => []
            end.
Proof.
  refine (@layoutPass_lists float _ Sample.model Sample.top Sample.size 1000
            never_tooLarge spec_isVisible spec_isVisibleLeaf
            Sample.renderedWidth collapsed collapsedAfter _ eq_refl eq_refl).
  unfold collapsedAfter. apply returns_Ok. vm_compute. reflexivity.
Defined.

Lemma ltb_irreflexive (a : float) : PrimFloat.ltb a a = false.
Proof.
  rewrite FloatAxioms.ltb_spec. unfold SpecFloat.SFltb.
  destruct (Prim2SF a) as [s|s| |s m e]; simpl.
  - reflexivity.
  - destruct s; reflexivity.
  - reflexivity.
  - destruct s; rewrite Z.compare_refl, Pos.compare_cont_refl; reflexivity.
Qed.

Definition matrix : N2Matrix float :=
  {| n2matrix_margin := 10%float; n2matrix_width := 600%float |}.

Definition browser : Window float :=
  {| innerWidth := 1000%float; innerHeight := 800%float |}.

Lemma calcFitDims_fits_witness :
  ngt (fst (calcFitDims matrix browser 0x1.e666666666666p-1%float
              (Sample.placed Sample.freshHeap)))
      (nsub (innerWidth browser) (of_int 200)) = false.
Proof.
  apply (@calcFitDims_fits float _ matrix browser 0x1.e666666666666p-1%float
           (Sample.placed Sample.freshHeap)).
  exact ltb_irreflexive.
Defined.

Lemma updateTransitionInfo_ratio_at_most_one_witness :
  ngt (updateTransitionInfo_ratio Sample.size matrix browser
         (Sample.placed Sample.freshHeap) false) one = false.
Proof.
  apply (@updateTransitionInfo_ratio_at_most_one float _ Sample.size matrix browser
           (Sample.placed Sample.freshHeap) false).
  reflexivity.
Defined.

Lemma computeLeaves_idempotent_witness :
  Sample.leaves (Sample.leaves (Sample.collapse Sample.G Sample.freshHeap)) 1%nat =
  Sample.leaves (Sample.collapse Sample.G Sample.freshHeap) 1%nat.
Proof.
  apply (@computeLeaves_idempotent float Sample.model 1000 never_tooLarge Sample.top
           (Sample.collapse Sample.G Sample.freshHeap) 1%nat).
  exact Sample.top_ids_NoDup.
Defined.

Lemma computeColumnWidths_greatestDepth_witness :
  exists c,
    index
      (cols (final_state
               (_computeColumnWidths Sample.model Sample.top Sample.size counted)))
      (greatestDepth
         (final_state
            (_computeColumnWidths Sample.model Sample.top Sample.size counted)))
    = Some c.
Proof.
  refine (proj2 (proj2 (proj2
            (@computeColumnWidths_greatestDepth float _ Sample.model Sample.top
               Sample.size counted
               (final_state
                  (_computeColumnWidths Sample.model Sample.top Sample.size counted))
               _)))).
  apply returns_Ok. vm_compute. reflexivity.
Defined.

Definition rootHidden : World float :=
  Sample.world (Sample.hide Sample.top Sample.freshHeap).

Lemma layoutPass_root_not_visible_witness :
  returns (layoutPass Sample.model Sample.top Sample.size 1000 never_tooLarge
             spec_isVisible spec_isVisibleLeaf Sample.renderedWidth rootHidden)
  = false.
Proof.
  apply (@layoutPass_root_not_visible float _ Sample.model Sample.top Sample.size 1000
           never_tooLarge spec_isVisible spec_isVisibleLeaf Sample.renderedWidth
           rootHidden).
  - vm_compute. reflexivity.
  - reflexivity.
Defined.

Definition untouchedWorld : World float := Sample.world Sample.freshHeap.

Lemma layoutPass_root_dims_witness :
  dims_y (draw_dims
            (heap (final_state
                     (layoutPass Sample.model Sample.top Sample.size 1000
                        never_tooLarge spec_isVisible spec_isVisibleLeaf
                        Sample.renderedWidth untouchedWorld)))
            (root Sample.model)) =
  ndiv (of_int 0)
       (of_int (draw_numLeaves
                  (heap (final_state
                           (layoutPass Sample.model Sample.top Sample.size 1000
                              never_tooLarge spec_isVisible spec_isVisibleLeaf
                              Sample.renderedWidth untouchedWorld)))
                  (root Sample.model))).
Proof.
  refine (proj1 (@layoutPass_root_dims float _ Sample.model Sample.top Sample.size 1000
                   never_tooLarge spec_isVisible spec_isVisibleLeaf
                   Sample.renderedWidth untouchedWorld
                   (final_state
                      (layoutPass Sample.model Sample.top Sample.size 1000
                         never_tooLarge spec_isVisible spec_isVisibleLeaf
                         Sample.renderedWidth untouchedWorld))
                   _ Sample.top_ids_NoDup _)).
  - apply returns_Ok. vm_compute. reflexivity.
  - vm_compute. reflexivity.
Defined.
